(** * Mycelium-inspired graph algorithms: a shallow embedding

    This development embeds [MyceliumAlgorithms] (mycelium_algorithm.py):
    [hyphal_growth_pathfinding], [nutrient_flow_simulation] and
    [self_healing_response], together with the part of the networkx
    [Graph] interface they call, and [MyceliumGraphDatabase] with
    [create_mycelium_inspired_network] (mycelium_database.py) as they
    behave without a Neo4j driver.

    Conventions of the embedding:
    - Python numbers are exact rationals ([Q]); [0.1] is [1 # 10].  Rounding
      of binary floating point is outside the model: where a theorem gives
      a value, it is the expression the code evaluates, read exactly.
    - A networkx graph keeps its nodes and, per node, its neighbours in
      insertion-ordered dicts.  The embedding keeps the node dict as an
      association list and the edges as one list in insertion order; the
      per-node adjacency order and the order of [graph.edges()] are derived
      from these two lists exactly as networkx derives them.
    - A raised exception is [None]; [shortest_path] distinguishes the two
      exceptions the callers treat differently.
    - The module-level [random] generator is an explicit oracle that is
      threaded through the calls. *)

From Stdlib Require Import QArith Qminmax Qabs Lqa.
From stdpp Require Import base tactics option list relations strings pretty gmap.

#[local] Set Warnings "-clear-no-such-hyp".
Local Open Scope Q_scope.

(** ** Attributes *)

Definition node := string.

(** The attribute dict of a node; an absent key is [None]. *)
Record NodeAttrs := mkNodeAttrs {
  resources : option Q;
  node_type : option string;
  health : option Q;
  connections : option Z
}.

(** The attribute dict of an edge; an absent key is [None]. *)
Record EdgeAttrs := mkEdgeAttrs {
  strength : option Q;
  capacity : option Q;
  flow : option Q;
  last_used : option Q;
  healing_connection : option bool
}.

Definition empty_node_attrs : NodeAttrs := mkNodeAttrs None None None None.

(** [d.get('resources', 0)] *)
Definition get_resources (a : NodeAttrs) : Q := default 0 (resources a).
(** [d.get('capacity', 1)] *)
Definition get_capacity (a : EdgeAttrs) : Q := default 1 (capacity a).
(** [d.get('strength', 1.0)] *)
Definition get_strength (a : EdgeAttrs) : Q := default 1 (strength a).

(** [d['resources'] = q] *)
Definition with_resources (q : Q) (a : NodeAttrs) : NodeAttrs :=
  mkNodeAttrs (Some q) (node_type a) (health a) (connections a).
(** [d['strength'] = q] *)
Definition with_strength (q : Q) (a : EdgeAttrs) : EdgeAttrs :=
  mkEdgeAttrs (Some q) (capacity a) (flow a) (last_used a) (healing_connection a).

(** [d.update(upd)]: the keys present in [upd] replace those of [d]. *)
Definition update_edge_attrs (upd d : EdgeAttrs) : EdgeAttrs :=
  mkEdgeAttrs
    (from_option Some (strength d) (strength upd))
    (from_option Some (capacity d) (capacity upd))
    (from_option Some (flow d) (flow upd))
    (from_option Some (last_used d) (last_used upd))
    (from_option Some (healing_connection d) (healing_connection upd)).

(** ** The graph *)

Record Graph := mkGraph {
  nodes : list (node * NodeAttrs);
  edges : list (node * node * EdgeAttrs)
}.

Definition node_keys (g : Graph) : list node := (nodes g).*1.
Definition edge_keys (g : Graph) : list (node * node) := (edges g).*1.

(** An undirected edge is an unordered pair. *)
Definition same_edge (e1 e2 : node * node) : Prop :=
  (e1.1 = e2.1 ∧ e1.2 = e2.2) ∨ (e1.1 = e2.2 ∧ e1.2 = e2.1).

Global Instance same_edge_dec e1 e2 : Decision (same_edge e1 e2).
Proof. unfold same_edge. apply _. Defined.

(** [n in graph] *)
Definition has_node (g : Graph) (n : node) : bool := bool_decide (n ∈ node_keys g).

(** [graph.nodes[n]]; [None] is the KeyError. *)
Fixpoint lookup_node (n : node) (l : list (node * NodeAttrs)) : option NodeAttrs :=
  match l with
  | [] => None
  | (k, a) :: l' => if decide (k = n) then Some a else lookup_node n l'
  end.
Definition node_attrs (g : Graph) (n : node) : option NodeAttrs := lookup_node n (nodes g).

(** [graph.edges[u, v]]; [None] is the KeyError. *)
Fixpoint lookup_edge (e : node * node) (l : list (node * node * EdgeAttrs)) : option EdgeAttrs :=
  match l with
  | [] => None
  | (k, a) :: l' => if decide (same_edge k e) then Some a else lookup_edge e l'
  end.
Definition edge_attrs (g : Graph) (e : node * node) : option EdgeAttrs := lookup_edge e (edges g).

(** [graph.has_edge(u, v)] *)
Definition has_edge (g : Graph) (u v : node) : bool :=
  bool_decide (Exists (λ k, same_edge k (u, v)) (edge_keys g)).

(** The other endpoint of an edge incident to [n]. *)
Definition other_end (n : node) (e : node * node * EdgeAttrs) : option node :=
  if decide (e.1.1 = n) then Some e.1.2
  else if decide (e.1.2 = n) then Some e.1.1 else None.

(** [graph.neighbors(n)], in the insertion order of the adjacency dict. *)
Definition neighbors (g : Graph) (n : node) : list node := omap (other_end n) (edges g).

Definition adjacent (g : Graph) (u v : node) : Prop := v ∈ neighbors g u.

(** [graph.edges()]: every node in node order reports the neighbours that
    were not reported from the other side before. *)
Fixpoint edges_from (g : Graph) (ns seen : list node) : list (node * node) :=
  match ns with
  | [] => []
  | n :: ns' =>
      ((λ nbr, (n, nbr)) <$> filter (λ nbr, nbr ∉ seen) (neighbors g n))
        ++ edges_from g ns' (n :: seen)
  end.
Definition edges_view (g : Graph) : list (node * node) := edges_from g (node_keys g) [].

(** [graph.nodes[n]['resources'] = q] *)
Definition set_resources (g : Graph) (n : node) (q : Q) : option Graph :=
  if has_node g n then
    Some (mkGraph
            ((λ ka, if decide (ka.1 = n) then (ka.1, with_resources q ka.2) else ka) <$> nodes g)
            (edges g))
  else None.

(** [graph.edges[e]['strength'] = q] *)
Definition set_strength (g : Graph) (e : node * node) (q : Q) : option Graph :=
  if has_edge g e.1 e.2 then
    Some (mkGraph
            (nodes g)
            ((λ ka, if decide (same_edge ka.1 e) then (ka.1, with_strength q ka.2) else ka) <$> edges g))
  else None.

(** [graph.remove_edge(u, v)]; networkx raises when the edge is absent. *)
Definition remove_edge (g : Graph) (u v : node) : option Graph :=
  if has_edge g u v then
    Some (mkGraph (nodes g) (filter (λ ka, ¬ same_edge ka.1 (u, v)) (edges g)))
  else None.

(** [graph.remove_node(n)]: the node and its incident edges go; networkx
    raises when the node is absent. *)
Definition remove_node (g : Graph) (n : node) : option Graph :=
  if has_node g n then
    Some (mkGraph
            (filter (λ ka, ka.1 ≠ n) (nodes g))
            (filter (λ ka, ka.1.1 ≠ n ∧ ka.1.2 ≠ n) (edges g)))
  else None.

(** The node part of [graph.add_edge]: a missing endpoint is created with
    an empty attribute dict. *)
Definition ensure_node (n : node) (l : list (node * NodeAttrs)) : list (node * NodeAttrs) :=
  if decide (n ∈ l.*1) then l else l ++ [(n, empty_node_attrs)].

(** [graph.add_edge(u, v, **attr)] *)
Definition add_edge (g : Graph) (u v : node) (attr : EdgeAttrs) : Graph :=
  mkGraph
    (ensure_node v (ensure_node u (nodes g)))
    (if has_edge g u v then
       (λ ka, if decide (same_edge ka.1 (u, v)) then (ka.1, update_edge_attrs attr ka.2) else ka)
         <$> edges g
     else edges g ++ [(u, v, update_edge_attrs attr (mkEdgeAttrs None None None None None))]).

(** The graphs networkx can hold: dict keys are unique, every edge joins
    two nodes of the graph, and an unordered pair is stored once. *)
Fixpoint edges_distinct (l : list (node * node)) : Prop :=
  match l with
  | [] => True
  | e :: l' => Forall (λ e', ¬ same_edge e e') l' ∧ edges_distinct l'
  end.

Global Instance edges_distinct_dec l : Decision (edges_distinct l).
Proof. induction l; simpl; apply _. Defined.

(** Every edge joins two nodes of the graph. *)
Definition closed_graph (g : Graph) : Prop :=
  Forall (λ e, e.1 ∈ node_keys g ∧ e.2 ∈ node_keys g) (edge_keys g).

Global Instance closed_graph_dec g : Decision (closed_graph g).
Proof. unfold closed_graph. apply _. Defined.

Record wf_graph (g : Graph) : Prop := mk_wf {
  wf_nodes : NoDup (node_keys g);
  wf_closed : closed_graph g;
  wf_edges : edges_distinct (edge_keys g)
}.

Global Instance wf_graph_dec g : Decision (wf_graph g).
Proof.
  refine (cast_if (decide (NoDup (node_keys g) ∧ closed_graph g
                           ∧ edges_distinct (edge_keys g))));
    [destruct a as (?&?&?); by constructor|intros []; naive_solver].
Defined.

(** Sum of the [resources] of all nodes. *)
Definition total_resources (g : Graph) : Q :=
  foldr (λ ka acc, get_resources ka.2 + acc) 0 (nodes g).

(** The [resources] a read of node [n] returns (0 for an absent node). *)
Definition resources_of (g : Graph) (n : node) : Q :=
  from_option get_resources 0 (node_attrs g n).

(** The [strength] a read of edge [e] returns (1 for an absent edge). *)
Definition strength_of (g : Graph) (e : node * node) : Q :=
  from_option get_strength 1 (edge_attrs g e).

(** The [capacity] a read of edge [e] returns (1 for an absent edge). *)
Definition capacity_of (g : Graph) (e : node * node) : Q :=
  from_option get_capacity 1 (edge_attrs g e).

(** The value ranges of the data model, as the algorithms read them. *)
Definition resources_nonneg (g : Graph) : Prop :=
  Forall (λ n, 0 <= resources_of g n) (node_keys g).
Definition capacities_nonneg (g : Graph) : Prop :=
  Forall (λ e, 0 <= capacity_of g e) (edge_keys g).
Definition capacities_positive (g : Graph) : Prop :=
  Forall (λ e, 0 < capacity_of g e) (edge_keys g).
Definition strengths_in_range (g : Graph) : Prop :=
  Forall (λ e, 0 <= strength_of g e ∧ strength_of g e <= 2) (edge_keys g).

(** The three ranges together. *)
Definition in_ranges (g : Graph) : Prop :=
  resources_nonneg g ∧ capacities_positive g ∧ strengths_in_range g.

(** ** nutrient_flow_simulation *)

(** One value of the [step_flows] dict. *)
Record FlowData := mkFlow {
  direction : node * node;
  amount : Q
}.

Definition StepFlows := list ((node * node) * FlowData).

Definition Qgtb (x y : Q) : bool := negb (Qle_bool x y).

(** The first loop of a time step: flows are computed from the resources
    as they stand, nothing is written. *)
Fixpoint calculate_flows (g : Graph) (es : list (node * node)) : option StepFlows :=
  match es with
  | [] => Some []
  | edge :: es' =>
      let '(node1, node2) := edge in
      a1 ← node_attrs g node1;
      a2 ← node_attrs g node2;
      let resource1 := get_resources a1 in
      let resource2 := get_resources a2 in
      if negb (Qeq_bool resource1 resource2) then
        ea ← edge_attrs g edge;
        let flow_rate := Qmin (get_capacity ea) (Qabs (resource1 - resource2) * (1 # 10)) in
        let flow_data :=
          if Qgtb resource1 resource2
          then mkFlow (node1, node2) flow_rate
          else mkFlow (node2, node1) flow_rate in
        rest ← calculate_flows g es';
        Some ((edge, flow_data) :: rest)
      else calculate_flows g es'
  end.

(** The body of the second loop: one recorded flow is applied. *)
Definition apply_flow (g : Graph) (ef : (node * node) * FlowData) : option Graph :=
  let '(edge, flow_data) := ef in
  let '(from_node, to_node) := direction flow_data in
  let amount := amount flow_data in
  afrom ← node_attrs g from_node;
  ato ← node_attrs g to_node;
  let current_from := get_resources afrom in
  let current_to := get_resources ato in
  g1 ← set_resources g from_node (Qmax 0 (current_from - amount));
  g2 ← set_resources g1 to_node (current_to + amount);
  ea ← edge_attrs g2 edge;
  let current_strength := get_strength ea in
  set_strength g2 edge (Qmin 2 (current_strength + (1 # 10))).

Fixpoint apply_flows (g : Graph) (fs : StepFlows) : option Graph :=
  match fs with
  | [] => Some g
  | ef :: fs' => g' ← apply_flow g ef; apply_flows g' fs'
  end.

(** One iteration of [for step in range(time_steps)]. *)
Definition flow_step (g : Graph) : option (StepFlows * Graph) :=
  step_flows ← calculate_flows g (edges_view g);
  g' ← apply_flows g step_flows;
  Some (step_flows, g').

Fixpoint flow_steps (g : Graph) (n : nat) : option (list StepFlows * Graph) :=
  match n with
  | O => Some ([], g)
  | S n' =>
      '(step_flows, g1) ← flow_step g;
      '(flow_history, g2) ← flow_steps g1 n';
      Some (step_flows :: flow_history, g2)
  end.

(** What [calculate_flows] records for an edge of [es]. *)
Definition flow_entry (g : Graph) (es : list (node * node))
    (ef : (node * node) * FlowData) : Prop :=
  ef.1 ∈ es ∧
  amount ef.2
    = Qmin (capacity_of g ef.1)
        (Qabs (resources_of g ef.1.1 - resources_of g ef.1.2) * (1 # 10)) ∧
  ¬ resources_of g ef.1.1 == resources_of g ef.1.2 ∧
  direction ef.2
    = (if Qgtb (resources_of g ef.1.1) (resources_of g ef.1.2)
       then ef.1 else (ef.1.2, ef.1.1)) ∧
  ef.1.1 ∈ node_keys g ∧ ef.1.2 ∈ node_keys g ∧ has_edge g ef.1.1 ef.1.2 = true.

(** The keys a flow touches exist. *)
Definition applicable (g : Graph) (ef : (node * node) * FlowData) : Prop :=
  (direction ef.2).1 ∈ node_keys g ∧ (direction ef.2).2 ∈ node_keys g
  ∧ has_edge g ef.1.1 ef.1.2 = true.

(** The edge [e] is in the step's record with an amount other than 0. *)
Definition carries_flow (fs : StepFlows) (e : node * node) : Prop :=
  Exists (λ ef, same_edge e ef.1 ∧ ¬ amount ef.2 == 0) fs.

(** The edge [e] is a key of the step's record, whatever the amount. *)
Definition recorded (fs : StepFlows) (e : node * node) : Prop :=
  Exists (same_edge e) fs.*1.

(** Returns the flow history and the graph as the call leaves it. *)
Definition nutrient_flow_simulation (g : Graph) (source_nodes sink_nodes : list node)
    (time_steps : Z) : option (list StepFlows * Graph) :=
  flow_steps g (Z.to_nat time_steps).

(** ** The random generator

    [random.random()] and [random.choice] draw from one generator; the
    oracle gives the outcome of the draw made at each position. *)

Record Rng := mkRng {
  unit_draw : nat → Q;
  index_draw : nat → nat;
  position : nat
}.

Definition advance (r : Rng) : Rng :=
  mkRng (unit_draw r) (index_draw r) (S (position r)).

(** [random.random()] *)
Definition random (r : Rng) : Q * Rng := (unit_draw r (position r), advance r).

(** [random.choice(seq)]; an empty sequence raises IndexError. *)
Definition choice (seq : list node) (r : Rng) : option (node * Rng) :=
  x ← seq !! (index_draw r (position r) `mod` length seq)%nat;
  Some (x, advance r).

(** ** Breadth-first search (networkx)

    [nx.shortest_path] without weights and [nx.connected_components] are
    library code.  Both are modelled by one breadth-first exploration that
    records, for every node it reaches, the node and the reversed path that
    led to it.  networkx searches from both ends and so can return another
    of several equally short paths than the search below, which takes the
    first one it meets; what is proved of a returned path here (it is a
    walk, and no walk is shorter) holds of any of them. *)

Definition Entry := (node * list node)%type.

(** Every neighbour of every frontier node, with the path through it. *)
Definition candidates (g : Graph) (frontier : list Entry) : list Entry :=
  e ← frontier; (λ nbr, (nbr, e.1 :: e.2)) <$> neighbors g e.1.

(** Keeps the first entry of every node that has not been seen. *)
Fixpoint first_unseen (seen : list node) (l : list Entry) : list Entry :=
  match l with
  | [] => []
  | e :: l' =>
      if decide (e.1 ∈ seen) then first_unseen seen l'
      else e :: first_unseen (e.1 :: seen) l'
  end.

Fixpoint bfs_layers (g : Graph) (fuel : nat) (seen : list node) (frontier : list Entry)
    : list Entry :=
  match frontier, fuel with
  | [], _ => []
  | _, O => frontier
  | _, S fuel' =>
      let next := first_unseen seen (candidates g frontier) in
      frontier ++ bfs_layers g fuel' (next.*1 ++ seen) next
  end.

Definition bfs (g : Graph) (s : node) : list Entry :=
  bfs_layers g (length (nodes g)) [s] [(s, [])].

Inductive PathResult :=
  | Path (p : list node)
  | NetworkXNoPath
  | NodeNotFound.

(** [nx.shortest_path(graph, source, target)] *)
Definition shortest_path (g : Graph) (source target : node) : PathResult :=
  if has_node g source && has_node g target then
    match list_find (λ e : Entry, e.1 = target) (bfs g source) with
    | Some (_, e) => Path (reverse (e.1 :: e.2))
    | None => NetworkXNoPath
    end
  else NodeNotFound.

(** The node set of the component of [s]. *)
Definition plain_bfs (g : Graph) (s : node) : list node := (bfs g s).*1.

Fixpoint components_from (g : Graph) (vs seen : list node) : list (list node) :=
  match vs with
  | [] => []
  | v :: vs' =>
      if decide (v ∈ seen) then components_from g vs' seen
      else let c := plain_bfs g v in c :: components_from g vs' (c ++ seen)
  end.

(** [list(nx.connected_components(graph))] *)
Definition connected_components (g : Graph) : list (list node) :=
  components_from g (node_keys g) [].

(** [p] lists the nodes of a walk from [s] to [t] along edges of [g]. *)
Definition path_between (g : Graph) (s t : node) (p : list node) : Prop :=
  head p = Some s ∧ last p = Some t
  ∧ ∀ i a b, p !! i = Some a → p !! S i = Some b → adjacent g a b.

(** Every two nodes of the graph are joined by a walk. *)
Definition connected_graph (g : Graph) : Prop :=
  ∀ u v, u ∈ node_keys g → v ∈ node_keys g → rtc (adjacent g) u v.

(** ** hyphal_growth_pathfinding

    The function copies the caller's graph, so graphs live in a store and
    are named by their position in it; [graph.copy()] allocates a graph
    that networkx builds anew from the nodes and the adjacency dicts. *)

Abbreviation Store := (list Graph).

(** The [(u, v, datadict)] triples of node [n]: its adjacency dict in
    insertion order. *)
Definition adjacency (g : Graph) (n : node) : list (node * node * EdgeAttrs) :=
  omap (λ e, v ← other_end n e; Some (n, v, e.2)) (edges g).

(** What [graph.copy()] builds: a new graph that gets the nodes in their
    order and then, for every node in that order, the triples of its
    adjacency dict through [add_edge].  An edge is created when the first
    of its ends is visited, with that end first, and updated with its own
    attributes at the second visit; so the copy has the nodes, edges and
    attributes of the graph, but a node of the copy can list its
    neighbours in another order. *)
Definition copy_of (g : Graph) : Graph :=
  foldl (λ acc e, add_edge acc e.1.1 e.1.2 e.2) (mkGraph (nodes g) [])
    (n ← node_keys g; adjacency g n).

(** [graph.copy()] *)
Definition graph_copy (σ : Store) (r : nat) : option (nat * Store) :=
  g ← σ !! r; Some (length σ, σ ++ [copy_of g]).

(** The loop over [range(len(path)-1)] on the graph at [temp]. *)
Fixpoint perturb_path (σ : Store) (temp : nat) (path : list node) (rng : Rng)
    : option (Store * Rng) :=
  match path with
  | u :: rest =>
      match rest with
      | v :: _ =>
          t ← σ !! temp;
          if has_edge t u v then
            let '(x, rng1) := random rng in
            if Qgtb (3 # 10) x then
              t' ← remove_edge t u v;
              perturb_path (<[temp := t']> σ) temp rest rng1
            else perturb_path σ temp rest rng1
          else perturb_path σ temp rest rng
      | [] => Some (σ, rng)
      end
  | [] => Some (σ, rng)
  end.

(** The loop over the paths found so far. *)
Fixpoint perturb_paths (σ : Store) (temp : nat) (paths : list (string * list node))
    (rng : Rng) : option (Store * Rng) :=
  match paths with
  | [] => Some (σ, rng)
  | (_, path) :: paths' =>
      '(σ1, rng1) ← perturb_path σ temp path rng;
      perturb_paths σ1 temp paths' rng1
  end.

(** One pass of [for _ in range(3)]. *)
Definition alternative_trial (graph : nat) (start target : node)
    (st : list (string * list node) * Store * Rng)
    : option (list (string * list node) * Store * Rng) :=
  let '(paths, σ, rng) := st in
  '(temp_graph, σ1) ← graph_copy σ graph;
  '(σ2, rng2) ← perturb_paths σ1 temp_graph paths rng;
  t ← σ2 !! temp_graph;
  match shortest_path t start target with
  | Path alt_path =>
      if decide (alt_path ∈ paths.*2) then Some (paths, σ2, rng2)
      else Some (paths ++ [("alternative_" +:+ pretty (length paths), alt_path)], σ2, rng2)
  | NetworkXNoPath => Some (paths, σ2, rng2)
  | NodeNotFound => None
  end.

Definition hyphal_growth_pathfinding (σ : Store) (graph : nat) (start target : node)
    (avoid_overused : bool) (rng : Rng)
    : option (list (string * list node) * Store * Rng) :=
  g ← σ !! graph;
  match shortest_path g start target with
  | Path primary =>
      st1 ← alternative_trial graph start target ([("primary", primary)], σ, rng);
      st2 ← alternative_trial graph start target st1;
      alternative_trial graph start target st2
  | NetworkXNoPath => Some ([], σ, rng)
  | NodeNotFound => None
  end.

(** ** self_healing_response *)

(** The two f-strings appended to [healing_actions], by their fields. *)
Inductive Action :=
  | RemovedDamaged (n : node) (redistributed : Q)
  | HealingConnection (node1 node2 : node).

(** The loop over [neighbors] that hands out the shares. *)
Fixpoint redistribute (g : Graph) (nbrs : list node) (resource_per_neighbor : Q)
    : option Graph :=
  match nbrs with
  | [] => Some g
  | neighbor :: nbrs' =>
      a ← node_attrs g neighbor;
      let current_resources := get_resources a in
      g' ← set_resources g neighbor (current_resources + resource_per_neighbor);
      redistribute g' nbrs' resource_per_neighbor
  end.

(** The body of [for node in damaged_nodes]. *)
Definition heal_node (g : Graph) (n : node) : option (Graph * list Action) :=
  if has_node g n then
    let nbrs := neighbors g n in
    a ← node_attrs g n;
    let res := get_resources a in
    g1 ← (if bool_decide (nbrs ≠ []) then
            redistribute g nbrs (res / inject_Z (Z.of_nat (length nbrs)))
          else Some g);
    g2 ← remove_node g1 n;
    Some (g2, [RemovedDamaged n res])
  else Some (g, []).

Fixpoint remove_damaged (g : Graph) (damaged_nodes : list node) : option (Graph * list Action) :=
  match damaged_nodes with
  | [] => Some (g, [])
  | n :: rest =>
      '(g1, acts1) ← heal_node g n;
      '(g2, acts2) ← remove_damaged g1 rest;
      Some (g2, acts1 ++ acts2)
  end.

Definition healing_attrs (healing_factor : Q) : EdgeAttrs :=
  mkEdgeAttrs (Some healing_factor) (Some 5) None None (Some true).

(** The loop over [range(len(components) - 1)]. *)
Fixpoint connect_components (g : Graph) (components : list (list node))
    (healing_factor : Q) (rng : Rng) : option (Graph * list Action * Rng) :=
  match components with
  | comp1_nodes :: rest =>
      match rest with
      | comp2_nodes :: _ =>
          '(node1, rng1) ← choice comp1_nodes rng;
          '(node2, rng2) ← choice comp2_nodes rng1;
          let g1 := add_edge g node1 node2 (healing_attrs healing_factor) in
          '(g', acts, rng') ← connect_components g1 rest healing_factor rng2;
          Some (g', HealingConnection node1 node2 :: acts, rng')
      | [] => Some (g, [], rng)
      end
  | [] => Some (g, [], rng)
  end.

Definition self_healing_response (g : Graph) (damaged_nodes : list node)
    (healing_factor : Q) (rng : Rng) : option (list Action * Graph * Rng) :=
  '(g1, acts1) ← remove_damaged g damaged_nodes;
  let components := connected_components g1 in
  if bool_decide (1 < length components)%nat then
    '(g2, acts2, rng') ← connect_components g1 components healing_factor rng;
    Some (acts1 ++ acts2, g2, rng')
  else Some (acts1, g1, rng).

(** ** Missing attributes written out

    [write_defaults dr dc ds g] is [g] with every absent [resources],
    [capacity] and [strength] attribute stored explicitly. *)

Definition fill_node (dr : Q) (a : NodeAttrs) : NodeAttrs :=
  mkNodeAttrs (Some (default dr (resources a))) (node_type a) (health a) (connections a).

Definition fill_edge (dc ds : Q) (a : EdgeAttrs) : EdgeAttrs :=
  mkEdgeAttrs (Some (default ds (strength a))) (Some (default dc (capacity a)))
    (flow a) (last_used a) (healing_connection a).

Definition write_defaults (dr dc ds : Q) (g : Graph) : Graph :=
  mkGraph (prod_map id (fill_node dr) <$> nodes g)
          (prod_map id (fill_edge dc ds) <$> edges g).

(** Running on [g] and running on [g] with the defaults [dr], [dc], [ds]
    written out cannot be told apart. *)
Definition reads_missing_as (dr dc ds : Q) : Prop :=
  ∀ (g : Graph) (source_nodes sink_nodes : list node) (time_steps : Z),
    wf_graph g →
    ∃ flow_history g',
      nutrient_flow_simulation g source_nodes sink_nodes time_steps
      = Some (flow_history, g')
      ∧ nutrient_flow_simulation (write_defaults dr dc ds g) source_nodes sink_nodes time_steps
        = Some (flow_history, write_defaults dr dc ds g').

(** ** Components that share nothing

    [separated]: no walk of [g] leads from one listed component to a later
    one.  [apart]: no node and no edge of [g] is shared between them. *)

Fixpoint separated (g : Graph) (cs : list (list node)) : Prop :=
  match cs with
  | [] => True
  | c :: cs' =>
      (∀ a b c', a ∈ c → c' ∈ cs' → b ∈ c' → ¬ rtc (adjacent g) a b) ∧ separated g cs'
  end.

Fixpoint apart (g : Graph) (cs : list (list node)) : Prop :=
  match cs with
  | [] => True
  | c :: cs' =>
      (∀ a b c', a ∈ c → c' ∈ cs' → b ∈ c' → a ≠ b ∧ ¬ adjacent g a b) ∧ apart g cs'
  end.

(** ** MyceliumGraphDatabase (mycelium_database.py)

    The class is embedded as it runs without a Neo4j connection
    ([self.driver] is [None]), where every [if self.driver:] block is
    skipped and the object is its networkx graph and its two dicts. *)

(** [d.update(upd)] on a node's attribute dict. *)
Definition update_node_attrs (upd d : NodeAttrs) : NodeAttrs :=
  mkNodeAttrs
    (from_option Some (resources d) (resources upd))
    (from_option Some (node_type d) (node_type upd))
    (from_option Some (health d) (health upd))
    (from_option Some (connections d) (connections upd)).

(** [graph.add_node(n, **attr)]: a new node is appended, a node that
    exists keeps its place and its edges and has its attributes updated. *)
Definition add_node (g : Graph) (n : node) (attr : NodeAttrs) : Graph :=
  mkGraph
    (if decide (n ∈ node_keys g) then
       (λ ka, if decide (ka.1 = n) then (ka.1, update_node_attrs attr ka.2) else ka)
         <$> nodes g
     else nodes g ++ [(n, update_node_attrs attr empty_node_attrs)])
    (edges g).

Record MyceliumGraphDatabase := mkDb {
  use_networkx : bool;
  graph : Graph;
  node_resources : gmap node Q;
  edge_weights : gmap (node * node) Q;
  healing_factor : Q;
  growth_rate : Q
}.

(** [MyceliumGraphDatabase(use_networkx=...)], no credentials given. *)
Definition new_database (use_networkx : bool) : MyceliumGraphDatabase :=
  mkDb use_networkx (mkGraph [] []) ∅ ∅ (4 # 5) (1 # 10).

(** [db.add_mycelial_node(node_id, resources, node_type)] *)
Definition add_mycelial_node (db : MyceliumGraphDatabase) (node_id : node)
    (resources : Q) (node_type : string) : MyceliumGraphDatabase :=
  mkDb (use_networkx db)
    (add_node (graph db) node_id
       (mkNodeAttrs (Some resources) (Some node_type) (Some 1) (Some 0%Z)))
    (<[node_id := resources]> (node_resources db))
    (edge_weights db) (healing_factor db) (growth_rate db).

(** [db.add_mycelial_connection(node1, node2, strength, transport_capacity)];
    [now] is what [time.time()] returns in the call. *)
Definition add_mycelial_connection (db : MyceliumGraphDatabase) (node1 node2 : node)
    (strength transport_capacity now : Q) : MyceliumGraphDatabase :=
  mkDb (use_networkx db)
    (add_edge (graph db) node1 node2
       (mkEdgeAttrs (Some strength) (Some transport_capacity) (Some 0) (Some now) None))
    (node_resources db)
    (<[(node1, node2) := strength]> (edge_weights db))
    (healing_factor db) (growth_rate db).

(** The databases the two methods can build. *)
Inductive built : MyceliumGraphDatabase → Prop :=
  | built_new u : built (new_database u)
  | built_node db node_id resources node_type :
      built db → built (add_mycelial_node db node_id resources node_type)
  | built_connection db node1 node2 strength transport_capacity now :
      built db →
      built (add_mycelial_connection db node1 node2 strength transport_capacity now).

(** ** create_mycelium_inspired_network *)

(** [random.randint(a, b)]: [a] plus a draw below [b - a + 1]. *)
Definition randint (a b : Z) (r : Rng) : Z * Rng :=
  ((a + Z.of_nat (index_draw r (position r) `mod` Z.to_nat (b - a + 1)))%Z, advance r).

(** [random.uniform(a, b)]: [a + (b - a) * random()]. *)
Definition uniform (a b : Q) (r : Rng) : Q * Rng :=
  let '(x, r') := random r in (a + (b - a) * x, r').

(** The conditional expression that picks the [node_type] of node [i]. *)
Definition network_node_type (num_nodes : Z) (i : nat) : string :=
  if bool_decide (Z.of_nat i < 3)%Z then "source"
  else if bool_decide (Z.of_nat i < num_nodes - 3)%Z then "intermediate"
  else "sink".

(** The first loop, from [i] on for [count] rounds. *)
Fixpoint network_nodes (db : MyceliumGraphDatabase) (num_nodes : Z) (i count : nat)
    (rng : Rng) : MyceliumGraphDatabase * Rng :=
  match count with
  | O => (db, rng)
  | S count' =>
      let '(resources, rng1) := randint 50 150 rng in
      let node_type := network_node_type num_nodes i in
      network_nodes
        (add_mycelial_node db ("node_" +:+ pretty i) (inject_Z resources) node_type)
        num_nodes (S i) count' rng1
  end.

(** The inner loop over [enumerate(nodes[i+1:], i+1)]; [clock k] is what
    [time.time()] returns once [k] random numbers have been drawn. *)
Fixpoint network_row (clock : nat → Q) (connection_prob : Q) (len : nat)
    (db : MyceliumGraphDatabase) (i : nat) (node1 : node) (j : nat) (rest : list node)
    (rng : Rng) : MyceliumGraphDatabase * Rng :=
  match rest with
  | [] => (db, rng)
  | node2 :: rest' =>
      let distance_factor :=
        Qabs (inject_Z (Z.of_nat i) - inject_Z (Z.of_nat j)) / inject_Z (Z.of_nat len) in
      let prob := connection_prob * (1 - distance_factor) in
      let '(x, rng1) := random rng in
      if Qgtb prob x then
        let '(strength, rng2) := uniform (1 # 2) (3 # 2) rng1 in
        let '(capacity, rng3) := randint 5 15 rng2 in
        network_row clock connection_prob len
          (add_mycelial_connection db node1 node2 strength (inject_Z capacity)
             (clock (position rng3)))
          i node1 (S j) rest' rng3
      else network_row clock connection_prob len db i node1 (S j) rest' rng1
  end.

(** The outer loop over [enumerate(nodes)]. *)
Fixpoint network_rows (clock : nat → Q) (connection_prob : Q) (len : nat)
    (db : MyceliumGraphDatabase) (i : nat) (nodes : list node) (rng : Rng)
    : MyceliumGraphDatabase * Rng :=
  match nodes with
  | [] => (db, rng)
  | node1 :: rest =>
      let '(db', rng') := network_row clock connection_prob len db i node1 (S i) rest rng in
      network_rows clock connection_prob len db' (S i) rest rng'
  end.

Definition create_mycelium_inspired_network (clock : nat → Q)
    (db_instance : MyceliumGraphDatabase) (num_nodes : Z) (connection_prob : Q)
    (rng : Rng) : MyceliumGraphDatabase * Rng :=
  let '(db, rng1) := network_nodes db_instance num_nodes 0 (Z.to_nat num_nodes) rng in
  let nodes := node_keys (graph db) in
  network_rows clock connection_prob (length nodes) db 0 nodes rng1.

(** A database satisfies the data model. *)
Definition db_ok (db : MyceliumGraphDatabase) : Prop :=
  wf_graph (graph db) ∧ in_ranges (graph db).

(** The second loop over a graph without edges: what it has added when it
    is about to look at the pair of positions [(i, j)]. *)
Definition edges_so_far (ns : list node) (i j : nat) (db : MyceliumGraphDatabase) : Prop :=
  node_keys (graph db) = ns
  ∧ ∀ e, e ∈ edge_keys (graph db) →
      ∃ i' j' : nat,
        (i' < j')%nat ∧ ((i' < i)%nat ∨ (i' = i ∧ (j' < j)%nat))
        ∧ ns !! i' = Some e.1 ∧ ns !! j' = Some e.2
        ∧ edge_weights db !! e = Some (strength_of (graph db) e).

(** ** Sample graphs *)

Definition plain_node (r : Q) : NodeAttrs :=
  mkNodeAttrs (Some r) (Some "hyphal_tip") (Some 1) (Some 0%Z).

Definition plain_edge (s c : Q) : EdgeAttrs :=
  mkEdgeAttrs (Some s) (Some c) (Some 0) (Some 0) None.

(** The path A-B-C-D with all the resource at A. *)
Definition chain_graph : Graph :=
  mkGraph
    [("A", plain_node 10); ("B", plain_node 0); ("C", plain_node 0); ("D", plain_node 0)]
    [("A", "B", plain_edge 1 1); ("B", "C", plain_edge 1 1); ("C", "D", plain_edge 1 1)].

(** A hub holding 10 with eleven empty tips around it. *)
Definition star_tips : list node :=
  ["t01"; "t02"; "t03"; "t04"; "t05"; "t06"; "t07"; "t08"; "t09"; "t10"; "t11"].

Definition star_graph : Graph :=
  mkGraph
    (("hub", plain_node 10) :: ((λ t, (t, plain_node 0)) <$> star_tips))
    ((λ t, ("hub", t, plain_edge 1 1)) <$> star_tips).

(** Two nodes joined by an edge that has no attributes at all. *)
Definition bare_graph : Graph :=
  mkGraph
    [("A", plain_node 10); ("B", empty_node_attrs)]
    [("A", "B", mkEdgeAttrs None None None None None)].

(** A holds 10, B nothing; the edge between them has the capacity -1. *)
Definition drain_graph : Graph :=
  mkGraph
    [("A", plain_node 10); ("B", plain_node 0)]
    [("A", "B", plain_edge 1 (-1))].

(** A holds 10, B nothing; the edge between them has the capacity 0. *)
Definition idle_graph : Graph :=
  mkGraph
    [("A", plain_node 10); ("B", plain_node 0)]
    [("A", "B", plain_edge 1 0)].

(** The cycle A-B-C-D-A and, apart from it, the single edge E-F. *)
Definition ring_graph : Graph :=
  mkGraph
    [("A", plain_node 10); ("B", plain_node 20); ("C", plain_node 30);
     ("D", plain_node 40); ("E", plain_node 50); ("F", plain_node 60)]
    [("A", "B", plain_edge 1 10); ("B", "C", plain_edge 1 10); ("C", "D", plain_edge 1 10);
     ("D", "A", plain_edge 1 10); ("E", "F", plain_edge 1 10)].

(** A generator whose [random()] alternates between 0 and 0.5 and whose
    [choice] takes the element at the position of the draw. *)
Definition sample_rng : Rng :=
  mkRng (λ n, if Nat.even n then 0 else 1 # 2) (λ n, n) 0.

(** X holds 30 and has the neighbours Y and Z; W has no neighbour. *)
Definition damaged_graph : Graph :=
  mkGraph
    [("X", plain_node 30); ("Y", plain_node 1); ("Z", plain_node 2); ("W", plain_node 7)]
    [("X", "Y", plain_edge 1 10); ("Z", "X", plain_edge 1 10)].

(** ** What a simulation may change

    [node_rest] and [edge_rest] are the attributes the simulation has no
    write for; [flow_frame g g'] says that [g'] has the nodes and edges of
    [g] with these attributes as they were. *)

Definition node_rest (a : NodeAttrs) : option string * option Q * option Z :=
  (node_type a, health a, connections a).

Definition edge_rest (a : EdgeAttrs) : option Q * option Q * option Q * option bool :=
  (capacity a, flow a, last_used a, healing_connection a).

Definition flow_frame (g g' : Graph) : Prop :=
  node_keys g' = node_keys g ∧ edge_keys g' = edge_keys g
  ∧ (∀ m, node_rest <$> node_attrs g' m = node_rest <$> node_attrs g m)
  ∧ (∀ e, edge_rest <$> edge_attrs g' e = edge_rest <$> edge_attrs g e).

(** No edge of [g] joins two nodes whose [resources] differ. *)
Definition balanced (g : Graph) : Prop :=
  Forall (λ e, resources_of g e.1 == resources_of g e.2) (edge_keys g).

(** ** What a perturbed copy is

    [t] has the nodes of [g] and joins no two nodes that [g] does not
    join. *)
Definition thinned (g t : Graph) : Prop :=
  (∀ m, m ∈ node_keys g → m ∈ node_keys t)
  ∧ ∀ a b, adjacent t a b → adjacent g a b.

(** [p] is what [nx.shortest_path] returns on some thinned copy of [g]. *)
Definition found_in_copy (g : Graph) (start target : node) (p : list node) : Prop :=
  ∃ t, thinned g t ∧ shortest_path t start target = Path p.

(** The labels in the order the function can hand them out. *)
Definition path_labels : list string :=
  ["primary"; "alternative_1"; "alternative_2"; "alternative_3"].

(** What holds of the list [paths] while at most [n] entries are in it. *)
Definition paths_ok (g : Graph) (start target : node) (n : nat)
    (paths : list (string * list node)) : Prop :=
  (∃ primary rest,
     paths = ("primary", primary) :: rest ∧ shortest_path g start target = Path primary)
  ∧ length paths ≤ n
  ∧ NoDup paths.*2
  ∧ paths.*1 = take (length paths) path_labels
  ∧ Forall (λ lp, found_in_copy g start target lp.2) paths.

(** The nodes named by the removal actions of a list of actions. *)
Definition removed_nodes (acts : list Action) : list node :=
  omap (λ a, match a with RemovedDamaged n _ => Some n | HealingConnection _ _ => None end)
    acts.

(** A generator whose [random()] is always 0.5. *)
Definition calm_rng : Rng := mkRng (λ _, 1 # 2) (λ n, n) 0.

(** The triangle A-B-C with 5 at every node, and D with 9 on its own. *)
Definition level_graph : Graph :=
  mkGraph
    [("A", plain_node 5); ("B", plain_node 5); ("C", plain_node 5); ("D", plain_node 9)]
    [("A", "B", plain_edge 1 10); ("B", "C", plain_edge (3 # 2) 10);
     ("C", "A", plain_edge 2 10)].

(** * Properties *)

(** ** Lookups and updates *)

Lemma same_edge_sym e1 e2 : same_edge e1 e2 → same_edge e2 e1.
Proof. unfold same_edge. naive_solver. Qed.

Lemma same_edge_trans e1 e2 e3 : same_edge e1 e2 → same_edge e2 e3 → same_edge e1 e3.
Proof. unfold same_edge. naive_solver congruence. Qed.

Lemma same_edge_swap u v : same_edge (u, v) (v, u).
Proof. by right. Qed.

Lemma lookup_node_is_Some n l : is_Some (lookup_node n l) ↔ n ∈ l.*1.
Proof.
  induction l as [|[k a] l IH]; simpl.
  - split; [by intros [? ?]|by intros ?%elem_of_nil].
  - case_decide; subst.
    + split; [intros _; left|by eauto].
    + rewrite IH, elem_of_cons. naive_solver.
Qed.

Lemma lookup_node_update n q m l :
  lookup_node m ((λ ka, if decide (ka.1 = n) then (ka.1, with_resources q ka.2) else ka) <$> l)
  = if decide (m = n) then with_resources q <$> lookup_node m l else lookup_node m l.
Proof.
  induction l as [|[k a] l IH]; [by case_decide|].
  rewrite fmap_cons. simpl. rewrite IH.
  repeat (case_decide; simplify_eq/=); done.
Qed.

Lemma lookup_edge_is_Some e l :
  is_Some (lookup_edge e l) ↔ Exists (λ k, same_edge k e) l.*1.
Proof.
  induction l as [|[k a] l IH]; csimpl.
  - split; [by intros [? ?]|by intros ?%Exists_nil].
  - rewrite Exists_cons. case_decide; [naive_solver|]. rewrite IH. naive_solver.
Qed.

Lemma lookup_edge_proper e e' l : same_edge e e' → lookup_edge e l = lookup_edge e' l.
Proof.
  intros He. induction l as [|[k a] l IH]; simpl; [done|].
  rewrite IH. destruct (decide (same_edge k e)), (decide (same_edge k e')); try done.
  - exfalso; eauto using same_edge_trans.
  - exfalso; eauto using same_edge_trans, same_edge_sym.
Qed.

Lemma lookup_edge_update (f : EdgeAttrs → EdgeAttrs) e0 e l :
  lookup_edge e ((λ ka, if decide (same_edge ka.1 e0) then (ka.1, f ka.2) else ka) <$> l)
  = if decide (same_edge e e0) then f <$> lookup_edge e l else lookup_edge e l.
Proof.
  induction l as [|[k a] l IH]; [by case_decide|].
  rewrite fmap_cons. simpl. rewrite IH. clear IH.
  destruct (decide (same_edge k e0)), (decide (same_edge k e)),
    (decide (same_edge e e0)); simpl; try done;
    try (by rewrite decide_True); try (by rewrite decide_False);
    exfalso; eauto using same_edge_trans, same_edge_sym.
Qed.

Lemma has_node_true g n : has_node g n = true ↔ n ∈ node_keys g.
Proof. unfold has_node. by rewrite bool_decide_eq_true. Qed.

Lemma has_edge_true g u v :
  has_edge g u v = true ↔ Exists (λ k, same_edge k (u, v)) (edge_keys g).
Proof. unfold has_edge. by rewrite bool_decide_eq_true. Qed.

Lemma node_attrs_is_Some g n : is_Some (node_attrs g n) ↔ n ∈ node_keys g.
Proof. apply lookup_node_is_Some. Qed.

Lemma edge_attrs_is_Some g e : is_Some (edge_attrs g e) ↔ has_edge g e.1 e.2 = true.
Proof. rewrite has_edge_true. destruct e. apply lookup_edge_is_Some. Qed.

Lemma edge_attrs_proper g e e' : same_edge e e' → edge_attrs g e = edge_attrs g e'.
Proof. apply lookup_edge_proper. Qed.

Lemma resources_of_attrs g n a : node_attrs g n = Some a → get_resources a = resources_of g n.
Proof. unfold resources_of. by intros ->. Qed.

(** ** Neighbours and the edge view *)

Lemma elem_of_neighbors g u v :
  v ∈ neighbors g u ↔ ∃ ka, ka ∈ edges g ∧ same_edge ka.1 (u, v).
Proof.
  unfold neighbors. rewrite list_elem_of_omap. split.
  - intros ([[a b] x] & Hin & Ho). exists (a, b, x). split; [done|].
    unfold other_end in Ho. simpl in *.
    repeat case_decide; simplify_eq; [by left|by right].
  - intros ([[a b] x] & Hin & [[??]|[??]]); simplify_eq/=;
      (eexists; split; [done|]); unfold other_end; simpl.
    + by rewrite decide_True.
    + case_decide; [by subst|]. by rewrite decide_True.
Qed.

Lemma adjacent_sym g u v : adjacent g u v → adjacent g v u.
Proof.
  unfold adjacent. rewrite !elem_of_neighbors.
  intros (ka & ? & ?). exists ka. split; [done|].
  eauto using same_edge_trans, same_edge_swap.
Qed.

Lemma adjacent_has_edge g u v : adjacent g u v ↔ has_edge g u v = true.
Proof.
  unfold adjacent. rewrite elem_of_neighbors, has_edge_true, Exists_exists.
  unfold edge_keys. setoid_rewrite list_elem_of_fmap. naive_solver.
Qed.

Lemma adjacent_closed g u v :
  closed_graph g → adjacent g u v → u ∈ node_keys g ∧ v ∈ node_keys g.
Proof.
  unfold closed_graph. rewrite Forall_forall. intros Hcl (ka & Hin & Hs)%elem_of_neighbors.
  destruct (Hcl ka.1) as [??]; [by apply list_elem_of_fmap_2|].
  destruct Hs as [[??]|[??]]; simpl in *; by subst.
Qed.

Lemma elem_of_edges_from g ns seen u v :
  (u, v) ∈ edges_from g ns seen → u ∈ ns ∧ adjacent g u v.
Proof.
  revert seen. induction ns as [|n ns IH]; intros seen; simpl.
  - by intros ?%elem_of_nil.
  - rewrite elem_of_app, list_elem_of_fmap. intros [(nbr & ? & Hin)|Hin]; simplify_eq.
    + apply list_elem_of_filter in Hin as [_ ?]. split; [left|done].
    + apply IH in Hin as [??]. split; [by right|done].
Qed.

Lemma elem_of_edges_view g u v :
  (u, v) ∈ edges_view g → u ∈ node_keys g ∧ adjacent g u v.
Proof. apply elem_of_edges_from. Qed.

(** ** In-place writes *)

Lemma fmap_fst_update {A B} (h : A * B → A * B) (l : list (A * B)) :
  (∀ x, (h x).1 = x.1) → (h <$> l).*1 = l.*1.
Proof.
  intros Hh. rewrite <-list_fmap_compose. apply list_fmap_ext.
  intros i x _. apply Hh.
Qed.

Lemma set_resources_is_Some g n q : n ∈ node_keys g → is_Some (set_resources g n q).
Proof. intros Hn%has_node_true. unfold set_resources. rewrite Hn. by eexists. Qed.

Lemma set_resources_spec g n q g' :
  set_resources g n q = Some g' →
  n ∈ node_keys g ∧ node_keys g' = node_keys g ∧ edges g' = edges g ∧
  ∀ m, node_attrs g' m
       = if decide (m = n) then with_resources q <$> node_attrs g m else node_attrs g m.
Proof.
  unfold set_resources. destruct (has_node g n) eqn:Hn; [|done].
  intros [= <-]. apply has_node_true in Hn. split_and!; [done| |done|].
  - unfold node_keys. simpl. apply fmap_fst_update. intros x. by case_decide.
  - intros m. apply lookup_node_update.
Qed.

Lemma set_resources_resources_of g n q g' :
  set_resources g n q = Some g' →
  ∀ m, resources_of g' m = if decide (m = n) then q else resources_of g m.
Proof.
  intros (Hn & _ & _ & Hat)%set_resources_spec m. unfold resources_of.
  rewrite Hat. case_decide; [subst|done].
  apply node_attrs_is_Some in Hn as [a ->]. done.
Qed.

Lemma set_strength_is_Some g e q : has_edge g e.1 e.2 = true → is_Some (set_strength g e q).
Proof. intros He. unfold set_strength. rewrite He. by eexists. Qed.

Lemma set_strength_spec g e q g' :
  set_strength g e q = Some g' →
  has_edge g e.1 e.2 = true ∧ nodes g' = nodes g ∧ edge_keys g' = edge_keys g ∧
  ∀ e', edge_attrs g' e'
        = if decide (same_edge e' e) then with_strength q <$> edge_attrs g e'
          else edge_attrs g e'.
Proof.
  unfold set_strength. destruct (has_edge g e.1 e.2) eqn:He; [|done].
  intros [= <-]. split_and!; [done|done| |].
  - unfold edge_keys. simpl. apply fmap_fst_update. intros x. by case_decide.
  - intros e'. apply lookup_edge_update.
Qed.

(** ** One applied flow *)

Lemma apply_flow_is_Some g edge fd :
  (direction fd).1 ∈ node_keys g → (direction fd).2 ∈ node_keys g →
  has_edge g edge.1 edge.2 = true →
  is_Some (apply_flow g (edge, fd)).
Proof.
  intros Hf Ht He. unfold apply_flow. destruct (direction fd) as [from_node to_node].
  simpl in *.
  destruct (proj2 (node_attrs_is_Some g from_node) Hf) as [af ->].
  destruct (proj2 (node_attrs_is_Some g to_node) Ht) as [ato ->]. simpl.
  destruct (set_resources_is_Some g from_node
              (Qmax 0 (get_resources af - amount fd)) Hf) as [g1 Hg1].
  rewrite Hg1. simpl.
  destruct (set_resources_spec _ _ _ _ Hg1) as (_ & Hk1 & He1 & _).
  destruct (set_resources_is_Some g1 to_node (get_resources ato + amount fd)) as [g2 Hg2];
    [by rewrite Hk1|].
  rewrite Hg2. simpl.
  destruct (set_resources_spec _ _ _ _ Hg2) as (_ & Hk2 & He2 & _).
  assert (has_edge g2 edge.1 edge.2 = true) as He'.
  { rewrite has_edge_true in *. unfold edge_keys in *. by rewrite He2, He1. }
  destruct (proj2 (edge_attrs_is_Some g2 edge) He') as [ea ->]. simpl.
  by apply set_strength_is_Some.
Qed.

Lemma apply_flow_spec g edge fd g' :
  apply_flow g (edge, fd) = Some g' →
  node_keys g' = node_keys g ∧ edge_keys g' = edge_keys g ∧
  (∀ m, resources_of g' m
        = if decide (m = (direction fd).2)
          then resources_of g (direction fd).2 + amount fd
          else if decide (m = (direction fd).1)
               then Qmax 0 (resources_of g (direction fd).1 - amount fd)
               else resources_of g m) ∧
  (∀ e, strength_of g' e
        = if decide (same_edge e edge) then Qmin 2 (strength_of g e + (1 # 10))
          else strength_of g e) ∧
  (∀ e, capacity_of g' e = capacity_of g e).
Proof.
  unfold apply_flow. destruct (direction fd) as [from_node to_node]. simpl.
  destruct (node_attrs g from_node) as [af|] eqn:Haf; [|done].
  destruct (node_attrs g to_node) as [ato|] eqn:Hato; [|done]. simpl.
  destruct (set_resources g from_node _) as [g1|] eqn:Hg1; [|done]. simpl.
  destruct (set_resources g1 to_node _) as [g2|] eqn:Hg2; [|done]. simpl.
  destruct (edge_attrs g2 edge) as [ea|] eqn:Hea; [|done]. simpl.
  intros Hg'.
  pose proof (set_resources_resources_of _ _ _ _ Hg1) as Hr1.
  pose proof (set_resources_resources_of _ _ _ _ Hg2) as Hr2.
  destruct (set_resources_spec _ _ _ _ Hg1) as (_ & Hk1 & He1 & _).
  destruct (set_resources_spec _ _ _ _ Hg2) as (_ & Hk2 & He2 & _).
  destruct (set_strength_spec _ _ _ _ Hg') as (_ & Hn' & Hek' & Hat').
  assert (∀ e, edge_attrs g2 e = edge_attrs g e) as Hsame.
  { intros e. unfold edge_attrs. by rewrite He2, He1. }
  split_and!.
  - rewrite <-Hk1, <-Hk2. unfold node_keys. by rewrite Hn'.
  - rewrite Hek'. unfold edge_keys. by rewrite He2, He1.
  - intros m. unfold resources_of at 1, node_attrs. rewrite Hn'.
    fold (node_attrs g2 m). fold (resources_of g2 m).
    rewrite Hr2, Hr1.
    rewrite (resources_of_attrs _ _ _ Haf), (resources_of_attrs _ _ _ Hato). done.
  - intros e. unfold strength_of at 1. rewrite Hat'. case_decide as Hse.
    + unfold strength_of. rewrite <-(Hsame e).
      rewrite (edge_attrs_proper g2 e edge) by done. by rewrite Hea.
    + by rewrite Hsame.
  - intros e. unfold capacity_of. rewrite Hat', Hsame.
    case_decide; [|done]. by destruct (edge_attrs g e).
Qed.

(** ** The recorded flows *)

Lemma flow_entry_mono g e es ef : flow_entry g es ef → flow_entry g (e :: es) ef.
Proof. unfold flow_entry. rewrite elem_of_cons. naive_solver. Qed.

Lemma calculate_flows_spec g es fs :
  calculate_flows g es = Some fs → Forall (flow_entry g es) fs.
Proof.
  revert fs. induction es as [|[node1 node2] es IH]; intros fs; simpl.
  - by intros [= <-].
  - destruct (node_attrs g node1) as [a1|] eqn:Ha1; [|done].
    destruct (node_attrs g node2) as [a2|] eqn:Ha2; [|done]. simpl.
    destruct (Qeq_bool (get_resources a1) (get_resources a2)) eqn:Hq; simpl.
    { intros Hfs. eapply Forall_impl; [by apply IH|]. apply flow_entry_mono. }
    destruct (edge_attrs g (node1, node2)) as [ea|] eqn:Hea; [|done]. simpl.
    destruct (calculate_flows g es) as [rest|]; [|done]. simpl.
    intros [= <-]. constructor.
    + rewrite (resources_of_attrs _ _ _ Ha1), (resources_of_attrs _ _ _ Ha2) in *.
      unfold flow_entry. simpl. split_and!.
      * left.
      * unfold capacity_of. rewrite Hea. by destruct (Qgtb _ _).
      * by apply Qeq_bool_neq.
      * by destruct (Qgtb _ _).
      * apply node_attrs_is_Some. by eexists.
      * apply node_attrs_is_Some. by eexists.
      * apply (edge_attrs_is_Some g (node1, node2)). by eexists.
    + eapply Forall_impl; [by apply IH|]. apply flow_entry_mono.
Qed.

Lemma calculate_flows_is_Some g es :
  Forall (λ e, e.1 ∈ node_keys g ∧ e.2 ∈ node_keys g ∧ has_edge g e.1 e.2 = true) es →
  is_Some (calculate_flows g es).
Proof.
  induction 1 as [|[node1 node2] es (H1 & H2 & H3) _ IH]; simpl in *; [by eexists|].
  apply node_attrs_is_Some in H1 as [a1 ->].
  apply node_attrs_is_Some in H2 as [a2 ->]. simpl.
  apply (edge_attrs_is_Some g (node1, node2)) in H3 as [ea ->].
  destruct IH as [rest ->]. simpl. by destruct (negb _).
Qed.

Lemma edges_view_closed g :
  wf_graph g →
  Forall (λ e, e.1 ∈ node_keys g ∧ e.2 ∈ node_keys g ∧ has_edge g e.1 e.2 = true)
    (edges_view g).
Proof.
  intros [_ Hcl _]. apply Forall_forall. intros [u v] [_ Hadj]%elem_of_edges_view.
  simpl. destruct (adjacent_closed _ _ _ Hcl Hadj). split_and!; [done..|].
  by apply adjacent_has_edge.
Qed.

(** ** Edges are reported once *)

Lemma edges_distinct_app l1 l2 :
  edges_distinct (l1 ++ l2) ↔
  edges_distinct l1 ∧ edges_distinct l2 ∧ ∀ e1 e2, e1 ∈ l1 → e2 ∈ l2 → ¬ same_edge e1 e2.
Proof.
  induction l1 as [|e l1 IH]; simpl.
  - split; [|naive_solver]. intros ?. split_and!; [done..|]. by intros ?? ?%elem_of_nil.
  - rewrite IH, Forall_app, !Forall_forall. setoid_rewrite elem_of_cons. naive_solver.
Qed.

Lemma neighbors_NoDup g n : edges_distinct (edge_keys g) → NoDup (neighbors g n).
Proof.
  unfold neighbors, edge_keys. induction (edges g) as [|ka l IH]; csimpl; [constructor|].
  intros [Hka Hl]. destruct (other_end n ka) as [v|] eqn:Hv; [|by auto].
  constructor; [|by auto]. rewrite list_elem_of_omap. intros (kb & Hin & Hb).
  rewrite Forall_forall in Hka. apply (Hka kb.1); [by apply list_elem_of_fmap_2|].
  assert (∀ k, other_end n k = Some v → same_edge k.1 (n, v)) as Hoe.
  { intros k. unfold other_end. repeat case_decide; intros; simplify_eq; [by left|by right]. }
  eauto using same_edge_trans, same_edge_sym.
Qed.

Lemma edges_from_unseen g ns seen u v : (u, v) ∈ edges_from g ns seen → v ∉ seen.
Proof.
  revert seen. induction ns as [|n ns IH]; intros seen; simpl.
  - by intros ?%elem_of_nil.
  - rewrite elem_of_app, list_elem_of_fmap.
    intros [(nbr & ? & [Hnbr _]%list_elem_of_filter)|Hin]; simplify_eq; [done|].
    apply IH in Hin. intros ?. apply Hin. by right.
Qed.

Lemma edges_from_distinct g ns seen :
  NoDup ns → edges_distinct (edge_keys g) → edges_distinct (edges_from g ns seen).
Proof.
  intros Hns Hg. revert seen. induction Hns as [|n ns Hn Hns IH]; intros seen; simpl; [done|].
  apply edges_distinct_app. split_and!.
  - pose proof (NoDup_filter (λ nbr, nbr ∉ seen) _ (neighbors_NoDup g n Hg)) as Hnd.
    induction Hnd as [|v l Hv Hl IHl]; csimpl; [done|]. split; [|done].
    apply Forall_forall. intros e (w & -> & Hw)%list_elem_of_fmap.
    intros [[_ ?]|[? ?]]; simplify_eq/=; done.
  - apply IH.
  - intros e1 [u v] (w & -> & Hw)%list_elem_of_fmap Hin.
    pose proof Hin as [Hu _]%elem_of_edges_from.
    assert (v ≠ n) as Hvn.
    { apply edges_from_unseen in Hin. intros ->. apply Hin. left. }
    intros [[? ?]|[? ?]]; simplify_eq/=; done.
Qed.

Lemma edges_view_distinct g : wf_graph g → edges_distinct (edges_view g).
Proof. intros [Hn _ He]. by apply edges_from_distinct. Qed.

Lemma calculate_flows_distinct g es fs :
  edges_distinct es → calculate_flows g es = Some fs → edges_distinct fs.*1.
Proof.
  revert fs. induction es as [|[node1 node2] es IH]; intros fs; simpl.
  - by intros _ [= <-].
  - intros [He Hes].
    destruct (node_attrs g node1) as [a1|]; [|done].
    destruct (node_attrs g node2) as [a2|]; [|done]. simpl.
    destruct (negb _); [|by auto].
    destruct (edge_attrs g (node1, node2)) as [ea|]; [|done]. simpl.
    destruct (calculate_flows g es) as [rest|] eqn:Hrest; [|done]. simpl.
    intros [= <-]. csimpl. split; [|by auto].
    apply Forall_forall. intros e (ef & -> & Hef)%list_elem_of_fmap.
    apply calculate_flows_spec in Hrest.
    eapply (proj1 (Forall_forall _ _) He), (proj1 (Forall_forall _ _) Hrest ef Hef).
Qed.

(** ** The value ranges, for every key *)

Lemma resources_nonneg_all g : resources_nonneg g ↔ ∀ n, 0 <= resources_of g n.
Proof.
  unfold resources_nonneg. rewrite Forall_forall. split; [|by auto].
  intros H n. destruct (decide (n ∈ node_keys g)) as [|Hn]; [by auto|].
  unfold resources_of. rewrite <-node_attrs_is_Some, <-eq_None_not_Some in Hn.
  rewrite Hn. simpl. lra.
Qed.

Lemma edge_reads_all g (h : EdgeAttrs → Q) (P : Q → Prop) :
  P 1 →
  Forall (λ e, P (from_option h 1 (edge_attrs g e))) (edge_keys g)
  ↔ ∀ e, P (from_option h 1 (edge_attrs g e)).
Proof.
  intros H1. rewrite Forall_forall. split; [|by auto].
  intros H e. destruct (edge_attrs g e) as [a|] eqn:He; [|done].
  assert (is_Some (edge_attrs g e)) as Hs by (by eexists).
  apply lookup_edge_is_Some, Exists_exists in Hs as (k & Hk & Hke).
  specialize (H k Hk). by rewrite (edge_attrs_proper g k e), He in H.
Qed.

Lemma capacities_nonneg_all g : capacities_nonneg g ↔ ∀ e, 0 <= capacity_of g e.
Proof. apply (edge_reads_all g get_capacity (λ q, 0 <= q)). lra. Qed.

Lemma capacities_positive_all g : capacities_positive g ↔ ∀ e, 0 < capacity_of g e.
Proof. apply (edge_reads_all g get_capacity (λ q, 0 < q)). lra. Qed.

Lemma strengths_in_range_all g :
  strengths_in_range g ↔ ∀ e, 0 <= strength_of g e ∧ strength_of g e <= 2.
Proof. apply (edge_reads_all g get_strength (λ q, 0 <= q ∧ q <= 2)). lra. Qed.

Lemma wf_graph_shape g g' :
  node_keys g' = node_keys g → edge_keys g' = edge_keys g → wf_graph g → wf_graph g'.
Proof. intros Hn He [???]. constructor; unfold closed_graph; by rewrite ?Hn, ?He. Qed.

(** ** The apply loop *)

Arguments apply_flow : simpl never.
Arguments flow_step : simpl never.

Lemma applicable_shape g g' ef :
  node_keys g' = node_keys g → edge_keys g' = edge_keys g →
  applicable g ef → applicable g' ef.
Proof. unfold applicable. rewrite !has_edge_true. by intros -> ->. Qed.

Lemma flow_entry_applicable g es ef : flow_entry g es ef → applicable g ef.
Proof.
  intros (_ & _ & _ & Hd & ? & ? & ?). unfold applicable. rewrite Hd.
  destruct (Qgtb _ _); by destruct ef as [[??]?].
Qed.

Lemma apply_flows_shape g fs g' :
  apply_flows g fs = Some g' →
  node_keys g' = node_keys g ∧ edge_keys g' = edge_keys g
  ∧ ∀ e, capacity_of g' e = capacity_of g e.
Proof.
  revert g. induction fs as [|[edge fd] fs IH]; intros g; simpl.
  - by intros [= <-].
  - destruct (apply_flow g (edge, fd)) as [g1|] eqn:Hg1; [|done]. simpl.
    intros (Hn & He & Hc)%IH.
    apply apply_flow_spec in Hg1 as (Hn1 & He1 & _ & _ & Hc1).
    split_and!; [congruence..|]. intros e. by rewrite Hc, Hc1.
Qed.

Lemma apply_flows_is_Some g fs : Forall (applicable g) fs → is_Some (apply_flows g fs).
Proof.
  revert g. induction fs as [|[edge fd] fs IH]; intros g; simpl; [by eexists|].
  intros [(? & ? & ?) Hfs]%Forall_cons.
  destruct (apply_flow_is_Some g edge fd) as [g1 Hg1]; [done..|].
  rewrite Hg1. simpl. apply IH.
  apply apply_flow_spec in Hg1 as (Hn1 & He1 & _).
  eapply Forall_impl; [done|]. intros ef. by apply applicable_shape.
Qed.

Lemma apply_flows_nonneg g fs g' :
  (∀ n, 0 <= resources_of g n) → Forall (λ ef, 0 <= amount ef.2) fs →
  apply_flows g fs = Some g' → ∀ n, 0 <= resources_of g' n.
Proof.
  revert g. induction fs as [|[edge fd] fs IH]; intros g Hg; simpl.
  - by intros _ [= <-].
  - intros [Ha Hfs]%Forall_cons.
    destruct (apply_flow g (edge, fd)) as [g1|] eqn:Hg1; [|done]. simpl.
    apply IH; [|done]. intros n.
    apply apply_flow_spec in Hg1 as (_ & _ & -> & _). simpl in Ha.
    repeat case_decide.
    + specialize (Hg (direction fd).2). lra.
    + apply Q.le_max_l.
    + apply Hg.
Qed.

Lemma apply_flows_strength g fs g' :
  (∀ e, 0 <= strength_of g e ∧ strength_of g e <= 2) →
  apply_flows g fs = Some g' →
  (∀ e, 0 <= strength_of g' e ∧ strength_of g' e <= 2)
  ∧ ∀ e, strength_of g e <= strength_of g' e.
Proof.
  revert g. induction fs as [|[edge fd] fs IH]; intros g Hg; simpl.
  - intros [= <-]. split; [done|]. intros e. lra.
  - destruct (apply_flow g (edge, fd)) as [g1|] eqn:Hg1; [|done]. simpl. intros Hg'.
    apply apply_flow_spec in Hg1 as (_ & _ & _ & Hs & _).
    assert (∀ e, (0 <= strength_of g1 e ∧ strength_of g1 e <= 2)
                 ∧ strength_of g e <= strength_of g1 e) as H1.
    { intros e. rewrite Hs. destruct (Hg e). case_decide; [|lra].
      destruct (Q.min_spec 2 (strength_of g e + (1 # 10))) as [[? Hm]|[? Hm]];
        rewrite Hm; lra. }
    destruct (IH g1) as [Hr Hm]; [by intros e; apply H1|done|].
    split; [done|]. intros e. specialize (Hm e). destruct (H1 e). lra.
Qed.

Lemma apply_flows_strength_exact g fs g' :
  edges_distinct fs.*1 → apply_flows g fs = Some g' →
  ∀ e, strength_of g' e
       = if decide (Exists (same_edge e) fs.*1)
         then Qmin 2 (strength_of g e + (1 # 10)) else strength_of g e.
Proof.
  revert g. induction fs as [|[edge fd] fs IH]; intros g; csimpl.
  - by intros _ [= <-] e.
  - intros [Hd Hfs].
    destruct (apply_flow g (edge, fd)) as [g1|] eqn:Hg1; [|done]. simpl. intros Hg' e.
    apply apply_flow_spec in Hg1 as (_ & _ & _ & Hs & _).
    rewrite (IH g1 Hfs Hg' e), Hs.
    destruct (decide (same_edge e edge)) as [He|He].
    + rewrite decide_False, decide_True; [done|by left|].
      rewrite Exists_exists. intros (e' & Hin & He').
      rewrite Forall_forall in Hd. apply (Hd e' Hin).
      eauto using same_edge_trans, same_edge_sym.
    + destruct (decide (Exists (same_edge e) fs.*1)) as [Hex|Hex].
      * rewrite decide_True; [done|by right].
      * rewrite decide_False; [done|]. by intros [?|?]%Exists_cons.
Qed.

(** ** One time step *)

Lemma flow_step_total g :
  wf_graph g →
  ∃ fs g', flow_step g = Some (fs, g')
    ∧ apply_flows g fs = Some g'
    ∧ Forall (flow_entry g (edges_view g)) fs
    ∧ edges_distinct fs.*1.
Proof.
  intros Hwf. unfold flow_step.
  destruct (calculate_flows_is_Some g (edges_view g)) as [fs Hfs];
    [by apply edges_view_closed|].
  pose proof (calculate_flows_spec _ _ _ Hfs) as Hspec.
  destruct (apply_flows_is_Some g fs) as [g' Hg'].
  { eapply Forall_impl; [done|]. apply flow_entry_applicable. }
  exists fs, g'. rewrite Hfs. simpl. rewrite Hg'. simpl. split_and!; [done..|].
  eapply calculate_flows_distinct; [|done]. by apply edges_view_distinct.
Qed.

Lemma flow_step_inv g fs g' :
  flow_step g = Some (fs, g') →
  apply_flows g fs = Some g' ∧ Forall (flow_entry g (edges_view g)) fs.
Proof.
  unfold flow_step.
  destruct (calculate_flows g (edges_view g)) as [fs'|] eqn:Hfs; [|done]. simpl.
  destruct (apply_flows g fs') as [g''|] eqn:Hg'; [|done]. simpl.
  intros [= <- <-]. split; [done|]. by apply calculate_flows_spec.
Qed.

Lemma flow_step_wf g fs g' : wf_graph g → flow_step g = Some (fs, g') → wf_graph g'.
Proof.
  intros Hwf [(Hn & He & _)%apply_flows_shape _]%flow_step_inv.
  by apply (wf_graph_shape g).
Qed.

Lemma flow_steps_invariant (I : Graph → Prop) :
  (∀ g fs g', wf_graph g → I g → flow_step g = Some (fs, g') → I g') →
  ∀ n g, wf_graph g → I g →
    ∃ h g', flow_steps g n = Some (h, g') ∧ wf_graph g' ∧ I g'.
Proof.
  intros Hstep n. induction n as [|n IH]; intros g Hwf HI; simpl.
  - by exists [], g.
  - destruct (flow_step_total g Hwf) as (fs & g1 & Hg1 & _).
    rewrite Hg1. simpl.
    destruct (IH g1) as (h & g' & Hh & ? & ?); [by eapply flow_step_wf|by eauto|].
    rewrite Hh. simpl. by exists (fs :: h), g'.
Qed.

Lemma flow_entry_amount_nonneg g es ef :
  (∀ e, 0 <= capacity_of g e) → flow_entry g es ef → 0 <= amount ef.2.
Proof.
  intros Hc (_ & -> & _). apply Q.min_glb; [done|].
  pose proof (Qabs_nonneg (resources_of g ef.1.1 - resources_of g ef.1.2)). lra.
Qed.

(** ** Closed facts about the sample graphs *)

Ltac by_evaluation :=
  first
    [ apply (bool_decide_unpack _); vm_compute; exact I
    | repeat constructor; vm_compute; congruence ].

Lemma star_graph_wf : wf_graph star_graph.
Proof. by_evaluation. Qed.

Lemma bare_graph_wf : wf_graph bare_graph.
Proof. by_evaluation. Qed.

Lemma star_graph_ranges :
  resources_nonneg star_graph ∧ capacities_positive star_graph
  ∧ strengths_in_range star_graph.
Proof. split_and!; by_evaluation. Qed.

(** ** nutrient_flow_simulation: the theorems *)

(** C1, at the star graph.  The hub holds 10 and owes 1 to each of its
    eleven tips.  The apply loop debits the hub with [max(0, ...)] but
    credits every tip the full recorded amount, so the eleventh transfer
    takes nothing from the hub and still adds 1: the total grows from 10
    to 11 within one step. *)
Theorem apply_phase_creates_resources :
  wf_graph star_graph ∧ resources_nonneg star_graph ∧ capacities_positive star_graph ∧
  total_resources star_graph == 10 ∧
  ∃ flow_history g',
    nutrient_flow_simulation star_graph [] [] 1 = Some (flow_history, g')
    ∧ resources_of g' "hub" == 0
    ∧ Forall (λ t, resources_of g' t == 1) star_tips
    ∧ total_resources g' == 11.
Proof.
  split; [apply star_graph_wf|].
  split; [apply star_graph_ranges|].
  split; [apply star_graph_ranges|].
  split; [by vm_compute|].
  eexists _, _. split; [vm_compute; reflexivity|].
  split_and!; [by vm_compute|repeat constructor; by vm_compute|by vm_compute].
Qed.

(** C3: the history and the final graph do not depend on [source_nodes]
    and [sink_nodes]. *)
Theorem flow_ignores_sources_and_sinks (g : Graph)
    (source_nodes sink_nodes source_nodes' sink_nodes' : list node) (time_steps : Z) :
  nutrient_flow_simulation g source_nodes sink_nodes time_steps
  = nutrient_flow_simulation g source_nodes' sink_nodes' time_steps.
Proof. reflexivity. Qed.

Lemma flow_step_resources_nonneg g fs g' :
  wf_graph g → resources_nonneg g ∧ capacities_nonneg g →
  flow_step g = Some (fs, g') → resources_nonneg g' ∧ capacities_nonneg g'.
Proof.
  rewrite !resources_nonneg_all, !capacities_nonneg_all.
  intros _ [Hr Hc] [Happ Hfs]%flow_step_inv. split.
  - eapply apply_flows_nonneg; [done| |done].
    eapply Forall_impl; [done|]. intros ef. by apply flow_entry_amount_nonneg.
  - apply apply_flows_shape in Happ as (_ & _ & Hcap). intros e. by rewrite Hcap.
Qed.

(** C6, with the condition it needs: from non-negative [resources] and
    capacities that are not negative the simulation runs to the end
    without an exception and leaves every node's [resources] at 0 or more.
    The same holds for one step taken from any such graph, so every
    intermediate graph satisfies it too. *)
Theorem flow_keeps_resources_nonneg (g : Graph) (source_nodes sink_nodes : list node)
    (time_steps : Z) :
  wf_graph g → resources_nonneg g → capacities_nonneg g →
  (∃ step_flows g1, flow_step g = Some (step_flows, g1) ∧ resources_nonneg g1)
  ∧ ∃ flow_history g',
      nutrient_flow_simulation g source_nodes sink_nodes time_steps
      = Some (flow_history, g')
      ∧ resources_nonneg g'.
Proof.
  intros Hwf Hr Hc. split.
  - destruct (flow_step_total g Hwf) as (fs & g1 & Hg1 & _). exists fs, g1.
    split; [done|]. by eapply flow_step_resources_nonneg.
  - destruct (flow_steps_invariant (λ g, resources_nonneg g ∧ capacities_nonneg g)
                flow_step_resources_nonneg (Z.to_nat time_steps) g)
      as (h & g' & Hh & _ & ? & _); [done..|].
    by exists h, g'.
Qed.

Lemma flow_keeps_resources_nonneg_witness :
  (∃ step_flows g1, flow_step chain_graph = Some (step_flows, g1) ∧ resources_nonneg g1)
  ∧ ∃ flow_history g',
      nutrient_flow_simulation chain_graph ["A"] ["D"] 3 = Some (flow_history, g')
      ∧ resources_nonneg g'.
Proof.
  apply (flow_keeps_resources_nonneg chain_graph ["A"] ["D"] 3).
  - apply (bool_decide_unpack _); vm_compute; exact I.
  - repeat constructor; vm_compute; congruence.
  - repeat constructor; vm_compute; congruence.
Defined.

(** C6, as it is worded (non-negative [resources], nothing said of the
    capacities), fails on the edge of capacity -1: the recorded amount is
    [min(-1, 1)] = -1, so the step writes [max(0, 10 + 1)] = 11 to A and
    0 - 1 = -1 to B. *)
Lemma negative_capacity_drives_resources_negative :
  wf_graph drain_graph ∧ resources_nonneg drain_graph
  ∧ (∃ flow_history g',
       nutrient_flow_simulation drain_graph [] [] 1 = Some (flow_history, g')
       ∧ resources_of g' "A" == 11 ∧ resources_of g' "B" == -1)
  ∧ ¬ (∀ (g : Graph) (source_nodes sink_nodes : list node) (time_steps : Z),
         wf_graph g → resources_nonneg g →
         ∃ flow_history g',
           nutrient_flow_simulation g source_nodes sink_nodes time_steps
           = Some (flow_history, g')
           ∧ resources_nonneg g').
Proof.
  assert (wf_graph drain_graph) as Hwf by by_evaluation.
  assert (resources_nonneg drain_graph) as Hr by by_evaluation.
  split_and!; [done|done| |].
  - eexists _, _. split; [vm_compute; reflexivity|]. split; by vm_compute.
  - intros H. destruct (H drain_graph [] [] 1%Z Hwf Hr) as (h & g' & Hrun & Hnn).
    vm_compute in Hrun. injection Hrun as <- <-.
    rewrite resources_nonneg_all in Hnn. specialize (Hnn "B").
    vm_compute in Hnn. by apply Hnn.
Qed.

Lemma calculate_flows_recorded g es fs e :
  calculate_flows g es = Some fs → e ∈ es →
  ¬ resources_of g e.1 == resources_of g e.2 → e ∈ fs.*1.
Proof.
  revert fs. induction es as [|[node1 node2] es IH]; intros fs; simpl.
  - by intros _ ?%elem_of_nil.
  - destruct (node_attrs g node1) as [a1|] eqn:Ha1; [|done].
    destruct (node_attrs g node2) as [a2|] eqn:Ha2; [|done]. simpl.
    rewrite (resources_of_attrs _ _ _ Ha1), (resources_of_attrs _ _ _ Ha2).
    destruct (Qeq_bool _ _) eqn:Hq; simpl.
    + intros Hfs [->|Hin]%elem_of_cons Hne; [|by eauto].
      destruct Hne. by apply Qeq_bool_iff.
    + destruct (edge_attrs g (node1, node2)) as [ea|]; [|done]. simpl.
      destruct (calculate_flows g es) as [rest|]; [|done]. simpl.
      intros [= <-] [->|Hin]%elem_of_cons Hne; csimpl; [left|right; eauto].
Qed.

Lemma flow_step_capacities_positive g fs g' :
  capacities_positive g → flow_step g = Some (fs, g') → capacities_positive g'.
Proof.
  rewrite !capacities_positive_all.
  intros Hc [(_ & _ & Hcap)%apply_flows_shape _]%flow_step_inv e. by rewrite Hcap.
Qed.

Lemma flow_step_strengths g fs g' :
  strengths_in_range g → flow_step g = Some (fs, g') →
  strengths_in_range g' ∧ ∀ e, strength_of g e <= strength_of g' e.
Proof.
  rewrite !strengths_in_range_all. intros Hs [Happ _]%flow_step_inv.
  by eapply apply_flows_strength.
Qed.

Lemma recorded_ends_differ g es fs e :
  Forall (flow_entry g es) fs → recorded fs e →
  ¬ resources_of g e.1 == resources_of g e.2.
Proof.
  intros Hfs (k & (ef & -> & Hin)%list_elem_of_fmap & Hs)%Exists_exists.
  rewrite Forall_forall in Hfs. destruct (Hfs ef Hin) as (_ & _ & Hne & _).
  destruct Hs as [[-> ->]|[-> ->]]; [done|]. intros Heq. apply Hne. by symmetry.
Qed.

(** C7, with the condition under which a strength is raised put right:
    from strengths in [0, 2] the simulation leaves every strength in
    [0, 2] and at least as large as it was.  The step taken from the graph
    reached after any number of steps again keeps the range and does not
    lower a strength.  It raises the strength by 0.1, capped at 2, exactly
    for the edges that are recorded in [step_flows], which are the edges
    whose two ends hold different [resources], whatever the recorded
    amount; the other edges keep their strength. *)
Theorem flow_strength_bounded_monotone (g : Graph) (source_nodes sink_nodes : list node)
    (time_steps : Z) :
  wf_graph g → strengths_in_range g →
  ∃ flow_history g',
    nutrient_flow_simulation g source_nodes sink_nodes time_steps = Some (flow_history, g')
    ∧ strengths_in_range g'
    ∧ (∀ e, strength_of g e <= strength_of g' e)
    ∧ ∃ step_flows g'',
        flow_step g' = Some (step_flows, g'')
        ∧ strengths_in_range g''
        ∧ (∀ e, strength_of g' e <= strength_of g'' e)
        ∧ (∀ e, e ∈ edges_view g' →
                recorded step_flows e ↔ ¬ resources_of g' e.1 == resources_of g' e.2)
        ∧ (∀ e, (recorded step_flows e →
                 strength_of g'' e = Qmin 2 (strength_of g' e + (1 # 10)))
                ∧ (¬ recorded step_flows e → strength_of g'' e = strength_of g' e)).
Proof.
  intros Hwf Hs.
  destruct (flow_steps_invariant
              (λ g', strengths_in_range g'
                     ∧ (∀ e, strength_of g e <= strength_of g' e)))
    with (n := Z.to_nat time_steps) (g := g)
    as (h & g' & Hh & Hwf' & Hs' & Hm'); [|done| |].
  { intros g1 fs g2 _ (Hs1 & Hm1) Hstep.
    destruct (flow_step_strengths _ _ _ Hs1 Hstep) as [Hs2 Hm2]. split; [done|].
    intros e. specialize (Hm1 e). specialize (Hm2 e). lra. }
  { split; [done|]. intros e. lra. }
  exists h, g'. split_and!; [done..|].
  destruct (flow_step_total g' Hwf') as (fs & g'' & Hg'' & Happ & Hfs & Hd).
  destruct (flow_step_strengths _ _ _ Hs' Hg'') as [Hs'' Hm''].
  exists fs, g''. split_and!; [done..| |].
  - intros e He. split; [by apply (recorded_ends_differ g' (edges_view g'))|].
    intros Hne. apply Exists_exists. exists e. split; [|by left].
    unfold flow_step in Hg''.
    destruct (calculate_flows g' (edges_view g')) as [fs'|] eqn:Hcalc; [|done].
    cbn [mbind option_bind] in Hg''.
    destruct (apply_flows g' fs') as [g3|]; [|done]. injection Hg'' as <- _.
    by apply (calculate_flows_recorded g' (edges_view g')).
  - intros e. rewrite (apply_flows_strength_exact _ _ _ Hd Happ e). unfold recorded.
    split; intros ?; [by rewrite decide_True|by rewrite decide_False].
Qed.

Lemma flow_strength_bounded_monotone_witness :
  ∃ flow_history g',
    nutrient_flow_simulation chain_graph ["A"] ["D"] 2 = Some (flow_history, g')
    ∧ strengths_in_range g'
    ∧ (∀ e, strength_of chain_graph e <= strength_of g' e)
    ∧ ∃ step_flows g'',
        flow_step g' = Some (step_flows, g'')
        ∧ strengths_in_range g''
        ∧ (∀ e, strength_of g' e <= strength_of g'' e)
        ∧ (∀ e, e ∈ edges_view g' →
                recorded step_flows e ↔ ¬ resources_of g' e.1 == resources_of g' e.2)
        ∧ (∀ e, (recorded step_flows e →
                 strength_of g'' e = Qmin 2 (strength_of g' e + (1 # 10)))
                ∧ (¬ recorded step_flows e → strength_of g'' e = strength_of g' e)).
Proof.
  apply (flow_strength_bounded_monotone chain_graph ["A"] ["D"] 2).
  - apply (bool_decide_unpack _); vm_compute; exact I.
  - repeat constructor; vm_compute; congruence.
Defined.

(** C7, as it is worded (the strength moves exactly on the steps with a
    flow other than 0), fails on the edge of capacity 0: the ends hold 10
    and 0, so the edge is recorded, with the amount [min(0, 1)] = 0, and
    the apply loop raises its strength from 1 to 1.1 all the same. *)
Lemma zero_flow_still_strengthens :
  wf_graph idle_graph ∧ strengths_in_range idle_graph
  ∧ (∃ step_flows g',
       flow_step idle_graph = Some (step_flows, g')
       ∧ ¬ carries_flow step_flows ("A", "B")
       ∧ strength_of idle_graph ("A", "B") == 1
       ∧ strength_of g' ("A", "B") == 11 # 10)
  ∧ ¬ (∀ g : Graph,
         wf_graph g → strengths_in_range g →
         ∃ step_flows g',
           flow_step g = Some (step_flows, g')
           ∧ ∀ e, (carries_flow step_flows e →
                   strength_of g' e == Qmin 2 (strength_of g e + (1 # 10)))
                  ∧ (¬ carries_flow step_flows e → strength_of g' e == strength_of g e)).
Proof.
  assert (wf_graph idle_graph) as Hwf by by_evaluation.
  assert (strengths_in_range idle_graph) as Hs by by_evaluation.
  split_and!; [done|done| |].
  - eexists _, _. split; [vm_compute; reflexivity|].
    split_and!; [|by vm_compute..].
    intros (ef & ->%list_elem_of_singleton & _ & Hne)%Exists_exists.
    apply Hne. by vm_compute.
  - intros H. destruct (H idle_graph Hwf Hs) as (fs & g' & Hrun & Hall).
    vm_compute in Hrun. injection Hrun as <- <-.
    destruct (Hall ("A", "B")) as [_ Hsame].
    enough (0 == 1) as Hbad by (by vm_compute in Hbad).
    assert (∀ x y : Q, x == y → x == 11 # 10 → y == 1 → 0 == 1) as Hoff
      by (intros x y ???; lra).
    eapply Hoff; [apply Hsame|by vm_compute..].
    intros (ef & ->%list_elem_of_singleton & _ & Hne)%Exists_exists.
    apply Hne. by vm_compute.
Qed.

(** ** Missing attributes *)

Section defaults.
Variables dr dc ds : Q.
Local Abbreviation W := (write_defaults dr dc ds).

Lemma node_keys_defaults g : node_keys (W g) = node_keys g.
Proof. unfold node_keys. simpl. by apply fmap_fst_update. Qed.

Lemma edge_keys_defaults g : edge_keys (W g) = edge_keys g.
Proof. unfold edge_keys. simpl. by apply fmap_fst_update. Qed.

Lemma has_node_defaults g n : has_node (W g) n = has_node g n.
Proof. unfold has_node. by rewrite node_keys_defaults. Qed.

Lemma has_edge_defaults g u v : has_edge (W g) u v = has_edge g u v.
Proof. unfold has_edge. by rewrite edge_keys_defaults. Qed.

Lemma node_attrs_defaults g n : node_attrs (W g) n = fill_node dr <$> node_attrs g n.
Proof.
  unfold node_attrs. simpl. induction (nodes g) as [|[k a] l IH]; [done|].
  rewrite fmap_cons. simpl. by case_decide.
Qed.

Lemma edge_attrs_defaults g e : edge_attrs (W g) e = fill_edge dc ds <$> edge_attrs g e.
Proof.
  unfold edge_attrs. simpl. induction (edges g) as [|[k a] l IH]; [done|].
  rewrite fmap_cons. simpl. by case_decide.
Qed.

Lemma neighbors_defaults g n : neighbors (W g) n = neighbors g n.
Proof.
  unfold neighbors. simpl. induction (edges g) as [|[k a] l IH]; [done|].
  rewrite fmap_cons. csimpl. by rewrite IH.
Qed.

Lemma edges_view_defaults g : edges_view (W g) = edges_view g.
Proof.
  unfold edges_view. rewrite node_keys_defaults. generalize (@nil node).
  induction (node_keys g) as [|n ns IH]; intros seen; simpl; [done|].
  by rewrite neighbors_defaults, IH.
Qed.

Lemma set_resources_defaults g n q :
  set_resources (W g) n q = W <$> set_resources g n q.
Proof.
  unfold set_resources. rewrite has_node_defaults. destruct (has_node g n); [|done].
  simpl. f_equal. unfold write_defaults. simpl. f_equal.
  rewrite <-!list_fmap_compose. apply list_fmap_ext. intros i [k a] _. simpl.
  by case_decide.
Qed.

Lemma set_strength_defaults g e q :
  set_strength (W g) e q = W <$> set_strength g e q.
Proof.
  unfold set_strength. rewrite has_edge_defaults. destruct (has_edge g e.1 e.2); [|done].
  simpl. f_equal. unfold write_defaults. simpl. f_equal.
  rewrite <-!list_fmap_compose. apply list_fmap_ext. intros i [k a] _. simpl.
  by case_decide.
Qed.
End defaults.

Local Abbreviation stored_defaults := (write_defaults 0 1 1).

Lemma get_resources_fill a : get_resources (fill_node 0 a) = get_resources a.
Proof. by destruct a as [[?|] ???]. Qed.

Lemma get_capacity_fill ds a : get_capacity (fill_edge 1 ds a) = get_capacity a.
Proof. by destruct a as [? [?|] ???]. Qed.

Lemma get_strength_fill dc a : get_strength (fill_edge dc 1 a) = get_strength a.
Proof. by destruct a as [[?|] ????]. Qed.

Lemma calculate_flows_defaults g es :
  calculate_flows (stored_defaults g) es = calculate_flows g es.
Proof.
  induction es as [|[node1 node2] es IH]; simpl; [done|].
  rewrite !node_attrs_defaults, edge_attrs_defaults, IH.
  destruct (node_attrs g node1) as [a1|]; [|done].
  destruct (node_attrs g node2) as [a2|]; [|done]. simpl.
  rewrite !get_resources_fill.
  destruct (negb _); [|done].
  destruct (edge_attrs g (node1, node2)) as [ea|]; [|done]. simpl.
  by rewrite get_capacity_fill.
Qed.

Lemma apply_flow_defaults g ef :
  apply_flow (stored_defaults g) ef = stored_defaults <$> apply_flow g ef.
Proof.
  destruct ef as [edge fd]. unfold apply_flow. destruct (direction fd) as [from_node to_node].
  rewrite !node_attrs_defaults.
  destruct (node_attrs g from_node) as [af|]; [|done].
  destruct (node_attrs g to_node) as [ato|]; [|done]. simpl.
  rewrite !get_resources_fill.
  rewrite set_resources_defaults.
  destruct (set_resources g from_node _) as [g1|]; [|done]. simpl.
  rewrite set_resources_defaults.
  destruct (set_resources g1 to_node _) as [g2|]; [|done]. simpl.
  rewrite edge_attrs_defaults.
  destruct (edge_attrs g2 edge) as [ea|]; [|done]. simpl.
  rewrite get_strength_fill.
  apply set_strength_defaults.
Qed.

Lemma apply_flows_defaults g fs :
  apply_flows (stored_defaults g) fs = stored_defaults <$> apply_flows g fs.
Proof.
  revert g. induction fs as [|ef fs IH]; intros g; simpl; [done|].
  rewrite apply_flow_defaults. destruct (apply_flow g ef) as [g1|]; [|done]. simpl.
  apply IH.
Qed.

Lemma flow_steps_defaults g n h g' :
  flow_steps g n = Some (h, g') →
  flow_steps (stored_defaults g) n = Some (h, stored_defaults g').
Proof.
  revert g h g'. induction n as [|n IH]; intros g h g'; simpl.
  - by intros [= <- <-].
  - unfold flow_step. rewrite edges_view_defaults, calculate_flows_defaults.
    destruct (calculate_flows g (edges_view g)) as [fs|]; [|done]. simpl.
    rewrite apply_flows_defaults.
    destruct (apply_flows g fs) as [g1|]; [|done]. simpl.
    destruct (flow_steps g1 n) as [[h1 g2]|] eqn:Hn; [|done]. simpl.
    intros [= <- <-]. by rewrite (IH _ _ _ Hn).
Qed.

(** C2, as the code has it: a missing [resources] is read as 0, a missing
    [capacity] as 1 and a missing [strength] as 1.0, and no missing
    attribute raises: the simulation returns, and it returns the same
    history and the same graph as it does when these three values are
    stored in place of the missing attributes. *)
Theorem missing_attributes_read_as_defaults (g : Graph)
    (source_nodes sink_nodes : list node) (time_steps : Z) :
  wf_graph g →
  ∃ flow_history g',
    nutrient_flow_simulation g source_nodes sink_nodes time_steps = Some (flow_history, g')
    ∧ nutrient_flow_simulation (write_defaults 0 1 1 g) source_nodes sink_nodes time_steps
      = Some (flow_history, write_defaults 0 1 1 g').
Proof.
  intros Hwf.
  destruct (flow_steps_invariant (λ _, True)) with (n := Z.to_nat time_steps) (g := g)
    as (h & g' & Hh & _); [done..|].
  exists h, g'. split; [done|]. by apply flow_steps_defaults.
Qed.

Lemma missing_attributes_read_as_defaults_witness :
  ∃ flow_history g',
    nutrient_flow_simulation bare_graph [] [] 2 = Some (flow_history, g')
    ∧ nutrient_flow_simulation (write_defaults 0 1 1 bare_graph) [] [] 2
      = Some (flow_history, write_defaults 0 1 1 g').
Proof.
  apply (missing_attributes_read_as_defaults bare_graph [] [] 2).
  apply (bool_decide_unpack _); vm_compute; exact I.
Defined.

(** C2, as it is worded (a missing [capacity] read as 0), fails on the
    edge without attributes: the code records the flow 1 from A to B, with
    the capacity 0 stored the recorded flow is 0. *)
Lemma missing_capacity_is_not_read_as_zero :
  (∃ g', nutrient_flow_simulation bare_graph [] [] 1
         = Some ([[(("A", "B"), mkFlow ("A", "B") 1)]], g'))
  ∧ (∃ g', nutrient_flow_simulation (write_defaults 0 0 1 bare_graph) [] [] 1
           = Some ([[(("A", "B"), mkFlow ("A", "B") 0)]], g'))
  ∧ ¬ reads_missing_as 0 0 1.
Proof.
  split_and!.
  - eexists. vm_compute. reflexivity.
  - eexists. vm_compute. reflexivity.
  - intros H. destruct (H bare_graph [] [] 1%Z bare_graph_wf) as (h & g' & H1 & H2).
    vm_compute in H1. vm_compute in H2. congruence.
Qed.

(** ** Breadth-first search *)

Local Close Scope Q_scope.

Lemma first_unseen_spec seen l :
  (∀ e, e ∈ first_unseen seen l → e ∈ l ∧ e.1 ∉ seen)
  ∧ NoDup (first_unseen seen l).*1
  ∧ (∀ e, e ∈ l → e.1 ∈ seen ∨ e.1 ∈ (first_unseen seen l).*1).
Proof.
  revert seen. induction l as [|e l IH]; intros seen; simpl.
  - split_and!; [by intros ? ?%elem_of_nil|constructor|by intros ? ?%elem_of_nil].
  - case_decide as He.
    + destruct (IH seen) as (H1 & H2 & H3). split_and!; [|done|].
      * intros e' [??]%H1. split; [by right|done].
      * intros e' [->|?]%elem_of_cons; [by left|auto].
    + destruct (IH (e.1 :: seen)) as (H1 & H2 & H3). csimpl. split_and!.
      * intros e' [->|[? Hn]%H1]%elem_of_cons; [split; [left|done]|].
        rewrite not_elem_of_cons in Hn. split; [by right|tauto].
      * constructor; [|done]. intros (e' & Heq & [_ Hn]%H1)%list_elem_of_fmap.
        apply Hn. rewrite Heq. left.
      * intros e' [->|[[->|?]%elem_of_cons|?]%H3]%elem_of_cons;
          [right; left|right; left|by left|by right; right].
Qed.

Lemma elem_of_candidates g frontier e' :
  e' ∈ candidates g frontier
  ↔ ∃ e, e ∈ frontier ∧ adjacent g e.1 e'.1 ∧ e'.2 = e.1 :: e.2.
Proof.
  unfold candidates, adjacent. rewrite list_elem_of_bind. split.
  - intros (e & (nbr & -> & ?)%list_elem_of_fmap & ?). by exists e.
  - intros (e & ? & ? & Heq). exists e. split; [|done].
    apply list_elem_of_fmap. exists e'.1. split; [|done].
    destruct e'. simpl in *. by subst.
Qed.

Lemma nsteps_zero_inv {A} (R : relation A) x y : nsteps R 0 x y → x = y.
Proof. by inversion 1. Qed.

Section bfs.
Variable g : Graph.
Variable s : node.
Hypothesis closed : closed_graph g.
Hypothesis source_in : s ∈ node_keys g.

Local Abbreviation R := (adjacent g).

(** [v :: p] is a walk from [v] back to [s]. *)
Inductive rwalk : node → list node → Prop :=
  | rwalk_source : rwalk s []
  | rwalk_step u p v : rwalk u p → R u v → rwalk v (u :: p).

Lemma rwalk_nsteps v p : rwalk v p → nsteps R (length p) s v.
Proof. induction 1; simpl; [constructor|by eapply nsteps_r]. Qed.

Lemma rwalk_last v p : rwalk v p → last (v :: p) = Some s.
Proof. induction 1; [done|]. by rewrite last_cons_cons. Qed.

Lemma rwalk_links v p :
  rwalk v p → ∀ i x y, (v :: p) !! i = Some x → (v :: p) !! S i = Some y → R y x.
Proof.
  induction 1 as [|u p v _ IH Huv]; intros i x y.
  - by destruct i.
  - destruct i as [|i]; simpl; [by intros [= <-] [= <-]|]. apply IH.
Qed.

Lemma rwalk_path v p : rwalk v p → path_between g s v (reverse (v :: p)).
Proof.
  intros Hw. unfold path_between. rewrite head_reverse, last_reverse.
  split_and!; [by apply rwalk_last|done|].
  intros i a b Ha Hb.
  assert (S i < length (v :: p)) as Hi.
  { apply lookup_lt_Some in Hb. by rewrite length_reverse in Hb. }
  rewrite reverse_lookup in Ha by lia. rewrite reverse_lookup in Hb by lia.
  apply (rwalk_links v p Hw (length (v :: p) - S (S i))); [done|].
  by replace (S (length (v :: p) - S (S i))) with (length (v :: p) - S i) by lia.
Qed.

Lemma path_between_nsteps t q : path_between g s t q → nsteps R (length q - 1) s t.
Proof.
  intros (Hh & Hl & Hlinks). apply nsteps_list. exists q. split_and!; [|done..].
  destruct q; [done|]. simpl. lia.
Qed.

Lemma nsteps_in_graph k v : nsteps R k s v → v ∈ node_keys g.
Proof.
  destruct k as [|k].
  - by intros <-%nsteps_zero_inv.
  - intros (u & _ & Huv)%nsteps_inv_r. by destruct (adjacent_closed _ _ _ closed Huv).
Qed.

(** The state of the search when the nodes at distance [k] form the
    frontier. *)
Record layer (k : nat) (seen : list node) (frontier : list Entry) : Prop := mk_layer {
  layer_walk : ∀ e, e ∈ frontier → rwalk e.1 e.2 ∧ length e.2 = k;
  layer_first : ∀ e j, e ∈ frontier → j < k → ¬ nsteps R j s e.1;
  layer_all : ∀ v, nsteps R k s v → v ∈ frontier.*1 ∨ ∃ j, j < k ∧ nsteps R j s v;
  layer_seen : ∀ v, v ∈ seen → ∃ j, j ≤ k ∧ nsteps R j s v;
  layer_near : ∀ v j, j ≤ k → nsteps R j s v → v ∈ seen;
  layer_nodup : NoDup seen
}.

Lemma layer_init : layer 0 [s] [(s, [])].
Proof.
  constructor.
  - intros e ->%list_elem_of_singleton. split; [constructor|done].
  - intros; lia.
  - intros v <-%nsteps_zero_inv. left. left.
  - intros v ->%list_elem_of_singleton. exists 0. split; [done|constructor].
  - intros v j Hj Hv. replace j with 0 in Hv by lia.
    apply nsteps_zero_inv in Hv as <-. left.
  - apply NoDup_singleton.
Qed.

Lemma layer_next k seen frontier :
  layer k seen frontier →
  layer (S k) ((first_unseen seen (candidates g frontier)).*1 ++ seen)
    (first_unseen seen (candidates g frontier)).
Proof.
  intros [Hwalk Hfirst Hall Hseen Hnear Hnd].
  destruct (first_unseen_spec seen (candidates g frontier)) as (Hsub & Hnd' & Hcov).
  constructor.
  - intros e' [(e & He & Hadj & Heq)%elem_of_candidates _]%Hsub.
    destruct (Hwalk e He) as [Hw Hlen]. rewrite Heq. split; [|simpl; lia].
    by apply rwalk_step.
  - intros e' j [_ Hn]%Hsub Hj Hsteps. apply Hn. apply (Hnear _ j); [lia|done].
  - intros v (u & Hu & Huv)%nsteps_inv_r.
    destruct (Hall u Hu) as [(e & -> & He)%list_elem_of_fmap|(j & Hj & Hsteps)].
    + destruct (Hcov (v, e.1 :: e.2)) as [Hin|Hin].
      * apply elem_of_candidates. by exists e.
      * right. destruct (Hseen v Hin) as (j & ? & ?). exists j. split; [lia|done].
      * by left.
    + right. exists (S j). split; [lia|]. by eapply nsteps_r.
  - intros v [(e' & -> & [(e & He & Hadj & Heq)%elem_of_candidates _]%Hsub)%list_elem_of_fmap
             |Hin]%elem_of_app.
    + exists (S k). split; [done|]. destruct (Hwalk e He) as [Hw <-].
      eapply nsteps_r; [|done]. by apply rwalk_nsteps.
    + destruct (Hseen v Hin) as (j & ? & ?). exists j. split; [lia|done].
  - intros v j Hj Hsteps. apply elem_of_app.
    destruct (decide (j ≤ k)) as [|Hjk]; [right; by apply (Hnear v j)|].
    replace j with (S k) in Hsteps by lia.
    apply nsteps_inv_r in Hsteps as (u & Hu & Huv).
    destruct (Hall u Hu) as [(e & -> & He)%list_elem_of_fmap|(j' & Hj' & Hsteps)].
    + destruct (Hcov (v, e.1 :: e.2)) as [Hin|Hin]; [|by right|by left].
      apply elem_of_candidates. by exists e.
    + right. apply (Hnear v (S j')); [lia|]. by eapply nsteps_r.
  - apply NoDup_app. split_and!; [done| |done].
    intros v (e' & -> & [_ Hn]%Hsub)%list_elem_of_fmap. done.
Qed.

Lemma layer_seen_in_graph k seen frontier :
  layer k seen frontier → length seen ≤ length (node_keys g).
Proof.
  intros [_ _ _ Hseen _ Hnd]. apply submseteq_length, NoDup_submseteq; [done|].
  intros v (j & _ & Hv)%Hseen. by eapply nsteps_in_graph.
Qed.

Lemma layer_exhausted k seen v j :
  layer k seen [] → nsteps R j s v → ∃ j', j' < k ∧ nsteps R j' s v.
Proof.
  intros [_ _ Hall _ _ _]. revert v. induction j as [|j IH]; intros v Hv.
  - apply nsteps_zero_inv in Hv as <-. destruct k as [|k].
    + destruct (Hall s) as [?%elem_of_nil|(j' & ? & ?)]; [constructor|done|lia].
    + exists 0. split; [lia|constructor].
  - apply nsteps_inv_r in Hv as (u & Hu & Huv).
    destruct (IH u Hu) as (j' & Hj' & Hsteps).
    destruct (decide (S j' < k)) as [|Hk].
    + exists (S j'). split; [done|]. by eapply nsteps_r.
    + replace k with (S j') in * by lia.
      destruct (Hall v) as [?%elem_of_nil|?]; [by eapply nsteps_r|done|done].
Qed.
Lemma bfs_layers_cons fuel seen e frontier :
  bfs_layers g (S fuel) seen (e :: frontier)
  = (e :: frontier)
      ++ bfs_layers g fuel
           ((first_unseen seen (candidates g (e :: frontier))).*1 ++ seen)
           (first_unseen seen (candidates g (e :: frontier))).
Proof. done. Qed.

Lemma bfs_layers_frontier fuel seen frontier e :
  e ∈ frontier → e ∈ bfs_layers g fuel seen frontier.
Proof.
  destruct frontier as [|e0 frontier]; [by intros ?%elem_of_nil|].
  destruct fuel; [done|]. rewrite bfs_layers_cons, elem_of_app. by left.
Qed.

Lemma bfs_layers_sound fuel k seen frontier e :
  layer k seen frontier → e ∈ bfs_layers g fuel seen frontier →
  rwalk e.1 e.2 ∧ ∀ j, j < length e.2 → ¬ nsteps R j s e.1.
Proof.
  revert k seen frontier. induction fuel as [|fuel IH]; intros k seen frontier Hl.
  - assert (e ∈ frontier → rwalk e.1 e.2 ∧ ∀ j, j < length e.2 → ¬ nsteps R j s e.1) as H.
    { intros He. destruct (layer_walk _ _ _ Hl e He) as [? Hlen]. split; [done|].
      intros j Hj. apply (layer_first _ _ _ Hl e j He). lia. }
    by destruct frontier.
  - destruct frontier as [|e0 frontier]; [by intros ?%elem_of_nil|].
    rewrite bfs_layers_cons, elem_of_app. intros [He|He].
    + destruct (layer_walk _ _ _ Hl e He) as [? Hlen]. split; [done|].
      intros j Hj. apply (layer_first _ _ _ Hl e j He). lia.
    + eapply IH; [|done]. by apply layer_next.
Qed.

Lemma bfs_layers_complete fuel k seen frontier v j :
  layer k seen frontier →
  (frontier ≠ [] → length (node_keys g) < fuel + length seen) →
  nsteps R j s v →
  v ∈ seen ∨ v ∈ (bfs_layers g fuel seen frontier).*1.
Proof.
  revert k seen frontier. induction fuel as [|fuel IH]; intros k seen frontier Hl Hfuel Hv.
  - destruct frontier as [|e0 frontier].
    + left. destruct (layer_exhausted _ _ _ _ Hl Hv) as (j' & Hj' & Hsteps).
      apply (layer_near _ _ _ Hl v j'); [lia|done].
    + pose proof (layer_seen_in_graph _ _ _ Hl). specialize (Hfuel ltac:(done)). lia.
  - destruct frontier as [|e0 frontier].
    + left. destruct (layer_exhausted _ _ _ _ Hl Hv) as (j' & Hj' & Hsteps).
      apply (layer_near _ _ _ Hl v j'); [lia|done].
    + rewrite bfs_layers_cons. specialize (Hfuel ltac:(done)).
      set (next := first_unseen seen (candidates g (e0 :: frontier))) in *.
      destruct (IH (S k) (next.*1 ++ seen) next) as [[Hin|Hin]%elem_of_app|Hin].
      * by apply layer_next.
      * intros Hne. rewrite length_app, length_fmap.
        destruct next; [done|]. simpl. lia.
      * done.
      * right. rewrite fmap_app, elem_of_app. right.
        apply list_elem_of_fmap in Hin as (e & -> & He).
        apply list_elem_of_fmap_2. by apply bfs_layers_frontier.
      * by left.
      * right. rewrite fmap_app, elem_of_app. by right.
Qed.

Lemma bfs_sound e :
  e ∈ bfs g s → rwalk e.1 e.2 ∧ ∀ j, j < length e.2 → ¬ nsteps R j s e.1.
Proof. apply (bfs_layers_sound _ 0), layer_init. Qed.

Lemma bfs_complete v j : nsteps R j s v → v ∈ (bfs g s).*1.
Proof.
  intros Hv. destruct (bfs_layers_complete (length (nodes g)) 0 [s] [(s, [])] v j)
    as [->%list_elem_of_singleton|?]; [apply layer_init| |done| |done].
  - intros _. unfold node_keys. rewrite length_fmap. simpl. lia.
  - apply list_elem_of_fmap. exists (s, []). split; [done|].
    apply bfs_layers_frontier. left.
Qed.
End bfs.

(** ** shortest_path and the components *)

Lemma plain_bfs_reachable g s v :
  closed_graph g → s ∈ node_keys g → v ∈ plain_bfs g s ↔ rtc (adjacent g) s v.
Proof.
  intros Hcl Hs. unfold plain_bfs. split.
  - intros (e & -> & [Hw _]%bfs_sound)%list_elem_of_fmap.
    eapply rtc_nsteps_2. by apply rwalk_nsteps.
  - intros [j Hj]%rtc_nsteps_1. by eapply bfs_complete.
Qed.

Lemma shortest_path_not_found g s t :
  shortest_path g s t = NodeNotFound ↔ ¬ (s ∈ node_keys g ∧ t ∈ node_keys g).
Proof.
  unfold shortest_path. rewrite <-!has_node_true.
  destruct (has_node g s), (has_node g t); simpl;
    try (split; [done|intros []; by split]); try (split; [intros _ [??]; done|done]).
  destruct (list_find _ _) as [[??]|]; split; try done; intros []; by split.
Qed.

Lemma shortest_path_found g s t p :
  closed_graph g → shortest_path g s t = Path p →
  path_between g s t p ∧ ∀ q, path_between g s t q → length p ≤ length q.
Proof.
  intros Hcl. unfold shortest_path.
  destruct (has_node g s && has_node g t) eqn:Hin; [|done].
  apply andb_prop in Hin as [Hs%has_node_true Ht%has_node_true].
  destruct (list_find _ _) as [[i e]|] eqn:Hfind; [|done].
  intros [= <-]. apply list_find_Some in Hfind as (He%list_elem_of_lookup_2 & <- & _).
  destruct (bfs_sound g s e He) as [Hw Hmin]. split.
  - by apply rwalk_path.
  - intros q Hq. rewrite length_reverse. simpl.
    destruct (decide (S (length e.2) ≤ length q)) as [|Hlt]; [done|].
    destruct (Hmin (length q - 1)).
    + destruct Hq as (Hh & _). destruct q; [done|]. simpl in *. lia.
    + by apply path_between_nsteps.
Qed.

Lemma shortest_path_none g s t :
  closed_graph g → shortest_path g s t = NetworkXNoPath →
  s ∈ node_keys g ∧ t ∈ node_keys g ∧ ∀ q, ¬ path_between g s t q.
Proof.
  intros Hcl. unfold shortest_path.
  destruct (has_node g s && has_node g t) eqn:Hin; [|done].
  apply andb_prop in Hin as [Hs%has_node_true Ht%has_node_true].
  destruct (list_find _ _) as [[i e]|] eqn:Hfind; [done|]. intros _.
  split_and!; [done..|]. intros q Hq%path_between_nsteps.
  apply (bfs_complete g s Hcl Hs) in Hq as (e & Heq & He)%list_elem_of_fmap.
  apply list_find_None in Hfind. rewrite Forall_forall in Hfind.
  by apply (Hfind e He).
Qed.

(** ** add_node and add_edge *)

Local Close Scope Q_scope.

Lemma lookup_node_app m (l l' : list (node * NodeAttrs)) :
  lookup_node m (l ++ l')
  = match lookup_node m l with Some a => Some a | None => lookup_node m l' end.
Proof.
  induction l as [|[k a] l IH]; [done|]. rewrite <-app_comm_cons. simpl.
  by case_decide.
Qed.

Lemma lookup_edge_app e (l l' : list (node * node * EdgeAttrs)) :
  lookup_edge e (l ++ l')
  = match lookup_edge e l with Some a => Some a | None => lookup_edge e l' end.
Proof.
  induction l as [|[k a] l IH]; [done|]. rewrite <-app_comm_cons. simpl.
  by case_decide.
Qed.

Lemma lookup_node_None m l : lookup_node m l = None ↔ m ∉ l.*1.
Proof. rewrite eq_None_not_Some. by rewrite lookup_node_is_Some. Qed.

Lemma lookup_edge_None e l :
  lookup_edge e l = None ↔ ¬ Exists (λ k, same_edge k e) l.*1.
Proof. rewrite eq_None_not_Some. by rewrite lookup_edge_is_Some. Qed.

Lemma add_node_keys g n attr :
  node_keys (add_node g n attr)
  = if decide (n ∈ node_keys g) then node_keys g else node_keys g ++ [n].
Proof.
  unfold add_node, node_keys at 1. simpl. case_decide.
  - apply fmap_fst_update. intros x. by case_decide.
  - by rewrite fmap_app.
Qed.

Lemma lookup_node_upsert (f : NodeAttrs → NodeAttrs) n m l :
  lookup_node m ((λ ka, if decide (ka.1 = n) then (ka.1, f ka.2) else ka) <$> l)
  = if decide (m = n) then f <$> lookup_node m l else lookup_node m l.
Proof.
  induction l as [|[k a] l IH]; [by case_decide|].
  rewrite fmap_cons. simpl. rewrite IH.
  repeat (case_decide; simplify_eq/=); done.
Qed.

Lemma add_node_attrs g n attr m :
  node_attrs (add_node g n attr) m
  = if decide (m = n)
    then Some (update_node_attrs attr (default empty_node_attrs (node_attrs g n)))
    else node_attrs g m.
Proof.
  unfold add_node, node_attrs, node_keys. simpl.
  destruct (decide (n ∈ (nodes g).*1)) as [Hn|Hn].
  - rewrite lookup_node_upsert. case_decide as Hmn; [subst m|done].
    apply lookup_node_is_Some in Hn as [a Ha]. by rewrite Ha.
  - rewrite lookup_node_app. simpl.
    apply lookup_node_None in Hn as Hnone. rewrite Hnone. simpl.
    destruct (decide (m = n)) as [->|Hmn].
    + by rewrite Hnone, decide_True.
    + destruct (lookup_node m (nodes g)); [done|]. by rewrite decide_False.
Qed.

Lemma add_node_wf g n attr : wf_graph g → wf_graph (add_node g n attr).
Proof.
  intros [Hnd Hcl Hed]. constructor.
  - rewrite add_node_keys. case_decide; [done|].
    apply NoDup_app. split_and!; [done| |apply NoDup_singleton].
    intros x Hx ->%list_elem_of_singleton. done.
  - unfold closed_graph in *. rewrite add_node_keys.
    eapply Forall_impl; [exact Hcl|]. intros e [??]. simpl.
    case_decide; [done|]. rewrite !elem_of_app. auto.
  - done.
Qed.

Lemma ensure_node_keys n (l : list (node * NodeAttrs)) m :
  m ∈ (ensure_node n l).*1 ↔ m ∈ l.*1 ∨ m = n.
Proof.
  unfold ensure_node. case_decide.
  - split; [by left|]. intros [?| ->]; done.
  - rewrite fmap_app, elem_of_app. csimpl. by rewrite list_elem_of_singleton.
Qed.

Lemma ensure_node_NoDup n (l : list (node * NodeAttrs)) :
  NoDup l.*1 → NoDup (ensure_node n l).*1.
Proof.
  intros Hnd. unfold ensure_node. case_decide; [done|].
  rewrite fmap_app. apply NoDup_app. split_and!; [done| |apply NoDup_singleton].
  intros x Hx ->%list_elem_of_singleton. done.
Qed.

Lemma ensure_node_lookup n (l : list (node * NodeAttrs)) m :
  lookup_node m (ensure_node n l)
  = match lookup_node m l with
    | Some a => Some a
    | None => if decide (m = n) then Some empty_node_attrs else None
    end.
Proof.
  unfold ensure_node. case_decide as Hn.
  - destruct (lookup_node m l) eqn:Hm; [done|]. case_decide; [subst|done].
    apply lookup_node_None in Hm. done.
  - rewrite lookup_node_app. simpl. destruct (lookup_node m l); [done|].
    destruct (decide (n = m)), (decide (m = n)); congruence.
Qed.

Lemma add_edge_node_keys g u v attr m :
  m ∈ node_keys (add_edge g u v attr) ↔ m ∈ node_keys g ∨ m = u ∨ m = v.
Proof.
  unfold add_edge, node_keys. simpl. rewrite !ensure_node_keys. tauto.
Qed.

Lemma add_edge_node_attrs g u v attr m :
  node_attrs (add_edge g u v attr) m
  = match node_attrs g m with
    | Some a => Some a
    | None => if decide (m = u ∨ m = v) then Some empty_node_attrs else None
    end.
Proof.
  unfold add_edge, node_attrs. simpl. rewrite !ensure_node_lookup.
  destruct (lookup_node m (nodes g)); [done|].
  destruct (decide (m = u)), (decide (m = v)), (decide (m = u ∨ m = v)); tauto.
Qed.

Lemma add_edge_keys g u v attr :
  edge_keys (add_edge g u v attr)
  = if has_edge g u v then edge_keys g else edge_keys g ++ [(u, v)].
Proof.
  unfold add_edge, edge_keys at 1. simpl. destruct (has_edge g u v).
  - apply fmap_fst_update. intros x. by case_decide.
  - by rewrite fmap_app.
Qed.

Lemma add_edge_attrs g u v attr e :
  edge_attrs (add_edge g u v attr) e
  = if decide (same_edge e (u, v))
    then Some (update_edge_attrs attr
                 (default (mkEdgeAttrs None None None None None) (edge_attrs g (u, v))))
    else edge_attrs g e.
Proof.
  unfold add_edge, edge_attrs. simpl. destruct (has_edge g u v) eqn:He.
  - rewrite (lookup_edge_update (update_edge_attrs attr)).
    case_decide as Hse; [|done].
    rewrite (lookup_edge_proper e (u, v)) by done.
    apply (edge_attrs_is_Some g (u, v)) in He as [a Ha]. unfold edge_attrs in Ha.
    by rewrite Ha.
  - assert (lookup_edge (u, v) (edges g) = None) as Hnone.
    { apply eq_None_not_Some. rewrite (edge_attrs_is_Some g (u, v)). simpl. congruence. }
    rewrite lookup_edge_app. simpl. case_decide as Hse.
    + apply same_edge_sym in Hse. rewrite decide_True by done.
      rewrite (lookup_edge_proper e (u, v)) by done. by rewrite Hnone.
    + rewrite decide_False; [by destruct (lookup_edge e (edges g))|].
      intros ?. by apply Hse, same_edge_sym.
Qed.

Lemma add_edge_wf g u v attr : wf_graph g → wf_graph (add_edge g u v attr).
Proof.
  intros [Hnd Hcl Hed]. constructor.
  - unfold add_edge, node_keys. simpl. by do 2 apply ensure_node_NoDup.
  - unfold closed_graph in *. rewrite add_edge_keys, Forall_forall in *.
    assert (∀ e, e ∈ edge_keys g →
              e.1 ∈ node_keys (add_edge g u v attr)
              ∧ e.2 ∈ node_keys (add_edge g u v attr)) as Hold.
    { intros e [??]%Hcl. rewrite !add_edge_node_keys. tauto. }
    destruct (has_edge g u v); [done|].
    intros e [?| ->%list_elem_of_singleton]%elem_of_app; [by apply Hold|].
    rewrite !add_edge_node_keys. simpl. tauto.
  - rewrite add_edge_keys. destruct (has_edge g u v) eqn:He; [done|].
    apply edges_distinct_app. split_and!; [done|by csimpl|].
    intros e1 e2 He1 ->%list_elem_of_singleton Hse.
    apply not_true_iff_false in He. apply He, has_edge_true, Exists_exists.
    by exists e1.
Qed.

(** ** graph.copy() *)

Lemma add_edge_adjacent g u v attr a b :
  adjacent (add_edge g u v attr) a b ↔ adjacent g a b ∨ same_edge (u, v) (a, b).
Proof.
  rewrite !adjacent_has_edge, !has_edge_true, add_edge_keys.
  destruct (has_edge g u v) eqn:He.
  - split; [by left|]. intros [?|Hs]; [done|].
    apply has_edge_true in He. rewrite Exists_exists in *.
    destruct He as (k & Hk & Hku). exists k. split; [done|].
    by eapply same_edge_trans.
  - rewrite Exists_app, Exists_cons, Exists_nil. tauto.
Qed.

Lemma add_edges_spec (l : list (node * node * EdgeAttrs)) acc :
  let r := foldl (λ acc e, add_edge acc e.1.1 e.1.2 e.2) acc l in
  (∀ m, m ∈ node_keys acc → m ∈ node_keys r)
  ∧ (∀ a b, adjacent r a b ↔ adjacent acc a b ∨ ∃ e, e ∈ l ∧ same_edge e.1 (a, b)).
Proof.
  revert acc. induction l as [|e l IH]; intros acc; cbn [foldl].
  - split; [done|]. intros a b. split; [by left|].
    by intros [?|(e & ?%elem_of_nil & _)].
  - destruct (IH (add_edge acc e.1.1 e.1.2 e.2)) as [Hn Ha]. split.
    + intros m Hm. apply Hn, add_edge_node_keys. by left.
    + intros a b. rewrite Ha, add_edge_adjacent. setoid_rewrite elem_of_cons.
      destruct e as [[u v] x]. naive_solver.
Qed.

Lemma adjacency_keys g n : (adjacency g n).*1 = (λ v, (n, v)) <$> neighbors g n.
Proof.
  unfold adjacency, neighbors. induction (edges g) as [|e l IH]; [done|]. csimpl.
  destruct (other_end n e); csimpl; by rewrite IH.
Qed.

Lemma copy_of_node_keys g m : m ∈ node_keys g → m ∈ node_keys (copy_of g).
Proof. intros Hm. by apply add_edges_spec. Qed.

Lemma copy_of_adjacent_1 g a b : adjacent (copy_of g) a b → adjacent g a b.
Proof.
  intros [Hnone|(e & (n & He & Hn)%list_elem_of_bind & Hs)]%add_edges_spec.
  { by apply elem_of_nil in Hnone. }
  assert (e.1 ∈ (adjacency g n).*1) as Hk by (by apply list_elem_of_fmap_2).
  rewrite adjacency_keys in Hk. apply list_elem_of_fmap in Hk as (v & Hev & Hv).
  rewrite Hev in Hs. destruct Hs as [[??]|[??]]; simplify_eq/=; [done|].
  by apply adjacent_sym.
Qed.

Lemma copy_of_adjacent_2 g a b :
  closed_graph g → adjacent g a b → adjacent (copy_of g) a b.
Proof.
  intros Hcl Hab. destruct (adjacent_closed g a b Hcl Hab) as [Ha _].
  apply add_edges_spec. right.
  assert ((a, b) ∈ (adjacency g a).*1) as Hk.
  { rewrite adjacency_keys. by apply (list_elem_of_fmap_2 (λ v, (a, v))). }
  apply list_elem_of_fmap in Hk as (e & He & Hin). exists e. split.
  - apply list_elem_of_bind. by exists a.
  - rewrite <-He. by left.
Qed.

(** ** hyphal_growth_pathfinding: the store *)

Lemma remove_edge_spec g u v g' :
  remove_edge g u v = Some g' →
  nodes g' = nodes g ∧ ∀ e, e ∈ edge_keys g' → e ∈ edge_keys g.
Proof.
  unfold remove_edge. destruct (has_edge g u v); [|done]. intros [= <-].
  split; [done|]. intros e (ka & -> & [_ ?]%list_elem_of_filter)%list_elem_of_fmap.
  by apply list_elem_of_fmap_2.
Qed.

Lemma store_lookup_last (σ : Store) (t : Graph) : (σ ++ [t]) !! length σ = Some t.
Proof. by rewrite lookup_app_r, Nat.sub_diag. Qed.

Lemma store_insert_last (σ : Store) (t t' : Graph) : <[length σ := t']> (σ ++ [t]) = σ ++ [t'].
Proof. by rewrite insert_app_r_alt, Nat.sub_diag. Qed.

Lemma perturb_path_cons (σ : Store) temp u v rest rng :
  perturb_path σ temp (u :: v :: rest) rng
  = t ← σ !! temp;
    if has_edge t u v then
      let '(x, rng1) := random rng in
      if Qgtb (3 # 10) x then
        t' ← remove_edge t u v;
        perturb_path (<[temp := t']> σ) temp (v :: rest) rng1
      else perturb_path σ temp (v :: rest) rng1
    else perturb_path σ temp (v :: rest) rng.
Proof. done. Qed.

Lemma perturb_path_store (σ : Store) t path rng :
  ∃ t' rng',
    perturb_path (σ ++ [t]) (length σ) path rng = Some (σ ++ [t'], rng')
    ∧ nodes t' = nodes t.
Proof.
  revert t rng. induction path as [|u path IH]; intros t rng; [by exists t, rng|].
  destruct path as [|v rest]; [by exists t, rng|].
  rewrite perturb_path_cons, store_lookup_last. cbn [mbind option_bind].
  destruct (has_edge t u v) eqn:He; [|apply IH].
  destruct (random rng) as [x rng1]. destruct (Qgtb (3 # 10) x).
  - destruct (remove_edge t u v) as [t1|] eqn:Ht1.
    + cbn [mbind option_bind]. rewrite store_insert_last.
      destruct (IH t1 rng1) as (t' & rng' & -> & Hn). exists t', rng'. split; [done|].
      apply remove_edge_spec in Ht1 as [Hn1 _]. congruence.
    + unfold remove_edge in Ht1. by rewrite He in Ht1.
  - apply IH.
Qed.

Lemma perturb_paths_store (σ : Store) t paths rng :
  ∃ t' rng',
    perturb_paths (σ ++ [t]) (length σ) paths rng = Some (σ ++ [t'], rng')
    ∧ nodes t' = nodes t.
Proof.
  revert t rng. induction paths as [|[label path] paths IH]; intros t rng;
    [by exists t, rng|].
  cbn [perturb_paths].
  destruct (perturb_path_store σ t path rng) as (t1 & rng1 & -> & Hn1).
  cbn [mbind option_bind].
  destruct (IH t1 rng1) as (t' & rng' & -> & Hn). exists t', rng'. split; [done|].
  congruence.
Qed.

Lemma alternative_trial_spec graph start target paths (σ : Store) rng g :
  σ !! graph = Some g → start ∈ node_keys g → target ∈ node_keys g →
  ∃ paths' t rng',
    alternative_trial graph start target (paths, σ, rng) = Some (paths', σ ++ [t], rng')
    ∧ (paths' = paths ∨ ∃ entry, paths' = paths ++ [entry]).
Proof.
  intros Hg Hs Ht. unfold alternative_trial, graph_copy. rewrite Hg.
  cbn [mbind option_bind].
  destruct (perturb_paths_store σ (copy_of g) paths rng) as (t & rng' & -> & Hn).
  cbn [mbind option_bind]. rewrite store_lookup_last. cbn [mbind option_bind].
  destruct (shortest_path t start target) as [alt| |] eqn:Hsp.
  - case_decide; eauto 10.
  - eauto 10.
  - apply shortest_path_not_found in Hsp. destruct Hsp.
    unfold node_keys. rewrite Hn. split; by apply copy_of_node_keys.
Qed.

Lemma hyphal_growth_pathfinding_spec (σ : Store) graph start target avoid_overused rng g :
  σ !! graph = Some g → start ∈ node_keys g → target ∈ node_keys g →
  ∃ paths copies rng',
    hyphal_growth_pathfinding σ graph start target avoid_overused rng
    = Some (paths, σ ++ copies, rng')
    ∧ match shortest_path g start target with
      | Path primary =>
          ∃ alternatives,
            paths = ("primary", primary) :: alternatives ∧ length alternatives ≤ 3
      | NetworkXNoPath => paths = []
      | NodeNotFound => False
      end.
Proof.
  intros Hg Hs Ht. unfold hyphal_growth_pathfinding. rewrite Hg.
  cbn [mbind option_bind].
  destruct (shortest_path g start target) as [primary| |] eqn:Hsp.
  - destruct (alternative_trial_spec graph start target [("primary", primary)] σ rng g)
      as (paths1 & t1 & rng1 & -> & H1); [done..|].
    cbn [mbind option_bind].
    destruct (alternative_trial_spec graph start target paths1 (σ ++ [t1]) rng1 g)
      as (paths2 & t2 & rng2 & -> & H2); [by apply lookup_app_l_Some|done..|].
    cbn [mbind option_bind].
    destruct (alternative_trial_spec graph start target paths2 ((σ ++ [t1]) ++ [t2]) rng2 g)
      as (paths3 & t3 & rng3 & -> & H3); [by do 2 apply lookup_app_l_Some|done..|].
    exists paths3, [t1; t2; t3], rng3. split.
    { by rewrite <-!app_assoc. }
    destruct H1 as [->|[e1 ->]], H2 as [->|[e2 ->]], H3 as [->|[e3 ->]]; simpl;
      eexists; (split; [done|]); simpl; lia.
  - by exists [], [], rng; rewrite app_nil_r.
  - apply shortest_path_not_found in Hsp. by destruct Hsp.
Qed.

(** ** hyphal_growth_pathfinding: the theorems *)

(** C4: called on a graph of the store with two of its nodes, the function
    returns, and the caller's graph is the same value afterwards; so is
    every other graph that was in the store.  The graphs the function
    removes edges from are the copies it has allocated behind them. *)
Theorem pathfinding_leaves_graph_unchanged (σ : Store) (graph : nat) (g : Graph)
    (start target : node) (avoid_overused : bool) (rng : Rng) :
  σ !! graph = Some g → start ∈ node_keys g → target ∈ node_keys g →
  ∃ paths σ' rng',
    hyphal_growth_pathfinding σ graph start target avoid_overused rng
    = Some (paths, σ', rng')
    ∧ σ' !! graph = Some g
    ∧ σ `prefix_of` σ'.
Proof.
  intros Hg Hs Ht.
  destruct (hyphal_growth_pathfinding_spec σ graph start target avoid_overused rng g)
    as (paths & copies & rng' & Hrun & _); [done..|].
  exists paths, (σ ++ copies), rng'. split_and!; [done| |].
  - by apply lookup_app_l_Some.
  - by apply prefix_app_r.
Qed.

Lemma pathfinding_leaves_graph_unchanged_witness :
  ∃ paths σ' rng',
    hyphal_growth_pathfinding [ring_graph] 0 "A" "C" true sample_rng
    = Some (paths, σ', rng')
    ∧ σ' !! 0 = Some ring_graph
    ∧ [ring_graph] `prefix_of` σ'.
Proof.
  apply (pathfinding_leaves_graph_unchanged [ring_graph] 0 ring_graph "A" "C" true sample_rng).
  - reflexivity.
  - apply (bool_decide_unpack _); vm_compute; exact I.
  - apply (bool_decide_unpack _); vm_compute; exact I.
Defined.

(** C5: on a graph networkx can hold and two of its nodes the function
    returns.  Without a walk between the two nodes the result is the empty
    list.  With one, the result has 1 to 4 entries and the first is
    labelled "primary" and is a walk from [start] to [target] that no other
    such walk undercuts in length. *)
Theorem pathfinding_primary_is_shortest (σ : Store) (graph : nat) (g : Graph)
    (start target : node) (avoid_overused : bool) (rng : Rng) :
  σ !! graph = Some g → wf_graph g → start ∈ node_keys g → target ∈ node_keys g →
  ∃ paths σ' rng',
    hyphal_growth_pathfinding σ graph start target avoid_overused rng
    = Some (paths, σ', rng')
    ∧ ((∀ q, ¬ path_between g start target q) → paths = [])
    ∧ ((∃ q, path_between g start target q) →
       1 ≤ length paths ≤ 4
       ∧ ∃ primary,
           head paths = Some ("primary", primary)
           ∧ path_between g start target primary
           ∧ ∀ q, path_between g start target q → length primary ≤ length q).
Proof.
  intros Hg [_ Hcl _] Hs Ht.
  destruct (hyphal_growth_pathfinding_spec σ graph start target avoid_overused rng g)
    as (paths & copies & rng' & Hrun & Hpaths); [done..|].
  exists paths, (σ ++ copies), rng'. split; [done|].
  destruct (shortest_path g start target) as [primary| |] eqn:Hsp; [| |done].
  - destruct Hpaths as (alts & -> & Hlen).
    destruct (shortest_path_found _ _ _ _ Hcl Hsp) as [Hp Hmin]. split.
    + intros Hno. by destruct (Hno primary).
    + intros _. simpl. split; [lia|]. by exists primary.
  - subst paths. split; [done|]. intros [q Hq].
    by destruct (shortest_path_none _ _ _ Hcl Hsp) as (_ & _ & []%(λ H, H q)).
Qed.

Lemma pathfinding_primary_is_shortest_witness :
  ∃ paths σ' rng',
    hyphal_growth_pathfinding [ring_graph] 0 "A" "C" true sample_rng
    = Some (paths, σ', rng')
    ∧ ((∀ q, ¬ path_between ring_graph "A" "C" q) → paths = [])
    ∧ ((∃ q, path_between ring_graph "A" "C" q) →
       1 ≤ length paths ≤ 4
       ∧ ∃ primary,
           head paths = Some ("primary", primary)
           ∧ path_between ring_graph "A" "C" primary
           ∧ ∀ q, path_between ring_graph "A" "C" q → length primary ≤ length q).
Proof.
  apply (pathfinding_primary_is_shortest [ring_graph] 0 ring_graph "A" "C" true sample_rng).
  - reflexivity.
  - apply (bool_decide_unpack _); vm_compute; exact I.
  - apply (bool_decide_unpack _); vm_compute; exact I.
  - apply (bool_decide_unpack _); vm_compute; exact I.
Defined.

(** ** self_healing_response: removing the damaged nodes *)

Local Open Scope Q_scope.

Arguments set_resources : simpl never.
Arguments remove_node : simpl never.

Lemma redistribute_spec g nbrs share :
  NoDup nbrs → (∀ m, m ∈ nbrs → m ∈ node_keys g) →
  ∃ g', redistribute g nbrs share = Some g'
    ∧ node_keys g' = node_keys g ∧ edges g' = edges g
    ∧ ∀ m, node_attrs g' m
           = if decide (m ∈ nbrs)
             then with_resources (resources_of g m + share) <$> node_attrs g m
             else node_attrs g m.
Proof.
  revert g. induction nbrs as [|n nbrs IH]; intros g Hnd Hin; simpl.
  - by exists g.
  - apply NoDup_cons in Hnd as [Hn Hnd].
    assert (n ∈ node_keys g) as Hng by (apply Hin; left).
    destruct (proj2 (node_attrs_is_Some g n) Hng) as [a Ha]. rewrite Ha. simpl.
    destruct (set_resources_is_Some g n (get_resources a + share) Hng) as [g1 Hg1].
    rewrite Hg1. simpl.
    pose proof (set_resources_resources_of _ _ _ _ Hg1) as Hr1.
    apply set_resources_spec in Hg1 as (_ & Hk1 & He1 & Hat1).
    destruct (IH g1 Hnd) as (g' & -> & Hk & He & Hat).
    { intros m Hm. rewrite Hk1. apply Hin. by right. }
    exists g'. split_and!; [done|congruence|congruence|].
    intros m. rewrite Hat, Hat1, Hr1. destruct (decide (m = n)) as [->|Hmn].
    + rewrite decide_False, decide_True by (done || left).
      by rewrite (resources_of_attrs _ _ _ Ha).
    + destruct (decide (m ∈ nbrs)).
      * by rewrite decide_True by (by right).
      * rewrite decide_False; [done|]. by intros [?|?]%elem_of_cons.
Qed.

Lemma lookup_node_filter n m l :
  lookup_node m (filter (λ ka : node * NodeAttrs, ka.1 ≠ n) l)
  = if decide (m = n) then None else lookup_node m l.
Proof.
  induction l as [|[k a] l IH]; [by case_decide|].
  rewrite filter_cons. simpl. destruct (decide (k ≠ n)) as [Hk|Hk]; simpl.
  - rewrite IH. repeat case_decide; subst; done.
  - rewrite IH. apply dec_stable in Hk. repeat case_decide; subst; done.
Qed.

Lemma edges_distinct_sublist l1 l2 : l1 `sublist_of` l2 → edges_distinct l2 → edges_distinct l1.
Proof.
  induction 1 as [|e l1 l2 Hsub IH|e l1 l2 Hsub IH]; simpl; [done| |].
  - intros [Hf Hl]. split; [|by auto]. rewrite Forall_forall in Hf |- *.
    intros e' He'. apply Hf. by eapply elem_of_sublist.
  - intros [_ Hl]. auto.
Qed.

Lemma remove_node_spec g n :
  n ∈ node_keys g →
  ∃ g', remove_node g n = Some g'
    ∧ nodes g' = filter (λ ka, ka.1 ≠ n) (nodes g)
    ∧ edges g' = filter (λ ka, ka.1.1 ≠ n ∧ ka.1.2 ≠ n) (edges g)
    ∧ (∀ m, m ∈ node_keys g' ↔ m ∈ node_keys g ∧ m ≠ n)
    ∧ (∀ m, node_attrs g' m = if decide (m = n) then None else node_attrs g m)
    ∧ (wf_graph g → wf_graph g').
Proof.
  intros Hn. unfold remove_node. rewrite (proj2 (has_node_true g n) Hn).
  eexists. split; [done|]. simpl.
  assert (∀ m, m ∈ (filter (λ ka : node * NodeAttrs, ka.1 ≠ n) (nodes g)).*1
               ↔ m ∈ node_keys g ∧ m ≠ n) as Hkeys.
  { intros m. unfold node_keys. rewrite !list_elem_of_fmap.
    setoid_rewrite list_elem_of_filter. naive_solver. }
  split; [done|]. split; [done|]. split; [exact Hkeys|].
  split; [intros m; apply lookup_node_filter|].
  intros [Hnd Hcl Hed]. constructor.
  - unfold node_keys. simpl. eapply sublist_NoDup; [exact Hnd|].
    apply fmap_sublist, sublist_filter.
  - unfold closed_graph, edge_keys, node_keys in *. simpl. apply Forall_forall.
    intros e (ka & -> & [[??] Hin]%list_elem_of_filter)%list_elem_of_fmap.
    rewrite !Hkeys. rewrite Forall_forall in Hcl.
    destruct (Hcl ka.1) as [??]; [by apply list_elem_of_fmap_2|done].
  - unfold edge_keys. simpl. eapply edges_distinct_sublist; [|exact Hed].
    apply fmap_sublist, sublist_filter.
Qed.

Lemma heal_node_absent g n : n ∉ node_keys g → heal_node g n = Some (g, []).
Proof.
  intros Hn. unfold heal_node.
  destruct (has_node g n) eqn:Hh; [|done]. by apply has_node_true in Hh.
Qed.

Lemma heal_node_present g n :
  wf_graph g → n ∈ node_keys g →
  ∃ g', heal_node g n = Some (g', [RemovedDamaged n (resources_of g n)])
    ∧ wf_graph g'
    ∧ (∀ m, m ∈ node_keys g' ↔ m ∈ node_keys g ∧ m ≠ n)
    ∧ edges g' = filter (λ ka, ka.1.1 ≠ n ∧ ka.1.2 ≠ n) (edges g)
    ∧ ∀ m, m ≠ n →
        node_attrs g' m
        = if decide (m ∈ neighbors g n)
          then with_resources
                 (resources_of g m
                  + resources_of g n / inject_Z (Z.of_nat (length (neighbors g n))))
               <$> node_attrs g m
          else node_attrs g m.
Proof.
  intros Hwf Hn. unfold heal_node. rewrite (proj2 (has_node_true g n) Hn).
  destruct (proj2 (node_attrs_is_Some g n) Hn) as [a Ha]. rewrite Ha. simpl.
  rewrite (resources_of_attrs _ _ _ Ha).
  destruct (redistribute_spec g (neighbors g n)
              (resources_of g n / inject_Z (Z.of_nat (length (neighbors g n)))))
    as (g1 & Hg1 & Hk1 & He1 & Hat1).
  { apply neighbors_NoDup, Hwf. }
  { intros m Hm. by destruct (adjacent_closed g n m (wf_closed g Hwf) Hm). }
  assert (∃ g1', (if bool_decide (neighbors g n ≠ [])
                  then redistribute g (neighbors g n)
                         (resources_of g n / inject_Z (Z.of_nat (length (neighbors g n))))
                  else Some g) = Some g1'
                 ∧ node_keys g1' = node_keys g ∧ edges g1' = edges g
                 ∧ ∀ m, node_attrs g1' m
                        = if decide (m ∈ neighbors g n)
                          then with_resources
                                 (resources_of g m
                                  + resources_of g n
                                    / inject_Z (Z.of_nat (length (neighbors g n))))
                               <$> node_attrs g m
                          else node_attrs g m) as (g1' & -> & Hk1' & He1' & Hat1').
  { case_bool_decide as Hne; [by exists g1|]. exists g. split_and!; [done..|].
    rewrite Hne. intros m.
    case_decide as Hm; [by apply elem_of_nil in Hm|done]. }
  simpl. destruct (remove_node_spec g1' n) as (g' & -> & Hn' & He' & Hk' & Hat' & Hwf');
    [by rewrite Hk1'|].
  exists g'. simpl. split_and!; [done| | | |].
  - apply Hwf'. by apply (wf_graph_shape g); [|unfold edge_keys; rewrite He1'|].
  - intros m. by rewrite Hk', Hk1'.
  - by rewrite He', He1'.
  - intros m Hm. by rewrite Hat', decide_False, Hat1'.
Qed.

Lemma remove_damaged_cons g n rest :
  remove_damaged g (n :: rest)
  = '(g1, acts1) ← heal_node g n;
    '(g2, acts2) ← remove_damaged g1 rest;
    Some (g2, acts1 ++ acts2).
Proof. done. Qed.

Lemma total_resources_filter_absent n (l : list (node * NodeAttrs)) :
  n ∉ l.*1 → filter (λ ka, ka.1 ≠ n) l = l.
Proof.
  induction l as [|[k a] l IH]; [done|]. csimpl. intros [??]%not_elem_of_cons.
  rewrite filter_cons_True by (simpl; congruence). by rewrite IH.
Qed.

Lemma total_resources_filter n (l : list (node * NodeAttrs)) :
  NoDup l.*1 → n ∈ l.*1 →
  foldr (λ ka acc, get_resources ka.2 + acc) 0 (filter (λ ka, ka.1 ≠ n) l)
  == foldr (λ ka acc, get_resources ka.2 + acc) 0 l
     - from_option get_resources 0 (lookup_node n l).
Proof.
  induction l as [|[k a] l IH]; csimpl; [by intros _ ?%elem_of_nil|].
  intros [Hk Hnd]%NoDup_cons Hin. destruct (decide (k = n)) as [->|Hkn].
  - rewrite filter_cons_False by (simpl; auto).
    rewrite total_resources_filter_absent by done. simpl. lra.
  - rewrite filter_cons_True by done. simpl. rewrite IH; [lra|done|].
    apply elem_of_cons in Hin as [?|?]; [congruence|done].
Qed.

Lemma remove_damaged_total g damaged_nodes :
  wf_graph g →
  ∃ g1 acts, remove_damaged g damaged_nodes = Some (g1, acts) ∧ wf_graph g1.
Proof.
  revert g. induction damaged_nodes as [|n rest IH]; intros g Hwf; [by exists g, []|].
  rewrite remove_damaged_cons. destruct (decide (n ∈ node_keys g)) as [Hn|Hn].
  - destruct (heal_node_present g n Hwf Hn) as (g1 & -> & Hwf1 & _).
    destruct (IH g1 Hwf1) as (g2 & acts2 & Hg2 & Hwf2). simpl. rewrite Hg2. simpl.
    by eexists _, _.
  - rewrite (heal_node_absent g n Hn).
    destruct (IH g Hwf) as (g2 & acts2 & Hg2 & Hwf2). simpl. rewrite Hg2. simpl.
    by eexists _, _.
Qed.

(** ** self_healing_response: the components *)

Local Close Scope Q_scope.

Lemma connected_sym g u v : rtc (adjacent g) u v → rtc (adjacent g) v u.
Proof.
  induction 1 as [|u w v Huw _ IH]; [done|].
  eapply rtc_r; [done|]. by apply adjacent_sym.
Qed.

Lemma components_from_seen g vs seen :
  (∀ v, v ∈ vs → v ∈ seen) → components_from g vs seen = [].
Proof.
  induction vs as [|v vs IH]; intros Hall; simpl; [done|].
  rewrite decide_True by (apply Hall; left). apply IH. intros w Hw. apply Hall. by right.
Qed.

Lemma components_from_spec g vs seen :
  closed_graph g → (∀ v, v ∈ vs → v ∈ node_keys g) →
  (∀ x y, x ∈ seen → rtc (adjacent g) x y → y ∈ seen) →
  (∀ c, c ∈ components_from g vs seen → ∃ v, v ∈ vs ∧ c = plain_bfs g v)
  ∧ (∀ v, v ∈ vs → v ∈ seen ∨ ∃ c, c ∈ components_from g vs seen ∧ v ∈ c)
  ∧ (∀ c a, c ∈ components_from g vs seen → a ∈ c → a ∉ seen)
  ∧ separated g (components_from g vs seen).
Proof.
  intros Hcl. revert seen. induction vs as [|v vs IH]; intros seen Hvs Hsat; simpl.
  - split_and!; [by intros ? ?%elem_of_nil|by intros ? ?%elem_of_nil
                |by intros ?? ?%elem_of_nil|done].
  - assert (∀ w, w ∈ vs → w ∈ node_keys g) as Hvs' by (intros w ?; apply Hvs; by right).
    case_decide as Hv.
    + destruct (IH seen Hvs' Hsat) as (H1 & H2 & H3 & H4). split_and!; [|  |done|done].
      * intros c (w & ? & ?)%H1. exists w. split; [by right|done].
      * intros w [->|Hw]%elem_of_cons; [by left|auto].
    + assert (v ∈ node_keys g) as Hvg by (apply Hvs; left).
      pose proof (plain_bfs_reachable g v) as Hreach.
      destruct (IH (plain_bfs g v ++ seen) Hvs') as (H1 & H2 & H3 & H4).
      { intros x y [Hx|Hx]%elem_of_app Hxy; apply elem_of_app.
        - left. apply Hreach; [done..|]. apply Hreach in Hx; [|done..]. by etrans.
        - right. by eapply Hsat. }
      split_and!.
      * intros c [->|(w & ? & ?)%H1]%elem_of_cons; [exists v; split; [left|done]|].
        exists w. split; [by right|done].
      * intros w [->|Hw]%elem_of_cons.
        { right. exists (plain_bfs g v). split; [left|]. by apply Hreach. }
        destruct (H2 w Hw) as [[?|?]%elem_of_app|(c & ? & ?)].
        -- right. exists (plain_bfs g v). split; [left|done].
        -- by left.
        -- right. exists c. split; [by right|done].
      * intros c a [->|Hc]%elem_of_cons Ha Hin.
        -- apply Hv. apply (Hsat a v Hin). apply connected_sym. by apply Hreach.
        -- apply (H3 c a Hc Ha). apply elem_of_app. by right.
      * split; [|done]. intros a b c' Ha Hc' Hb Hab.
        apply (H3 c' b Hc' Hb). apply elem_of_app. left.
        apply Hreach; [done..|]. apply Hreach in Ha; [|done..]. by etrans.
Qed.

Lemma connected_components_spec g :
  closed_graph g →
  (∀ c, c ∈ connected_components g →
        c ≠ [] ∧ (∀ a, a ∈ c → a ∈ node_keys g)
        ∧ ∀ a b, a ∈ c → b ∈ c → rtc (adjacent g) a b)
  ∧ (∀ v, v ∈ node_keys g → ∃ c, c ∈ connected_components g ∧ v ∈ c)
  ∧ separated g (connected_components g).
Proof.
  intros Hcl. unfold connected_components.
  destruct (components_from_spec g (node_keys g) [] Hcl) as (H1 & H2 & _ & H4);
    [done|by intros ?? ?%elem_of_nil|].
  split_and!; [|  |done].
  - intros c (v & Hv & ->)%H1.
    assert (∀ w, w ∈ plain_bfs g v ↔ rtc (adjacent g) v w) as Hreach
      by (intros w; by apply plain_bfs_reachable).
    split_and!.
    + intros Hnil. assert (v ∈ plain_bfs g v) as Hin by (by apply Hreach).
      rewrite Hnil in Hin. by apply elem_of_nil in Hin.
    + intros a Ha%Hreach. apply rtc_nsteps_1 in Ha as [j Hj].
      by eapply nsteps_in_graph.
    + intros a b Ha%Hreach Hb%Hreach. etrans; [|done]. by apply connected_sym.
  - intros v Hv. destruct (H2 v Hv) as [?%elem_of_nil|?]; done.
Qed.

Lemma separated_apart g cs : separated g cs → apart g cs.
Proof.
  induction cs as [|c cs IH]; simpl; [done|]. intros [H1 H2]. split; [|by auto].
  intros a b c' Ha Hc' Hb. split.
  - intros ->. by apply (H1 b b c').
  - intros Hab. apply (H1 a b c'); [done..|]. by apply rtc_once.
Qed.

Lemma connected_one_component g :
  closed_graph g → connected_graph g → node_keys g ≠ [] →
  length (connected_components g) = 1.
Proof.
  intros Hcl Hconn Hne. unfold connected_components.
  destruct (node_keys g) as [|v vs] eqn:Hk; [done|]. simpl.
  rewrite components_from_seen; [done|].
  intros w Hw. apply elem_of_app. left.
  assert (v ∈ node_keys g) as Hv by (rewrite Hk; left).
  apply plain_bfs_reachable; [done..|]. apply Hconn; [done|]. rewrite Hk. by right.
Qed.

(** ** self_healing_response: the healing connections *)

Lemma choice_spec seq rng :
  seq ≠ [] → ∃ x, choice seq rng = Some (x, advance rng) ∧ x ∈ seq.
Proof.
  intros Hne. unfold choice.
  destruct (lookup_lt_is_Some_2 seq (index_draw rng (position rng) `mod` length seq))
    as [x Hx].
  { apply Nat.mod_upper_bound. by destruct seq. }
  exists x. rewrite Hx. split; [done|]. by eapply list_elem_of_lookup_2.
Qed.

Lemma add_edge_new g u v attr :
  u ∈ node_keys g → v ∈ node_keys g → ¬ adjacent g u v →
  add_edge g u v attr
  = mkGraph (nodes g)
      (edges g ++ [(u, v, update_edge_attrs attr (mkEdgeAttrs None None None None None))]).
Proof.
  intros Hu Hv Hadj. unfold add_edge, ensure_node.
  rewrite (decide_True (P := u ∈ (nodes g).*1)) by done.
  rewrite (decide_True (P := v ∈ (nodes g).*1)) by done.
  destruct (has_edge g u v) eqn:He; [|done]. by apply adjacent_has_edge in He.
Qed.

Lemma adjacent_more_edges g g' extra a b :
  edges g' = edges g ++ extra →
  adjacent g' a b ↔ adjacent g a b ∨ ∃ ka, ka ∈ extra ∧ same_edge ka.1 (a, b).
Proof.
  intros He. unfold adjacent. rewrite !elem_of_neighbors, He.
  setoid_rewrite elem_of_app. naive_solver.
Qed.

Lemma apart_add_edge g g' n1 n2 x cs :
  edges g' = edges g ++ [(n1, n2, x)] →
  (∀ c, c ∈ cs → n1 ∉ c) → apart g cs → apart g' cs.
Proof.
  intros He. induction cs as [|c cs IH]; simpl; [done|].
  intros Hn1 [H1 H2]. split.
  - intros a b c' Ha Hc' Hb. destruct (H1 a b c' Ha Hc' Hb) as [Hne Hadj].
    split; [done|]. rewrite (adjacent_more_edges g g' _ a b He).
    intros [?|(ka & ->%list_elem_of_singleton & Hs)]; [done|].
    destruct Hs as [[Hs1 Hs2]|[Hs1 Hs2]]; simpl in Hs1, Hs2; subst.
    + by apply (Hn1 c (list_elem_of_here _ _)).
    + by apply (Hn1 c' (list_elem_of_further _ _ _ Hc')).
  - apply IH; [|done]. intros c' Hc'. apply Hn1. by right.
Qed.

Lemma connect_components_cons g c1 c2 rest hf rng :
  connect_components g (c1 :: c2 :: rest) hf rng
  = '(node1, rng1) ← choice c1 rng;
    '(node2, rng2) ← choice c2 rng1;
    '(g', acts, rng') ←
      connect_components (add_edge g node1 node2 (healing_attrs hf)) (c2 :: rest) hf rng2;
    Some (g', HealingConnection node1 node2 :: acts, rng').
Proof. done. Qed.

Lemma connect_components_spec g comps hf rng :
  (∀ c, c ∈ comps → c ≠ [] ∧ ∀ a, a ∈ c → a ∈ node_keys g) → apart g comps →
  ∃ links g' rng',
    connect_components g comps hf rng
    = Some (g', (λ l, HealingConnection l.1 l.2) <$> links, rng')
    ∧ nodes g' = nodes g
    ∧ edges g' = edges g ++ ((λ l, (l.1, l.2, healing_attrs hf)) <$> links)
    ∧ length links = length comps - 1
    ∧ ∀ i l, links !! i = Some l →
        ∃ c1 c2, comps !! i = Some c1 ∧ comps !! S i = Some c2
                 ∧ l.1 ∈ c1 ∧ l.2 ∈ c2 ∧ ¬ adjacent g l.1 l.2.
Proof.
  revert g rng. induction comps as [|c1 comps IH]; intros g rng Hin Hap.
  { exists [], g, rng. split_and!; [done|done|by rewrite app_nil_r|done|done]. }
  destruct comps as [|c2 rest].
  { exists [], g, rng. split_and!; [done|done|by rewrite app_nil_r|done|done]. }
  rewrite connect_components_cons.
  destruct (Hin c1) as [Hne1 Hc1]; [left|].
  destruct (Hin c2) as [Hne2 Hc2]; [right; left|].
  destruct (choice_spec c1 rng Hne1) as (n1 & -> & Hn1).
  destruct (choice_spec c2 (advance rng) Hne2) as (n2 & Hch2 & Hn2).
  cbn [mbind option_bind]. rewrite Hch2. cbn [mbind option_bind].
  destruct Hap as [Hap1 Hap2].
  destruct (Hap1 n1 n2 c2 Hn1 (list_elem_of_here _ _) Hn2) as [Hne Hnadj].
  rewrite (add_edge_new g n1 n2 _ (Hc1 n1 Hn1) (Hc2 n2 Hn2) Hnadj).
  change (update_edge_attrs (healing_attrs hf) (mkEdgeAttrs None None None None None))
    with (healing_attrs hf).
  set (g1 := mkGraph (nodes g) (edges g ++ [(n1, n2, healing_attrs hf)])).
  destruct (IH g1 (advance (advance rng))) as (links & g' & rng' & -> & Hn' & He' & Hlen & Hl).
  { intros c Hc. destruct (Hin c) as [? ?]; [by right|]. done. }
  { apply (apart_add_edge g g1 n1 n2 (healing_attrs hf)); [done| |done].
    intros c Hc Hn1c. by destruct (Hap1 n1 n1 c Hn1 Hc Hn1c). }
  cbn [mbind option_bind].
  exists ((n1, n2) :: links), g', rng'. split_and!; [done|done| | |].
  - rewrite He'. simpl. by rewrite <-app_assoc.
  - simpl in *. lia.
  - intros [|i] l; simpl.
    + intros [= <-]. by exists c1, c2.
    + intros (ca & cb & ? & ? & ? & ? & Hnadj')%Hl. exists ca, cb. split_and!; [done..|].
      intros Hadj. apply Hnadj'. apply (adjacent_more_edges g g1 [(n1, n2, healing_attrs hf)]);
        [done|]. by left.
Qed.

Lemma chain_connected g' comps links x y c :
  (∀ c a b, c ∈ comps → a ∈ c → b ∈ c → rtc (adjacent g') a b) →
  (∀ i l, links !! i = Some l →
     ∃ c1 c2, comps !! i = Some c1 ∧ comps !! S i = Some c2
              ∧ l.1 ∈ c1 ∧ l.2 ∈ c2 ∧ adjacent g' l.1 l.2) →
  length links = length comps - 1 →
  head comps ≫= head = Some x → c ∈ comps → y ∈ c →
  rtc (adjacent g') x y.
Proof.
  revert links x. induction comps as [|c1 comps IH]; intros links x Hint Hl Hlen Hx Hc Hy;
    [done|].
  simpl in Hx. assert (x ∈ c1) as Hx1 by (destruct c1; simplify_eq/=; left).
  apply elem_of_cons in Hc as [->|Hc].
  { apply (Hint c1); [left|done..]. }
  destruct comps as [|c2 rest]; [by apply elem_of_nil in Hc|].
  destruct links as [|l links]; [done|].
  destruct (Hl 0 l) as (ca & cb & [= <-] & [= <-] & Hl1 & Hl2 & Hadj); [done|].
  etrans; [apply (Hint c1 x l.1); [left|done..]|].
  eapply rtc_l; [done|].
  destruct c2 as [|z c2]; [by apply elem_of_nil in Hl2|].
  etrans; [apply (Hint (z :: c2) l.2 z); [right; left|done|left]|].
  apply (IH links z); [| |simpl in *; lia|done|done|done].
  - intros c' a b Hc'. apply Hint. by right.
  - intros i l' Hi. apply (Hl (S i) l' Hi).
Qed.

Lemma healed_connected g1 g' links hf :
  closed_graph g1 →
  nodes g' = nodes g1 →
  edges g' = edges g1 ++ ((λ l, (l.1, l.2, healing_attrs hf)) <$> links) →
  length links = length (connected_components g1) - 1 →
  (∀ i l, links !! i = Some l →
     ∃ c1 c2, connected_components g1 !! i = Some c1
              ∧ connected_components g1 !! S i = Some c2
              ∧ l.1 ∈ c1 ∧ l.2 ∈ c2 ∧ ¬ adjacent g1 l.1 l.2) →
  closed_graph g' ∧ connected_graph g'.
Proof.
  intros Hcl Hn He Hlen Hl.
  destruct (connected_components_spec g1 Hcl) as (Hcomp & Hcover & _).
  assert (node_keys g' = node_keys g1) as Hk by (unfold node_keys; by rewrite Hn).
  assert (∀ i l, links !! i = Some l → adjacent g' l.1 l.2) as Hlinks.
  { intros i l Hi. apply (adjacent_more_edges g1 g' _ _ _ He). right.
    exists (l.1, l.2, healing_attrs hf). split; [|by left].
    apply list_elem_of_fmap. exists l. split; [done|]. by eapply list_elem_of_lookup_2. }
  split.
  - unfold closed_graph, edge_keys. rewrite He, fmap_app, Forall_app, Hk. split; [done|].
    apply Forall_forall. intros e (ka & -> & (l & -> & Hin)%list_elem_of_fmap)%list_elem_of_fmap.
    apply list_elem_of_lookup_1 in Hin as [i Hi].
    destruct (Hl i l Hi) as (c1 & c2 & Hc1%list_elem_of_lookup_2 & Hc2%list_elem_of_lookup_2
                             & ? & ? & _).
    simpl. split; [by apply (Hcomp c1)|by apply (Hcomp c2)].
  - intros u v. rewrite !Hk. intros (cu & Hcu & Hu)%Hcover (cv & Hcv & Hv)%Hcover.
    destruct (connected_components g1) as [|c0 comps] eqn:Hcs; [by apply elem_of_nil in Hcu|].
    destruct (Hcomp c0) as (Hne0 & _); [left|].
    destruct c0 as [|x0 c0]; [done|].
    assert (∀ c y, c ∈ (x0 :: c0) :: comps → y ∈ c → rtc (adjacent g') x0 y) as Hfrom.
    { intros c y Hc Hy. apply (chain_connected g' ((x0 :: c0) :: comps) links x0 y c);
        [|  |done|done|done|done].
      - intros c' a b Hc' Ha Hb. destruct (Hcomp c' Hc') as (_ & _ & Hint).
        eapply rtc_subrel; [|by apply Hint].
        intros a' b' Hab. apply (adjacent_more_edges g1 g' _ _ _ He). by left.
      - intros i l Hi. destruct (Hl i l Hi) as (c1 & c2 & ? & ? & ? & ? & _).
        exists c1, c2. split_and!; [done..|]. by eapply Hlinks. }
    etrans; [|by apply (Hfrom cv)].
    assert (∀ a b, rtc (adjacent g') a b → rtc (adjacent g') b a) as Hsym
      by apply connected_sym.
    apply Hsym. by apply (Hfrom cu).
Qed.

(** ** self_healing_response: the whole call *)

Local Open Scope Q_scope.

Lemma removed_nodes_app acts1 acts2 :
  removed_nodes (acts1 ++ acts2) = removed_nodes acts1 ++ removed_nodes acts2.
Proof. unfold removed_nodes. apply omap_app. Qed.

Lemma removed_nodes_healing (links : list (node * node)) :
  removed_nodes ((λ l, HealingConnection l.1 l.2) <$> links) = [].
Proof. induction links as [|l links IH]; [done|]. by csimpl. Qed.

Lemma remove_damaged_survivors g damaged_nodes :
  wf_graph g →
  ∃ g1 acts,
    remove_damaged g damaged_nodes = Some (g1, acts)
    ∧ wf_graph g1
    ∧ (∀ m, m ∈ node_keys g1 ↔ m ∈ node_keys g ∧ m ∉ damaged_nodes)
    ∧ (∀ ka, ka ∈ edges g1
             ↔ ka ∈ edges g ∧ (ka.1.1 ∉ damaged_nodes) ∧ (ka.1.2 ∉ damaged_nodes))
    ∧ length (removed_nodes acts) = length acts
    ∧ NoDup (removed_nodes acts)
    ∧ (∀ m, m ∈ removed_nodes acts ↔ m ∈ damaged_nodes ∧ m ∈ node_keys g).
Proof.
  revert g. induction damaged_nodes as [|n rest IH]; intros g Hwf.
  { exists g, []. split_and!; [done|done| | |done|constructor|].
    - intros m. rewrite elem_of_nil. tauto.
    - intros ka. rewrite !elem_of_nil. tauto.
    - intros m. rewrite !elem_of_nil. tauto. }
  rewrite remove_damaged_cons. destruct (decide (n ∈ node_keys g)) as [Hn|Hn].
  - destruct (heal_node_present g n Hwf Hn) as (g1 & -> & Hwf1 & Hk1 & He1 & _).
    cbn [mbind option_bind].
    destruct (IH g1 Hwf1) as (g2 & acts2 & -> & Hwf2 & Hk2 & He2 & Hlen & Hnd & Hrm).
    cbn [mbind option_bind]. eexists _, _. split; [done|].
    split_and!; [done| | |by csimpl; rewrite Hlen| |].
    + intros m. rewrite Hk2, Hk1, not_elem_of_cons. tauto.
    + intros ka. rewrite He2, He1, list_elem_of_filter, !not_elem_of_cons. tauto.
    + csimpl. constructor; [|done]. rewrite Hrm, Hk1. tauto.
    + intros m. csimpl. rewrite !elem_of_cons, Hrm, Hk1.
      destruct (decide (m = n)) as [->|]; tauto.
  - rewrite (heal_node_absent g n Hn). cbn [mbind option_bind].
    destruct (IH g Hwf) as (g2 & acts2 & -> & Hwf2 & Hk2 & He2 & Hlen & Hnd & Hrm).
    cbn [mbind option_bind]. eexists _, _. split; [done|].
    split_and!; [done| | |done|done|].
    + intros m. rewrite Hk2, not_elem_of_cons.
      destruct (decide (m = n)) as [->|]; tauto.
    + intros ka. rewrite He2, !not_elem_of_cons. split; [|tauto].
      intros (Hin & ? & ?). split_and!; [done| |done| |done]; intros Heq.
      * pose proof (wf_closed g Hwf) as Hcl. unfold closed_graph in Hcl.
        rewrite Forall_forall in Hcl.
        destruct (Hcl ka.1 (list_elem_of_fmap_2 fst _ _ Hin)) as [? _]. congruence.
      * pose proof (wf_closed g Hwf) as Hcl. unfold closed_graph in Hcl.
        rewrite Forall_forall in Hcl.
        destruct (Hcl ka.1 (list_elem_of_fmap_2 fst _ _ Hin)) as [_ ?]. congruence.
    + intros m. simpl. rewrite Hrm, elem_of_cons.
      destruct (decide (m = n)) as [->|]; tauto.
Qed.

Lemma add_edge_new_wf g u v a :
  wf_graph g → u ∈ node_keys g → v ∈ node_keys g → ¬ adjacent g u v →
  wf_graph (mkGraph (nodes g) (edges g ++ [(u, v, a)])).
Proof.
  intros [Hnd Hcl Hed] Hu Hv Hadj. constructor.
  - done.
  - unfold closed_graph, edge_keys in *. simpl. rewrite fmap_app, Forall_app.
    split; [done|]. by repeat constructor.
  - unfold edge_keys in *. simpl. rewrite fmap_app. apply edges_distinct_app.
    split_and!; [done|by csimpl| ].
    intros e1 e2 He1 ->%list_elem_of_singleton Hse. apply Hadj.
    apply adjacent_has_edge, has_edge_true, Exists_exists. by exists e1.
Qed.

Lemma connect_components_wf g comps hf rng g' acts rng' :
  wf_graph g →
  (∀ c, c ∈ comps → c ≠ [] ∧ ∀ a, a ∈ c → a ∈ node_keys g) → apart g comps →
  connect_components g comps hf rng = Some (g', acts, rng') → wf_graph g'.
Proof.
  revert g rng g' acts rng'.
  induction comps as [|c1 comps IH]; intros g rng g' acts rng' Hwf Hin Hap.
  { by intros [= <- <- <-]. }
  destruct comps as [|c2 rest]; [by intros [= <- <- <-]|].
  rewrite connect_components_cons.
  destruct (Hin c1) as [Hne1 Hc1]; [left|].
  destruct (Hin c2) as [Hne2 Hc2]; [right; left|].
  destruct (choice_spec c1 rng Hne1) as (n1 & -> & Hn1).
  destruct (choice_spec c2 (advance rng) Hne2) as (n2 & Hch2 & Hn2).
  cbn [mbind option_bind]. rewrite Hch2. cbn [mbind option_bind].
  destruct Hap as [Hap1 Hap2].
  destruct (Hap1 n1 n2 c2 Hn1 (list_elem_of_here _ _) Hn2) as [Hne Hnadj].
  rewrite (add_edge_new g n1 n2 _ (Hc1 n1 Hn1) (Hc2 n2 Hn2) Hnadj).
  destruct (connect_components _ (c2 :: rest) hf _) as [[[g2 acts2] rng2]|] eqn:Hrec;
    [|done].
  cbn [mbind option_bind]. intros [= <- <- <-].
  eapply IH; [| | |exact Hrec].
  - by apply add_edge_new_wf; [|apply Hc1|apply Hc2|].
  - intros c Hc. destruct (Hin c) as [? ?]; [by right|]. done.
  - eapply (apart_add_edge g _ n1 n2); [done| |done].
    intros c Hc Hn1c. by destruct (Hap1 n1 n1 c Hn1 Hc Hn1c).
Qed.

Lemma self_healing_response_run g damaged_nodes hf rng :
  wf_graph g →
  ∃ g1 acts1 links g' rng',
    remove_damaged g damaged_nodes = Some (g1, acts1)
    ∧ self_healing_response g damaged_nodes hf rng
      = Some (acts1 ++ ((λ l, HealingConnection l.1 l.2) <$> links), g', rng')
    ∧ nodes g' = nodes g1
    ∧ edges g' = edges g1 ++ ((λ l, (l.1, l.2, healing_attrs hf)) <$> links)
    ∧ wf_graph g'.
Proof.
  intros Hwf. unfold self_healing_response.
  destruct (remove_damaged_total g damaged_nodes Hwf) as (g1 & acts1 & Hrm & Hwf1).
  pose proof (wf_closed g1 Hwf1) as Hcl.
  destruct (connected_components_spec g1 Hcl) as (Hcomp & Hcover & Hsep).
  rewrite Hrm. cbn [mbind option_bind]. case_bool_decide as Hmany.
  - assert (∀ c, c ∈ connected_components g1 → c ≠ [] ∧ ∀ a, a ∈ c → a ∈ node_keys g1)
      as Hin by (intros c Hc; by destruct (Hcomp c Hc) as (? & ? & _)).
    destruct (connect_components_spec g1 (connected_components g1) hf rng Hin)
      as (links & g' & rng' & Hrun & Hn & He & _); [by apply separated_apart|].
    pose proof (connect_components_wf _ _ _ _ _ _ _ Hwf1 Hin (separated_apart _ _ Hsep) Hrun).
    rewrite Hrun. cbn [mbind option_bind]. by exists g1, acts1, links, g', rng'.
  - exists g1, acts1, [], g1, rng. csimpl. rewrite !app_nil_r. done.
Qed.

Lemma self_healing_response_cons g n rest hf rng :
  self_healing_response g (n :: rest) hf rng
  = '(g1, acts1) ← heal_node g n;
    '(acts, g', rng') ← self_healing_response g1 rest hf rng;
    Some (acts1 ++ acts, g', rng').
Proof.
  unfold self_healing_response. rewrite remove_damaged_cons.
  destruct (heal_node g n) as [[g1 acts1]|]; [|done]. cbn [mbind option_bind].
  destruct (remove_damaged g1 rest) as [[g2 acts2]|]; [|done]. cbn [mbind option_bind].
  case_bool_decide; [|done].
  destruct (connect_components g2 (connected_components g2) hf rng) as [[[g3 acts3] rng3]|];
    [|done].
  cbn [mbind option_bind]. by rewrite app_assoc.
Qed.

Lemma remove_damaged_absent g rest :
  Forall (λ m, m ∉ node_keys g) rest → remove_damaged g rest = Some (g, []).
Proof.
  induction 1 as [|m rest Hm _ IH]; [done|].
  by rewrite remove_damaged_cons, (heal_node_absent g m Hm); cbn; rewrite IH.
Qed.

(** What the function returns for [n :: rest] once the loop body has
    handled [n] and left [g1]. *)
Lemma self_healing_response_after g n rest hf rng g1 acts1 :
  heal_node g n = Some (g1, acts1) → wf_graph g1 → n ∉ node_keys g1 →
  ∃ acts g' rng',
    self_healing_response g1 rest hf rng = Some (acts, g', rng')
    ∧ self_healing_response g (n :: rest) hf rng = Some (acts1 ++ acts, g', rng')
    ∧ (n ∉ node_keys g')
    ∧ (∀ e, e ∈ edge_keys g' → e.1 ≠ n ∧ e.2 ≠ n)
    ∧ (Forall (λ m, m ∉ node_keys g1) rest → nodes g' = nodes g1).
Proof.
  intros Hheal Hwf1 Hn1.
  destruct (self_healing_response_run g1 rest hf rng Hwf1)
    as (g2 & acts2 & links & g' & rng' & Hrm & Hrun & Hn & He & Hwf').
  destruct (remove_damaged_survivors g1 rest Hwf1) as (g2' & acts2' & Hrm' & _ & Hk & _).
  rewrite Hrm in Hrm'. injection Hrm' as <- <-.
  assert (n ∉ node_keys g') as Hn'.
  { unfold node_keys. rewrite Hn. intros [? _]%Hk. done. }
  eexists _, g', rng'. split_and!; [done| |done| |].
  - by rewrite self_healing_response_cons, Hheal; cbn; rewrite Hrun.
  - intros e He'. pose proof (wf_closed g' Hwf') as Hcl.
    unfold closed_graph in Hcl. rewrite Forall_forall in Hcl.
    destruct (Hcl e He') as [??]. split; congruence.
  - intros Habs. rewrite (remove_damaged_absent g1 rest Habs) in Hrm.
    injection Hrm as <- <-. done.
Qed.



(** C10: a node of the graph without neighbours is removed and nothing
    is added to any other node.  The loop body leaves the graph [g1] that
    has lost exactly the entry of the node: the other nodes keep their
    attributes and the total of the [resources] is lower by the R the
    node held.  What [self_healing_response] returns for [n :: rest] is
    what it returns for [rest] on [g1], with the one action that reports
    R in front; the node is absent from the returned graph, and when no
    key of [rest] is in [g1] the returned graph has the nodes of [g1], so
    its total is the old total less R. *)
Theorem isolated_damaged_node_drops_resources (g : Graph) (n : node) (rest : list node)
    (healing_factor : Q) (rng : Rng) :
  wf_graph g → n ∈ node_keys g → neighbors g n = [] →
  ∃ g1 acts g' rng',
    heal_node g n = Some (g1, [RemovedDamaged n (resources_of g n)])
    ∧ self_healing_response g1 rest healing_factor rng = Some (acts, g', rng')
    ∧ self_healing_response g (n :: rest) healing_factor rng
      = Some (RemovedDamaged n (resources_of g n) :: acts, g', rng')
    ∧ nodes g1 = filter (λ ka, ka.1 ≠ n) (nodes g)
    ∧ (n ∉ node_keys g1)
    ∧ (∀ m, m ≠ n → node_attrs g1 m = node_attrs g m)
    ∧ (total_resources g1 == total_resources g - resources_of g n)
    ∧ (n ∉ node_keys g')
    ∧ (Forall (λ m, m ∉ node_keys g1) rest →
       nodes g' = nodes g1
       ∧ total_resources g' == total_resources g - resources_of g n).
Proof.
  intros Hwf Hn Hnb.
  assert (∃ g1, heal_node g n = Some (g1, [RemovedDamaged n (resources_of g n)])
                ∧ nodes g1 = filter (λ ka, ka.1 ≠ n) (nodes g)
                ∧ (∀ m, m ∈ node_keys g1 ↔ m ∈ node_keys g ∧ m ≠ n)
                ∧ (∀ m, node_attrs g1 m = if decide (m = n) then None else node_attrs g m))
    as (g1 & Hg1 & Hn1 & Hk & Hat).
  { unfold heal_node. rewrite (proj2 (has_node_true g n) Hn).
    destruct (proj2 (node_attrs_is_Some g n) Hn) as [a Ha]. rewrite Ha. simpl.
    rewrite (resources_of_attrs _ _ _ Ha), Hnb. simpl.
    destruct (remove_node_spec g n Hn) as (g1 & -> & Hn1 & _ & Hk & Hat & _).
    by exists g1. }
  assert (wf_graph g1) as Hwf1.
  { destruct (heal_node_present g n Hwf Hn) as (g1' & Hg1' & Hwf1 & _). congruence. }
  assert (total_resources g1 == total_resources g - resources_of g n) as Htot.
  { unfold total_resources, resources_of, node_attrs. rewrite Hn1.
    apply total_resources_filter; [apply Hwf|done]. }
  destruct (self_healing_response_after g n rest healing_factor rng g1 _ Hg1 Hwf1)
    as (acts & g' & rng' & Hrest & Hrun & Hn' & He' & Hsame).
  { rewrite Hk. tauto. }
  exists g1, acts, g', rng'. split_and!; try done.
  - rewrite Hk. tauto.
  - intros m Hm. by rewrite Hat, decide_False.
  - intros Habs. specialize (Hsame Habs). split; [done|].
    unfold total_resources in *. by rewrite Hsame.
Qed.

Lemma isolated_damaged_node_drops_resources_witness :
  ∃ g1 acts g' rng',
    heal_node damaged_graph "W" = Some (g1, [RemovedDamaged "W" (resources_of damaged_graph "W")])
    ∧ self_healing_response g1 ["W"] (4 # 5) sample_rng = Some (acts, g', rng')
    ∧ self_healing_response damaged_graph ["W"; "W"] (4 # 5) sample_rng
      = Some (RemovedDamaged "W" (resources_of damaged_graph "W") :: acts, g', rng')
    ∧ nodes g1 = filter (λ ka, ka.1 ≠ "W") (nodes damaged_graph)
    ∧ ("W" ∉ node_keys g1)
    ∧ (∀ m, m ≠ "W" → node_attrs g1 m = node_attrs damaged_graph m)
    ∧ (total_resources g1 == total_resources damaged_graph - resources_of damaged_graph "W")
    ∧ ("W" ∉ node_keys g')
    ∧ (Forall (λ m, m ∉ node_keys g1) ["W"] →
       nodes g' = nodes g1
       ∧ total_resources g' == total_resources damaged_graph - resources_of damaged_graph "W").
Proof.
  apply (isolated_damaged_node_drops_resources damaged_graph "W" ["W"] (4 # 5) sample_rng).
  - apply (bool_decide_unpack _); vm_compute; exact I.
  - apply (bool_decide_unpack _); vm_compute; exact I.
  - reflexivity.
Defined.

Local Close Scope Q_scope.

Lemma lookup_edge_const e a (l : list (node * node * EdgeAttrs)) :
  (∀ ka, ka ∈ l → ka.2 = a) → Exists (λ k, same_edge k e) l.*1 → lookup_edge e l = Some a.
Proof.
  induction l as [|[k x] l IH]; csimpl; [by intros _ ?%Exists_nil|].
  intros Hall Hex. case_decide as Hk.
  - f_equal. apply (Hall (k, x)). left.
  - apply IH; [intros ka ?; apply Hall; by right|].
    by apply Exists_cons in Hex as [?|?].
Qed.

(** C9: the removal phase returns a graph [g1]; the function then returns
    a graph with the nodes of [g1] and the edges of [g1] followed by one
    new edge per pair of consecutive components of [g1], in that order.
    Each new edge joins a node of the one component to a node of the next,
    carries [strength] = [healing_factor], [capacity] = 5 and
    [healing_connection] = true, and is reported by one action.  If [g1]
    has a node at all, the returned graph is connected and
    [connected_components] finds exactly one component in it. *)
Theorem healing_leaves_one_component (g : Graph) (damaged_nodes : list node)
    (healing_factor : Q) (rng : Rng) :
  wf_graph g →
  ∃ g1 acts1 links g' rng',
    remove_damaged g damaged_nodes = Some (g1, acts1)
    ∧ self_healing_response g damaged_nodes healing_factor rng
      = Some (acts1 ++ ((λ l, HealingConnection l.1 l.2) <$> links), g', rng')
    ∧ nodes g' = nodes g1
    ∧ edges g'
      = edges g1
        ++ ((λ l, (l.1, l.2,
                   mkEdgeAttrs (Some healing_factor) (Some 5%Q) None None (Some true)))
              <$> links)
    ∧ length links = length (connected_components g1) - 1
    ∧ (∀ i l, links !! i = Some l →
         ∃ c1 c2, connected_components g1 !! i = Some c1
                  ∧ connected_components g1 !! S i = Some c2
                  ∧ l.1 ∈ c1 ∧ l.2 ∈ c2 ∧ ¬ adjacent g1 l.1 l.2
                  ∧ strength_of g' l = healing_factor
                  ∧ capacity_of g' l = 5%Q
                  ∧ (edge_attrs g' l ≫= healing_connection) = Some true)
    ∧ (node_keys g1 ≠ [] →
       connected_graph g' ∧ length (connected_components g') = 1).
Proof.
  intros Hwf. change (mkEdgeAttrs (Some healing_factor) (Some 5%Q) None None (Some true))
    with (healing_attrs healing_factor). unfold self_healing_response.
  destruct (remove_damaged_total g damaged_nodes Hwf) as (g1 & acts1 & Hrm & Hwf1).
  pose proof (wf_closed g1 Hwf1) as Hcl.
  destruct (connected_components_spec g1 Hcl) as (Hcomp & Hcover & Hsep).
  rewrite Hrm. cbn [mbind option_bind].
  assert (∃ links g' rng',
    (if bool_decide (1 < length (connected_components g1))
     then '(g2, acts2, rng') ←
            connect_components g1 (connected_components g1) healing_factor rng;
          Some (acts1 ++ acts2, g2, rng')
     else Some (acts1, g1, rng))
    = Some (acts1 ++ ((λ l, HealingConnection l.1 l.2) <$> links), g', rng')
    ∧ nodes g' = nodes g1
    ∧ edges g' = edges g1 ++ ((λ l, (l.1, l.2, healing_attrs healing_factor)) <$> links)
    ∧ length links = length (connected_components g1) - 1
    ∧ (∀ i l, links !! i = Some l →
         ∃ c1 c2, connected_components g1 !! i = Some c1
                  ∧ connected_components g1 !! S i = Some c2
                  ∧ l.1 ∈ c1 ∧ l.2 ∈ c2 ∧ ¬ adjacent g1 l.1 l.2))
    as (links & g' & rng' & Hrun & Hn & He & Hlen & Hl).
  { case_bool_decide as Hmany.
    - destruct (connect_components_spec g1 (connected_components g1) healing_factor rng)
        as (links & g' & rng' & -> & ?); [|by apply separated_apart|].
      + intros c Hc. destruct (Hcomp c Hc) as (? & ? & _). done.
      + by exists links, g', rng'.
    - exists [], g1, rng. csimpl. rewrite !app_nil_r.
      split_and!; [done|done|done|lia|done]. }
  assert (∀ i l, links !! i = Some l →
            edge_attrs g' l = Some (healing_attrs healing_factor)) as Hattr.
  { intros i l Hi. unfold edge_attrs. rewrite He, lookup_edge_app.
    destruct (Hl i l Hi) as (_ & _ & _ & _ & _ & _ & Hnadj).
    assert (lookup_edge l (edges g1) = None) as ->.
    { apply lookup_edge_None. intros Hex. apply Hnadj.
      apply adjacent_has_edge, has_edge_true. by destruct l. }
    apply lookup_edge_const.
    - by intros ka (l' & -> & _)%list_elem_of_fmap.
    - apply Exists_exists. exists l. split; [|by left].
      apply list_elem_of_fmap. exists (l.1, l.2, healing_attrs healing_factor).
      split; [by destruct l|]. apply list_elem_of_fmap. exists l.
      split; [done|]. by eapply list_elem_of_lookup_2. }
  exists g1, acts1, links, g', rng'. split_and!; try done.
  - intros i l Hi. destruct (Hl i l Hi) as (c1 & c2 & ? & ? & ? & ? & ?).
    exists c1, c2. unfold strength_of, capacity_of. rewrite (Hattr i l Hi).
    split_and!; done.
  - intros Hne.
    destruct (healed_connected g1 g' links healing_factor Hcl Hn He Hlen Hl)
      as [Hcl' Hconn].
    split; [done|]. apply connected_one_component; [done..|].
    unfold node_keys in *. by rewrite Hn.
Qed.

Lemma healing_leaves_one_component_witness :
  ∃ g1 acts1 links g' rng',
    remove_damaged damaged_graph ["X"] = Some (g1, acts1)
    ∧ self_healing_response damaged_graph ["X"] (4 # 5) sample_rng
      = Some (acts1 ++ ((λ l, HealingConnection l.1 l.2) <$> links), g', rng')
    ∧ nodes g' = nodes g1
    ∧ edges g'
      = edges g1
        ++ ((λ l, (l.1, l.2,
                   mkEdgeAttrs (Some (4 # 5)%Q) (Some 5%Q) None None (Some true)))
              <$> links)
    ∧ length links = length (connected_components g1) - 1
    ∧ (∀ i l, links !! i = Some l →
         ∃ c1 c2, connected_components g1 !! i = Some c1
                  ∧ connected_components g1 !! S i = Some c2
                  ∧ l.1 ∈ c1 ∧ l.2 ∈ c2 ∧ ¬ adjacent g1 l.1 l.2
                  ∧ strength_of g' l = (4 # 5)%Q
                  ∧ capacity_of g' l = 5%Q
                  ∧ (edge_attrs g' l ≫= healing_connection) = Some true)
    ∧ (node_keys g1 ≠ [] →
       connected_graph g' ∧ length (connected_components g') = 1).
Proof.
  apply (healing_leaves_one_component damaged_graph ["X"] (4 # 5) sample_rng).
  apply (bool_decide_unpack _); vm_compute; exact I.
Defined.

(** * Further properties *)

(** ** nutrient_flow_simulation: what it writes *)

Local Open Scope Q_scope.

Lemma flow_frame_refl g : flow_frame g g.
Proof. by split_and!. Qed.

Lemma flow_frame_trans g1 g2 g3 : flow_frame g1 g2 → flow_frame g2 g3 → flow_frame g1 g3.
Proof.
  intros (Hn & He & Hna & Hea) (Hn' & He' & Hna' & Hea'). split_and!.
  - by rewrite Hn', Hn.
  - by rewrite He', He.
  - intros m. by rewrite Hna', Hna.
  - intros e. by rewrite Hea', Hea.
Qed.

Lemma set_resources_frame g n q g' : set_resources g n q = Some g' → flow_frame g g'.
Proof.
  intros (_ & Hk & He & Hat)%set_resources_spec. split_and!; [done| | |].
  - unfold edge_keys. by rewrite He.
  - intros m. rewrite Hat. case_decide; [|done]. by destruct (node_attrs g m).
  - intros e. unfold edge_attrs. by rewrite He.
Qed.

Lemma set_strength_frame g e q g' : set_strength g e q = Some g' → flow_frame g g'.
Proof.
  intros (_ & Hn & Hk & Hat)%set_strength_spec. split_and!; [|done| |].
  - unfold node_keys. by rewrite Hn.
  - intros m. unfold node_attrs. by rewrite Hn.
  - intros e'. rewrite Hat. case_decide; [|done]. by destruct (edge_attrs g e').
Qed.

Lemma apply_flow_frame g ef g' : apply_flow g ef = Some g' → flow_frame g g'.
Proof.
  destruct ef as [edge fd]. unfold apply_flow. destruct (direction fd) as [from_node to_node].
  destruct (node_attrs g from_node) as [af|]; [|done].
  destruct (node_attrs g to_node) as [ato|]; [|done]. simpl.
  destruct (set_resources g from_node _) as [g1|] eqn:Hg1; [|done]. simpl.
  destruct (set_resources g1 to_node _) as [g2|] eqn:Hg2; [|done]. simpl.
  destruct (edge_attrs g2 edge) as [ea|]; [|done]. simpl. intros Hg'.
  apply (flow_frame_trans g g1); [by eapply set_resources_frame|].
  apply (flow_frame_trans g1 g2); [by eapply set_resources_frame|].
  by eapply set_strength_frame.
Qed.

Lemma apply_flows_frame g fs g' : apply_flows g fs = Some g' → flow_frame g g'.
Proof.
  revert g. induction fs as [|ef fs IH]; intros g; simpl.
  - intros [= <-]. apply flow_frame_refl.
  - destruct (apply_flow g ef) as [g1|] eqn:Hg1; [|done]. simpl. intros Hg'.
    apply (flow_frame_trans g g1); [by eapply apply_flow_frame|by apply IH].
Qed.

Lemma flow_steps_length g n h g' : flow_steps g n = Some (h, g') → length h = n.
Proof.
  revert g h g'. induction n as [|n IH]; intros g h g'; simpl.
  - by intros [= <- <-].
  - destruct (flow_step g) as [[fs g1]|]; [|done]. simpl.
    destruct (flow_steps g1 n) as [[h1 g2]|] eqn:Hn; [|done]. simpl.
    intros [= <- <-]. simpl. f_equal. by eapply IH.
Qed.

(** X1: on a graph networkx can hold the simulation returns one record per
    time step (none for a [time_steps] below 1) and a graph with the same
    nodes and edges in the same order, in which every attribute other than
    the nodes' [resources] and the edges' [strength] is what it was: the
    [capacity], [flow], [last_used] and [healing_connection] of the edges
    and the [node_type], [health] and [connections] of the nodes are never
    written. *)
Theorem flow_writes_resources_and_strength_only (g : Graph)
    (source_nodes sink_nodes : list node) (time_steps : Z) :
  wf_graph g →
  ∃ flow_history g',
    nutrient_flow_simulation g source_nodes sink_nodes time_steps = Some (flow_history, g')
    ∧ length flow_history = Z.to_nat time_steps
    ∧ flow_frame g g'.
Proof.
  intros Hwf.
  destruct (flow_steps_invariant (flow_frame g)) with (n := Z.to_nat time_steps) (g := g)
    as (h & g' & Hh & _ & Hfr); [|done|apply flow_frame_refl|].
  { intros g1 fs g2 _ Hfr [Happ _]%flow_step_inv.
    apply (flow_frame_trans g g1); [done|by eapply apply_flows_frame]. }
  exists h, g'. split_and!; [done| |done]. by eapply flow_steps_length.
Qed.

Lemma flow_writes_resources_and_strength_only_witness :
  ∃ flow_history g',
    nutrient_flow_simulation chain_graph ["A"] ["D"] 4 = Some (flow_history, g')
    ∧ length flow_history = Z.to_nat 4
    ∧ flow_frame chain_graph g'.
Proof.
  apply (flow_writes_resources_and_strength_only chain_graph ["A"] ["D"] 4).
  apply (bool_decide_unpack _); vm_compute; exact I.
Defined.

(** ** nutrient_flow_simulation: the recorded flows *)

Lemma Qgtb_true x y : Qgtb x y = true ↔ y < x.
Proof.
  unfold Qgtb. rewrite negb_true_iff, <-not_true_iff_false, Qle_bool_iff.
  split; [apply Qnot_le_lt|apply Qlt_not_le].
Qed.

(** X2: in one time step an edge reported by [graph.edges()] is recorded
    exactly when the [resources] of its two ends differ.  A recorded flow
    runs along its edge from the end that holds more to the end that holds
    less, and its amount is [min(capacity, 0.1 * difference)]: at most the
    capacity the edge reads and at most a tenth of the difference. *)
Theorem recorded_flows_follow_gradient (g : Graph) :
  wf_graph g →
  ∃ step_flows g',
    flow_step g = Some (step_flows, g')
    ∧ (∀ e, e ∈ edges_view g →
            e ∈ step_flows.*1 ↔ ¬ resources_of g e.1 == resources_of g e.2)
    ∧ ∀ e fd, (e, fd) ∈ step_flows →
        let hi := (direction fd).1 in
        let lo := (direction fd).2 in
        e ∈ edges_view g
        ∧ same_edge (direction fd) e
        ∧ resources_of g lo < resources_of g hi
        ∧ amount fd
          == Qmin (capacity_of g e) ((1 # 10) * (resources_of g hi - resources_of g lo))
        ∧ amount fd <= capacity_of g e
        ∧ amount fd <= (1 # 10) * (resources_of g hi - resources_of g lo).
Proof.
  intros Hwf. destruct (flow_step_total g Hwf) as (fs & g' & Hstep & _ & Hfs & _).
  exists fs, g'. split; [done|]. rewrite Forall_forall in Hfs. split.
  - intros e He. split.
    + intros (ef & -> & Hin)%list_elem_of_fmap. by destruct (Hfs ef Hin) as (_ & _ & ? & _).
    + intros Hne. eapply calculate_flows_recorded; [|done..].
      unfold flow_step in Hstep.
      destruct (calculate_flows g (edges_view g)) as [fs'|]; [|done]. simpl in Hstep.
      destruct (apply_flows g fs'); [|done]. by simplify_eq/=.
  - intros e fd Hin. destruct (Hfs _ Hin) as (He & Ha & Hne & Hd & _).
    cbn [fst snd] in *. cbv zeta.
    assert (resources_of g (direction fd).2 < resources_of g (direction fd).1
            ∧ same_edge (direction fd) e
            ∧ Qabs (resources_of g e.1 - resources_of g e.2)
              == resources_of g (direction fd).1 - resources_of g (direction fd).2)
      as (Hlt & Hse & Habs).
    { rewrite Hd. destruct (Qgtb _ _) eqn:Hgt.
      - apply Qgtb_true in Hgt. split_and!; [done|by left|].
        apply Qabs_pos. lra.
      - assert (¬ resources_of g e.2 < resources_of g e.1) as Hnlt
          by (rewrite <-Qgtb_true; congruence).
        cbn [fst snd]. split_and!; [lra|by right|].
        transitivity (- (resources_of g e.1 - resources_of g e.2)); [|lra].
        apply Qabs_neg. lra. }
    assert (amount fd
            == Qmin (capacity_of g e)
                 ((1 # 10) * (resources_of g (direction fd).1 - resources_of g (direction fd).2)))
      as Hmin.
    { rewrite Ha. apply Q.min_compat; [done|]. rewrite Habs. lra. }
    split_and!; [done..| |].
    + rewrite Hmin. apply Q.le_min_l.
    + rewrite Hmin. apply Q.le_min_r.
Qed.

Lemma recorded_flows_follow_gradient_witness :
  ∃ step_flows g',
    flow_step chain_graph = Some (step_flows, g')
    ∧ (∀ e, e ∈ edges_view chain_graph →
            e ∈ step_flows.*1
            ↔ ¬ resources_of chain_graph e.1 == resources_of chain_graph e.2)
    ∧ ∀ e fd, (e, fd) ∈ step_flows →
        let hi := (direction fd).1 in
        let lo := (direction fd).2 in
        e ∈ edges_view chain_graph
        ∧ same_edge (direction fd) e
        ∧ resources_of chain_graph lo < resources_of chain_graph hi
        ∧ amount fd
          == Qmin (capacity_of chain_graph e)
               ((1 # 10) * (resources_of chain_graph hi - resources_of chain_graph lo))
        ∧ amount fd <= capacity_of chain_graph e
        ∧ amount fd <= (1 # 10) * (resources_of chain_graph hi - resources_of chain_graph lo).
Proof.
  apply (recorded_flows_follow_gradient chain_graph).
  apply (bool_decide_unpack _); vm_compute; exact I.
Defined.

(** ** nutrient_flow_simulation: a graph at rest *)

Lemma calculate_flows_balanced g es :
  Forall (λ e, e.1 ∈ node_keys g ∧ e.2 ∈ node_keys g
               ∧ resources_of g e.1 == resources_of g e.2) es →
  calculate_flows g es = Some [].
Proof.
  induction 1 as [|[node1 node2] es (H1 & H2 & Heq) _ IH]; simpl in *; [done|].
  apply node_attrs_is_Some in H1 as [a1 Ha1].
  apply node_attrs_is_Some in H2 as [a2 Ha2]. rewrite Ha1, Ha2. simpl.
  rewrite <-(resources_of_attrs _ _ _ Ha1), <-(resources_of_attrs _ _ _ Ha2) in Heq.
  apply Qeq_bool_iff in Heq. by rewrite Heq.
Qed.

Lemma flow_step_balanced g : wf_graph g → balanced g → flow_step g = Some ([], g).
Proof.
  intros Hwf Hbal. unfold flow_step. rewrite calculate_flows_balanced; [done|].
  apply Forall_forall. intros [u v] [_ Hadj]%elem_of_edges_view.
  destruct (adjacent_closed g u v (wf_closed g Hwf) Hadj) as [??]. simpl.
  split_and!; [done..|].
  apply elem_of_neighbors in Hadj as (ka & Hin & Hse).
  unfold balanced in Hbal. rewrite Forall_forall in Hbal.
  specialize (Hbal ka.1 (list_elem_of_fmap_2 fst _ _ Hin)).
  destruct Hse as [[??]|[??]]; simpl in *; subst; [done|by symmetry].
Qed.

(** X3: a graph in which no edge joins two nodes of different [resources]
    is a fixed point: every time step records no flow and the simulation
    returns the graph as it got it, strengths included. *)
Theorem balanced_graph_is_at_rest (g : Graph) (source_nodes sink_nodes : list node)
    (time_steps : Z) :
  wf_graph g → balanced g →
  nutrient_flow_simulation g source_nodes sink_nodes time_steps
  = Some (replicate (Z.to_nat time_steps) [], g).
Proof.
  intros Hwf Hbal. unfold nutrient_flow_simulation.
  induction (Z.to_nat time_steps) as [|n IH]; simpl; [done|].
  rewrite (flow_step_balanced g Hwf Hbal). simpl. by rewrite IH.
Qed.

Lemma balanced_graph_is_at_rest_witness :
  nutrient_flow_simulation level_graph ["A"] ["C"] 3
  = Some (replicate (Z.to_nat 3) [], level_graph).
Proof.
  apply (balanced_graph_is_at_rest level_graph ["A"] ["C"] 3).
  - apply (bool_decide_unpack _); vm_compute; exact I.
  - repeat constructor; vm_compute; congruence.
Defined.

(** ** hyphal_growth_pathfinding: the alternatives *)

Local Close Scope Q_scope.

Lemma thinned_refl g : thinned g g.
Proof. by split. Qed.

Lemma thinned_trans g t t' : thinned g t → thinned t t' → thinned g t'.
Proof. intros [Hn He] [Hn' He']. split; auto. Qed.

Lemma remove_edge_thinned g u v g' : remove_edge g u v = Some g' → thinned g g'.
Proof.
  unfold remove_edge. destruct (has_edge g u v); [|done]. intros [= <-].
  split; [done|]. intros a b. unfold adjacent. rewrite !elem_of_neighbors.
  cbn [edges]. intros (ka & [_ ?]%list_elem_of_filter & ?). by exists ka.
Qed.

Lemma copy_of_thinned g : thinned g (copy_of g).
Proof. split; [apply copy_of_node_keys|apply copy_of_adjacent_1]. Qed.

Lemma thinned_adjacent g t a b : thinned g t → adjacent t a b → adjacent g a b.
Proof. intros [_ He]. apply He. Qed.

Lemma thinned_closed g t : thinned g t → closed_graph g → closed_graph t.
Proof.
  intros [Hn He] Hcl. unfold closed_graph. apply Forall_forall.
  intros [a b] (ka & Hka & Hin)%list_elem_of_fmap.
  assert (adjacent t a b) as Hab.
  { apply elem_of_neighbors. exists ka. split; [done|]. rewrite <-Hka. by left. }
  destruct (adjacent_closed g a b Hcl (He a b Hab)). split; by apply Hn.
Qed.

Lemma thinned_path g t s x p : thinned g t → path_between t s x p → path_between g s x p.
Proof.
  intros Ht (Hh & Hl & Hlinks). split_and!; [done..|].
  intros i a b Ha Hb. eapply thinned_adjacent; [done|]. by eapply Hlinks.
Qed.

Lemma Qgtb_false x y : Qgtb x y = false ↔ (x <= y)%Q.
Proof. unfold Qgtb. by rewrite negb_false_iff, Qle_bool_iff. Qed.

Lemma perturb_path_thinned (σ : Store) t path rng :
  ∃ t' rng',
    perturb_path (σ ++ [t]) (length σ) path rng = Some (σ ++ [t'], rng')
    ∧ thinned t t'
    ∧ unit_draw rng' = unit_draw rng
    ∧ ((∀ k, (3 # 10 <= unit_draw rng k)%Q) → t' = t).
Proof.
  revert t rng. induction path as [|u path IH]; intros t rng.
  { exists t, rng. split_and!; [done|apply thinned_refl|done|done]. }
  destruct path as [|v rest].
  { exists t, rng. split_and!; [done|apply thinned_refl|done|done]. }
  rewrite perturb_path_cons, store_lookup_last. cbn [mbind option_bind].
  destruct (has_edge t u v) eqn:He; [|apply IH].
  unfold random. destruct (Qgtb (3 # 10) (unit_draw rng (position rng))) eqn:Hdraw.
  - destruct (remove_edge t u v) as [t1|] eqn:Ht1.
    + cbn [mbind option_bind]. rewrite store_insert_last.
      destruct (IH t1 (advance rng)) as (t' & rng' & -> & Hth & Hu & _).
      exists t', rng'. split_and!; [done| |done|].
      * eapply thinned_trans; [|done]. by eapply remove_edge_thinned.
      * intros Hall. specialize (Hall (position rng)).
        apply Qgtb_false in Hall. congruence.
    + unfold remove_edge in Ht1. by rewrite He in Ht1.
  - destruct (IH t (advance rng)) as (t' & rng' & -> & Hth & Hu & Hsame).
    exists t', rng'. split_and!; done.
Qed.

Lemma perturb_paths_thinned (σ : Store) t paths rng :
  ∃ t' rng',
    perturb_paths (σ ++ [t]) (length σ) paths rng = Some (σ ++ [t'], rng')
    ∧ thinned t t'
    ∧ unit_draw rng' = unit_draw rng
    ∧ ((∀ k, (3 # 10 <= unit_draw rng k)%Q) → t' = t).
Proof.
  revert t rng. induction paths as [|[label path] paths IH]; intros t rng.
  { exists t, rng. split_and!; [done|apply thinned_refl|done|done]. }
  cbn [perturb_paths].
  destruct (perturb_path_thinned σ t path rng) as (t1 & rng1 & -> & Hth1 & Hu1 & Hs1).
  cbn [mbind option_bind].
  destruct (IH t1 rng1) as (t' & rng' & -> & Hth & Hu & Hs). exists t', rng'.
  split_and!; [done|by eapply thinned_trans|congruence|].
  intros Hall. rewrite Hs; [by apply Hs1|]. intros k. by rewrite Hu1.
Qed.

Lemma alternative_trial_full graph start target paths (σ : Store) rng g :
  σ !! graph = Some g → start ∈ node_keys g → target ∈ node_keys g →
  ∃ paths' t rng',
    alternative_trial graph start target (paths, σ, rng) = Some (paths', σ ++ [t], rng')
    ∧ unit_draw rng' = unit_draw rng
    ∧ (paths' = paths
       ∨ ∃ alt, paths' = paths ++ [("alternative_" +:+ pretty (length paths), alt)]
                ∧ (alt ∉ paths.*2) ∧ found_in_copy g start target alt
                ∧ shortest_path t start target = Path alt)
    ∧ ((∀ k, (3 # 10 <= unit_draw rng k)%Q) → t = copy_of g).
Proof.
  intros Hg Hs Ht. unfold alternative_trial, graph_copy. rewrite Hg.
  cbn [mbind option_bind].
  destruct (perturb_paths_thinned σ (copy_of g) paths rng)
    as (t & rng' & -> & Hth & Hu & Hsame).
  assert (thinned g t) as Hgt by (eapply thinned_trans; [apply copy_of_thinned|done]).
  cbn [mbind option_bind]. rewrite store_lookup_last. cbn [mbind option_bind].
  destruct (shortest_path t start target) as [alt| |] eqn:Hsp.
  - case_decide as Hin.
    + exists paths, t, rng'. split_and!; [done..| |done]. by left.
    + eexists _, t, rng'. split_and!; [done..| |done]. right. exists alt.
      split_and!; [done|done|by exists t|done].
  - exists paths, t, rng'. split_and!; [done..| |done]. by left.
  - apply shortest_path_not_found in Hsp. destruct Hsp.
    destruct Hgt as [Hn _]. split; by apply Hn.
Qed.

Lemma path_labels_lookup m :
  1 ≤ m ≤ 3 → path_labels !! m = Some ("alternative_" +:+ pretty m).
Proof. intros [??]. destruct m as [|[|[|[|m]]]]; (done || lia). Qed.

Lemma paths_ok_step g start target n paths paths' :
  paths_ok g start target n paths → n ≤ 3 →
  (paths' = paths
   ∨ ∃ alt, paths' = paths ++ [("alternative_" +:+ pretty (length paths), alt)]
            ∧ (alt ∉ paths.*2) ∧ found_in_copy g start target alt) →
  paths_ok g start target (S n) paths'.
Proof.
  intros ((primary & rest & Hp & Hsp) & Hlen & Hnd & Hlab & Hf) Hn [->|(alt & -> & Hin & Halt)].
  - split_and!; [by exists primary, rest|lia|done..].
  - split_and!.
    + exists primary, (rest ++ [("alternative_" +:+ pretty (length paths), alt)]).
      by rewrite Hp.
    + rewrite length_app. simpl. lia.
    + rewrite fmap_app. apply NoDup_app. split_and!; [done| |apply NoDup_singleton].
      intros p Hp' ->%list_elem_of_singleton. done.
    + rewrite fmap_app, Hlab, length_app. simpl.
      replace (length paths + 1) with (S (length paths)) by lia.
      erewrite take_S_r; [done|]. apply path_labels_lookup.
      split; [|lia]. rewrite Hp. simpl. lia.
    + apply Forall_app. split; [done|]. by constructor.
Qed.

Lemma hyphal_growth_pathfinding_full (σ : Store) graph start target avoid_overused rng g :
  σ !! graph = Some g → start ∈ node_keys g → target ∈ node_keys g →
  ∃ paths copies rng',
    hyphal_growth_pathfinding σ graph start target avoid_overused rng
    = Some (paths, σ ++ copies, rng')
    ∧ match shortest_path g start target with
      | Path primary =>
          paths_ok g start target 4 paths
          ∧ ((∀ k, (3 # 10 <= unit_draw rng k)%Q) →
             copies = [copy_of g; copy_of g; copy_of g]
             ∧ Forall (λ lp, shortest_path g start target = Path lp.2
                             ∨ shortest_path (copy_of g) start target = Path lp.2) paths)
      | NetworkXNoPath => paths = []
      | NodeNotFound => False
      end.
Proof.
  intros Hg Hs Ht. unfold hyphal_growth_pathfinding. rewrite Hg.
  cbn [mbind option_bind].
  destruct (shortest_path g start target) as [primary| |] eqn:Hsp.
  - assert (paths_ok g start target 1 [("primary", primary)]) as H0.
    { split_and!; [by exists primary, []|done|apply NoDup_singleton|done|].
      constructor; [|done]. exists g. split; [apply thinned_refl|done]. }
    destruct (alternative_trial_full graph start target [("primary", primary)] σ rng g)
      as (paths1 & t1 & rng1 & -> & Hu1 & H1 & Hc1); [done..|].
    cbn [mbind option_bind].
    destruct (alternative_trial_full graph start target paths1 (σ ++ [t1]) rng1 g)
      as (paths2 & t2 & rng2 & -> & Hu2 & H2 & Hc2); [by apply lookup_app_l_Some|done..|].
    cbn [mbind option_bind].
    destruct (alternative_trial_full graph start target paths2 ((σ ++ [t1]) ++ [t2]) rng2 g)
      as (paths3 & t3 & rng3 & -> & Hu3 & H3 & Hc3); [by do 2 apply lookup_app_l_Some|done..|].
    exists paths3, [t1; t2; t3], rng3. split; [by rewrite <-!app_assoc|].
    assert (∀ paths paths' t,
              (paths' = paths
               ∨ ∃ alt, paths' = paths ++ [("alternative_" +:+ pretty (length paths), alt)]
                        ∧ (alt ∉ paths.*2) ∧ found_in_copy g start target alt
                        ∧ shortest_path t start target = Path alt) →
              (paths' = paths
               ∨ ∃ alt, paths' = paths ++ [("alternative_" +:+ pretty (length paths), alt)]
                        ∧ (alt ∉ paths.*2) ∧ found_in_copy g start target alt)
              ∧ (t = copy_of g →
                 Forall (λ lp, Path primary = Path lp.2
                               ∨ shortest_path (copy_of g) start target = Path lp.2) paths →
                 Forall (λ lp, Path primary = Path lp.2
                               ∨ shortest_path (copy_of g) start target = Path lp.2) paths'))
      as Hsplit.
    { intros paths paths' t [->|(alt & -> & Hin & Hf & Hfound)].
      - split; [by left|done].
      - split; [right; by exists alt|]. intros -> Hall.
        apply Forall_app. split; [done|]. constructor; [by right|done]. }
    destruct (Hsplit _ _ _ H1) as [H1' H1''].
    destruct (Hsplit _ _ _ H2) as [H2' H2''].
    destruct (Hsplit _ _ _ H3) as [H3' H3'']. split.
    + eapply (paths_ok_step g start target 3 paths2); [|lia|done].
      eapply (paths_ok_step g start target 2 paths1); [|lia|done].
      by eapply (paths_ok_step g start target 1 [("primary", primary)]); [|lia|].
    + intros Hall.
      assert (t1 = copy_of g) as E1 by (by apply Hc1).
      assert (t2 = copy_of g) as E2 by (apply Hc2; intros k; by rewrite Hu1).
      assert (t3 = copy_of g) as E3 by (apply Hc3; intros k; by rewrite Hu2, Hu1).
      split; [by rewrite E1, E2, E3|].
      apply H3''; [done|]. apply H2''; [done|]. apply H1''; [done|].
      constructor; [by left|done].
  - by exists [], [], rng; rewrite app_nil_r.
  - apply shortest_path_not_found in Hsp. by destruct Hsp.
Qed.

(** X6: no two entries of the result hold the same node sequence: an
    alternative equal to a path found before is not appended. *)
Theorem pathfinding_paths_are_distinct (σ : Store) (graph : nat) (g : Graph)
    (start target : node) (avoid_overused : bool) (rng : Rng) :
  σ !! graph = Some g → start ∈ node_keys g → target ∈ node_keys g →
  ∃ paths σ' rng',
    hyphal_growth_pathfinding σ graph start target avoid_overused rng
    = Some (paths, σ', rng')
    ∧ NoDup paths.*2.
Proof.
  intros Hg Hs Ht.
  destruct (hyphal_growth_pathfinding_full σ graph start target avoid_overused rng g)
    as (paths & copies & rng' & Hrun & Hpaths); [done..|].
  exists paths, (σ ++ copies), rng'. split; [done|].
  destruct (shortest_path g start target); [|subst; constructor|done].
  by destruct Hpaths as [(_ & _ & ? & _) _].
Qed.

Lemma pathfinding_paths_are_distinct_witness :
  ∃ paths σ' rng',
    hyphal_growth_pathfinding [ring_graph] 0 "A" "C" true sample_rng
    = Some (paths, σ', rng')
    ∧ NoDup paths.*2.
Proof.
  apply (pathfinding_paths_are_distinct [ring_graph] 0 ring_graph "A" "C" true sample_rng).
  - reflexivity.
  - apply (bool_decide_unpack _); vm_compute; exact I.
  - apply (bool_decide_unpack _); vm_compute; exact I.
Defined.

(** X7: the labels of the result are, in order, "primary",
    "alternative_1", "alternative_2", "alternative_3", cut to the number
    of entries: an alternative is numbered by its place in the list, not
    by the trial that found it. *)
Theorem pathfinding_labels_count_up (σ : Store) (graph : nat) (g : Graph)
    (start target : node) (avoid_overused : bool) (rng : Rng) :
  σ !! graph = Some g → start ∈ node_keys g → target ∈ node_keys g →
  ∃ paths σ' rng',
    hyphal_growth_pathfinding σ graph start target avoid_overused rng
    = Some (paths, σ', rng')
    ∧ paths.*1 = take (length paths) path_labels.
Proof.
  intros Hg Hs Ht.
  destruct (hyphal_growth_pathfinding_full σ graph start target avoid_overused rng g)
    as (paths & copies & rng' & Hrun & Hpaths); [done..|].
  exists paths, (σ ++ copies), rng'. split; [done|].
  destruct (shortest_path g start target); [|by subst|done].
  by destruct Hpaths as [(_ & _ & _ & ? & _) _].
Qed.

Lemma pathfinding_labels_count_up_witness :
  ∃ paths σ' rng',
    hyphal_growth_pathfinding [ring_graph] 0 "A" "C" true sample_rng
    = Some (paths, σ', rng')
    ∧ paths.*1 = take (length paths) path_labels.
Proof.
  apply (pathfinding_labels_count_up [ring_graph] 0 ring_graph "A" "C" true sample_rng).
  - reflexivity.
  - apply (bool_decide_unpack _); vm_compute; exact I.
  - apply (bool_decide_unpack _); vm_compute; exact I.
Defined.

Lemma found_in_copy_walk g start target p :
  closed_graph g → found_in_copy g start target p →
  path_between g start target p
  ∧ ∀ q, shortest_path g start target = Path q → length q ≤ length p.
Proof.
  intros Hcl (t & Hth & Hsp).
  destruct (shortest_path_found t start target p (thinned_closed g t Hth Hcl) Hsp)
    as [Hp _].
  pose proof (thinned_path g t start target p Hth Hp) as Hpg. split; [done|].
  intros q Hq. by apply (shortest_path_found g start target q Hcl Hq).
Qed.

(** X8: every entry of the result, alternatives included, is a walk from
    [start] to [target] along edges of the caller's graph, although the
    alternatives are searched in copies with edges removed; and no entry
    is shorter than the first one. *)
Theorem pathfinding_paths_are_walks (σ : Store) (graph : nat) (g : Graph)
    (start target : node) (avoid_overused : bool) (rng : Rng) :
  σ !! graph = Some g → wf_graph g → start ∈ node_keys g → target ∈ node_keys g →
  ∃ paths σ' rng',
    hyphal_growth_pathfinding σ graph start target avoid_overused rng
    = Some (paths, σ', rng')
    ∧ Forall (λ lp, path_between g start target lp.2) paths
    ∧ ∀ first, head paths = Some first →
        Forall (λ lp, length first.2 ≤ length lp.2) paths.
Proof.
  intros Hg Hwf Hs Ht.
  destruct (hyphal_growth_pathfinding_full σ graph start target avoid_overused rng g)
    as (paths & copies & rng' & Hrun & Hpaths); [done..|].
  exists paths, (σ ++ copies), rng'. split; [done|].
  destruct (shortest_path g start target) as [primary| |] eqn:Hsp; [| |done].
  - destruct Hpaths as [((primary' & rest & -> & Heq) & _ & _ & _ & Hf) _].
    rewrite Hsp in Heq. injection Heq as <-. split.
    + eapply Forall_impl; [done|]. intros lp Hlp.
      by apply (found_in_copy_walk g start target lp.2 (wf_closed g Hwf)).
    + intros first [= <-]. eapply Forall_impl; [done|]. intros lp Hlp. simpl.
      by apply (found_in_copy_walk g start target lp.2 (wf_closed g Hwf)).
  - subst. split; [done|]. by intros first [=].
Qed.

Lemma pathfinding_paths_are_walks_witness :
  ∃ paths σ' rng',
    hyphal_growth_pathfinding [ring_graph] 0 "A" "C" true sample_rng
    = Some (paths, σ', rng')
    ∧ Forall (λ lp, path_between ring_graph "A" "C" lp.2) paths
    ∧ ∀ first, head paths = Some first →
        Forall (λ lp, length first.2 ≤ length lp.2) paths.
Proof.
  apply (pathfinding_paths_are_walks [ring_graph] 0 ring_graph "A" "C" true sample_rng).
  - reflexivity.
  - apply (bool_decide_unpack _); vm_compute; exact I.
  - apply (bool_decide_unpack _); vm_compute; exact I.
  - apply (bool_decide_unpack _); vm_compute; exact I.
Defined.

(** X9: [nx.shortest_path] raises NodeNotFound for a start or target that
    is not in the graph, and the function catches NetworkXNoPath only: it
    raises exactly when one of the two nodes is missing. *)
Theorem pathfinding_raises_on_missing_node (σ : Store) (graph : nat) (g : Graph)
    (start target : node) (avoid_overused : bool) (rng : Rng) :
  σ !! graph = Some g →
  hyphal_growth_pathfinding σ graph start target avoid_overused rng = None
  ↔ start ∉ node_keys g ∨ target ∉ node_keys g.
Proof.
  intros Hg. split.
  - intros Hnone.
    destruct (decide (start ∈ node_keys g)) as [Hs|]; [|by left].
    destruct (decide (target ∈ node_keys g)) as [Ht|]; [|by right].
    destruct (hyphal_growth_pathfinding_full σ graph start target avoid_overused rng g)
      as (paths & copies & rng' & Hrun & _); [done..|]. congruence.
  - intros Hmiss. unfold hyphal_growth_pathfinding. rewrite Hg. cbn [mbind option_bind].
    assert (shortest_path g start target = NodeNotFound) as ->; [|done].
    apply shortest_path_not_found. tauto.
Qed.

Lemma pathfinding_raises_on_missing_node_witness :
  hyphal_growth_pathfinding [ring_graph] 0 "A" "Q" true sample_rng = None
  ↔ "A" ∉ node_keys ring_graph ∨ "Q" ∉ node_keys ring_graph.
Proof.
  apply (pathfinding_raises_on_missing_node [ring_graph] 0 ring_graph "A" "Q" true sample_rng).
  reflexivity.
Defined.

Lemma shortest_path_self g s : s ∈ node_keys g → shortest_path g s s = Path [s].
Proof.
  intros Hs. unfold shortest_path. rewrite (proj2 (has_node_true g s) Hs). simpl.
  unfold bfs. destruct (length (nodes g)); simpl; by rewrite decide_True.
Qed.

(** X10: with [start] equal to [target] the result is the single entry
    ("primary", [start]): the path has no edge to remove, so no random
    number is drawn and each of the three trials finds the same path in
    an unchanged copy. *)
Theorem pathfinding_same_endpoint (σ : Store) (graph : nat) (g : Graph)
    (start : node) (avoid_overused : bool) (rng : Rng) :
  σ !! graph = Some g → start ∈ node_keys g →
  hyphal_growth_pathfinding σ graph start start avoid_overused rng
  = Some ([("primary", [start])], σ ++ [copy_of g; copy_of g; copy_of g], rng).
Proof.
  intros Hg Hs. unfold hyphal_growth_pathfinding. rewrite Hg. cbn [mbind option_bind].
  rewrite (shortest_path_self g start Hs).
  assert (∀ σ0 : Store, σ0 !! graph = Some g →
            alternative_trial graph start start ([("primary", [start])], σ0, rng)
            = Some ([("primary", [start])], σ0 ++ [copy_of g], rng)) as Htrial.
  { intros σ0 Hg0. unfold alternative_trial, graph_copy. rewrite Hg0.
    cbn [mbind option_bind perturb_paths perturb_path].
    rewrite store_lookup_last. cbn [mbind option_bind].
    rewrite (shortest_path_self (copy_of g) start (copy_of_node_keys g start Hs)).
    by rewrite decide_True by (csimpl; left). }
  rewrite (Htrial σ Hg). cbn [mbind option_bind].
  rewrite (Htrial (σ ++ [copy_of g])) by (by apply lookup_app_l_Some).
  cbn [mbind option_bind].
  rewrite (Htrial ((σ ++ [copy_of g]) ++ [copy_of g]))
    by (by do 2 apply lookup_app_l_Some).
  by rewrite <-!app_assoc.
Qed.

Lemma pathfinding_same_endpoint_witness :
  hyphal_growth_pathfinding [ring_graph] 0 "B" "B" true sample_rng
  = Some ([("primary", ["B"])],
          [ring_graph] ++ [copy_of ring_graph; copy_of ring_graph; copy_of ring_graph],
          sample_rng).
Proof.
  apply (pathfinding_same_endpoint [ring_graph] 0 ring_graph "B" true sample_rng).
  - reflexivity.
  - apply (bool_decide_unpack _); vm_compute; exact I.
Defined.

(** X11: without a removed edge every entry is still a shortest path.
    When every draw of [random.random()] is 0.3 or more, no edge is
    removed: the copies the function made are left as [graph.copy()] made
    them, and every entry of the result is a walk from [start] to
    [target] in the caller's graph that no other such walk undercuts in
    length.  (An alternative can be appended all the same, because a copy
    may list the neighbours of a node in another order and the search
    then meets another path of the same length first.) *)
Theorem pathfinding_without_removal (σ : Store) (graph : nat) (g : Graph)
    (start target : node) (avoid_overused : bool) (rng : Rng) :
  σ !! graph = Some g → wf_graph g → start ∈ node_keys g → target ∈ node_keys g →
  (∀ k, (3 # 10 <= unit_draw rng k)%Q) →
  ∃ paths copies rng',
    hyphal_growth_pathfinding σ graph start target avoid_overused rng
    = Some (paths, σ ++ copies, rng')
    ∧ Forall (λ c, c = copy_of g) copies
    ∧ Forall (λ lp, path_between g start target lp.2
                    ∧ ∀ q, path_between g start target q → length lp.2 ≤ length q)
        paths.
Proof.
  intros Hg Hwf Hs Ht Hall. pose proof (wf_closed g Hwf) as Hcl.
  destruct (hyphal_growth_pathfinding_full σ graph start target avoid_overused rng g)
    as (paths & copies & rng' & Hrun & Hpaths); [done..|].
  exists paths, copies, rng'. split; [done|].
  destruct (shortest_path g start target) as [primary| |] eqn:Hsp; [| |done].
  - destruct Hpaths as [_ Hsame]. destruct (Hsame Hall) as [-> Hf].
    split; [by repeat constructor|].
    eapply Forall_impl; [exact Hf|]. intros lp [Hlp|Hlp].
    + injection Hlp as <-.
      by apply (shortest_path_found g start target).
    + pose proof (thinned_closed g _ (copy_of_thinned g) Hcl) as Hcl'.
      destruct (shortest_path_found _ _ _ _ Hcl' Hlp) as [Hp Hmin]. split.
      * by apply (thinned_path g (copy_of g)); [apply copy_of_thinned|].
      * intros q (Hh & Hl & Hlinks). apply Hmin. split_and!; [done..|].
        intros i a b Ha Hb. apply copy_of_adjacent_2; [done|]. by eapply Hlinks.
  - subst paths. split; [|done].
    unfold hyphal_growth_pathfinding in Hrun. rewrite Hg in Hrun.
    cbn [mbind option_bind] in Hrun. rewrite Hsp in Hrun.
    injection Hrun as Hσ _. apply (f_equal length) in Hσ.
    rewrite length_app in Hσ. destruct copies; [done|simpl in Hσ; lia].
Qed.

Lemma pathfinding_without_removal_witness :
  ∃ paths copies rng',
    hyphal_growth_pathfinding [ring_graph] 0 "A" "C" true calm_rng
    = Some (paths, [ring_graph] ++ copies, rng')
    ∧ Forall (λ c, c = copy_of ring_graph) copies
    ∧ Forall (λ lp, path_between ring_graph "A" "C" lp.2
                    ∧ ∀ q, path_between ring_graph "A" "C" q → length lp.2 ≤ length q)
        paths.
Proof.
  apply (pathfinding_without_removal [ring_graph] 0 ring_graph "A" "C" true calm_rng).
  - reflexivity.
  - apply (bool_decide_unpack _); vm_compute; exact I.
  - apply (bool_decide_unpack _); vm_compute; exact I.
  - apply (bool_decide_unpack _); vm_compute; exact I.
  - intros k. vm_compute. congruence.
Defined.

(** ** self_healing_response: what the removal keeps *)

Local Open Scope Q_scope.

(** X13: the graph the function returns has exactly the nodes of the
    caller's graph that are not listed as damaged.  Every edge between two
    such nodes is still there with its attributes, and every other edge of
    the result is a healing connection.  Each listed node that was in the
    graph is reported by one removal action, however often it is listed;
    a key that is not in the graph is not reported. *)
Theorem healing_removes_the_listed_nodes (g : Graph) (damaged_nodes : list node)
    (healing_factor : Q) (rng : Rng) :
  wf_graph g →
  ∃ acts g' rng',
    self_healing_response g damaged_nodes healing_factor rng = Some (acts, g', rng')
    ∧ (∀ m, m ∈ node_keys g' ↔ m ∈ node_keys g ∧ m ∉ damaged_nodes)
    ∧ (∀ ka, ka ∈ edges g →
             ka.1.1 ∉ damaged_nodes → ka.1.2 ∉ damaged_nodes → ka ∈ edges g')
    ∧ (∀ ka, ka ∈ edges g' →
             ka ∈ edges g ∨ ka.2 = healing_attrs healing_factor)
    ∧ NoDup (removed_nodes acts)
    ∧ (∀ m, m ∈ removed_nodes acts ↔ m ∈ damaged_nodes ∧ m ∈ node_keys g).
Proof.
  intros Hwf.
  destruct (self_healing_response_run g damaged_nodes healing_factor rng Hwf)
    as (g1 & acts1 & links & g' & rng' & Hrm & Hrun & Hn & He & _).
  destruct (remove_damaged_survivors g damaged_nodes Hwf)
    as (g1' & acts1' & Hrm' & _ & Hk & Hed & _ & Hnd & Hrem).
  rewrite Hrm in Hrm'. injection Hrm' as <- <-.
  eexists _, g', rng'. split; [done|]. split_and!.
  - intros m. unfold node_keys at 1. rewrite Hn. apply Hk.
  - intros ka Hin H1 H2. rewrite He, elem_of_app. left. by apply Hed.
  - intros ka. rewrite He, elem_of_app, list_elem_of_fmap.
    intros [Hin%Hed|(l & -> & _)]; [left; tauto|by right].
  - by rewrite removed_nodes_app, removed_nodes_healing, app_nil_r.
  - intros m. by rewrite removed_nodes_app, removed_nodes_healing, app_nil_r.
Qed.

Lemma healing_removes_the_listed_nodes_witness :
  ∃ acts g' rng',
    self_healing_response damaged_graph ["X"; "Q"; "X"] (4 # 5) sample_rng
    = Some (acts, g', rng')
    ∧ (∀ m, m ∈ node_keys g' ↔ m ∈ node_keys damaged_graph ∧ m ∉ ["X"; "Q"; "X"])
    ∧ (∀ ka, ka ∈ edges damaged_graph →
             ka.1.1 ∉ ["X"; "Q"; "X"] → ka.1.2 ∉ ["X"; "Q"; "X"] → ka ∈ edges g')
    ∧ (∀ ka, ka ∈ edges g' →
             ka ∈ edges damaged_graph ∨ ka.2 = healing_attrs (4 # 5))
    ∧ NoDup (removed_nodes acts)
    ∧ (∀ m, m ∈ removed_nodes acts ↔ m ∈ ["X"; "Q"; "X"] ∧ m ∈ node_keys damaged_graph).
Proof.
  apply (healing_removes_the_listed_nodes damaged_graph ["X"; "Q"; "X"] (4 # 5) sample_rng).
  apply (bool_decide_unpack _); vm_compute; exact I.
Defined.

(** ** self_healing_response: the value ranges *)

Lemma lookup_edge_entry (l : list (node * node * EdgeAttrs)) k a :
  edges_distinct l.*1 → (k, a) ∈ l → lookup_edge k l = Some a.
Proof.
  induction l as [|[k' a'] l IH]; csimpl; [by intros _ ?%elem_of_nil|].
  intros [Hk Hl] [?|Hin]%elem_of_cons; simplify_eq.
  - rewrite decide_True; [done|by left].
  - rewrite decide_False; [by apply IH|]. intros Hse.
    rewrite Forall_forall in Hk. by apply (Hk k (list_elem_of_fmap_2 fst _ _ Hin)).
Qed.

Lemma edge_reads_entries g (h : EdgeAttrs → Q) (P : Q → Prop) :
  wf_graph g →
  Forall (λ e, P (from_option h 1 (edge_attrs g e))) (edge_keys g)
  ↔ Forall (λ ka, P (h ka.2)) (edges g).
Proof.
  intros Hwf. unfold edge_keys. rewrite Forall_fmap, !Forall_forall.
  split; intros H [k a] Hin; specialize (H (k, a) Hin); simpl in *;
    unfold edge_attrs in *;
    by rewrite (lookup_edge_entry (edges g) k a (wf_edges g Hwf) Hin) in *.
Qed.

Lemma heal_node_in_ranges g n g1 acts :
  wf_graph g → in_ranges g → heal_node g n = Some (g1, acts) → in_ranges g1.
Proof.
  intros Hwf (Hr & Hc & Hs) Hheal. destruct (decide (n ∈ node_keys g)) as [Hn|Hn];
    [|rewrite (heal_node_absent g n Hn) in Hheal; by simplify_eq].
  destruct (heal_node_present g n Hwf Hn) as (g1' & Hheal' & Hwf1 & Hk & He & Hat).
  rewrite Hheal in Hheal'. injection Hheal' as <-. split_and!.
  - rewrite resources_nonneg_all in Hr. apply Forall_forall. intros m [Hm Hmn]%Hk.
    unfold resources_of. rewrite (Hat m Hmn).
    apply node_attrs_is_Some in Hm as [a Ha]. rewrite Ha.
    case_decide as Hnb; simpl; [|rewrite (resources_of_attrs _ _ _ Ha); apply Hr].
    unfold get_resources. simpl.
    assert (0 <= resources_of g n / inject_Z (Z.of_nat (length (neighbors g n)))).
    { apply Qle_shift_div_l.
      - change 0 with (inject_Z 0). rewrite <-Zlt_Qlt.
        destruct (neighbors g n); [by apply elem_of_nil in Hnb|]. simpl. lia.
      - specialize (Hr n). lra. }
    specialize (Hr m). lra.
  - unfold capacities_positive, capacity_of in *.
    rewrite (edge_reads_entries g1 get_capacity (λ q, 0 < q) Hwf1).
    rewrite (edge_reads_entries g get_capacity (λ q, 0 < q) Hwf) in Hc.
    rewrite He, Forall_forall in *. intros ka [_ Hin]%list_elem_of_filter. auto.
  - unfold strengths_in_range, strength_of in *.
    rewrite (edge_reads_entries g1 get_strength (λ q, 0 <= q ∧ q <= 2) Hwf1).
    rewrite (edge_reads_entries g get_strength (λ q, 0 <= q ∧ q <= 2) Hwf) in Hs.
    rewrite He, Forall_forall in *. intros ka [_ Hin]%list_elem_of_filter. auto.
Qed.

Lemma remove_damaged_in_ranges g damaged_nodes g1 acts :
  wf_graph g → in_ranges g → remove_damaged g damaged_nodes = Some (g1, acts) →
  in_ranges g1.
Proof.
  revert g g1 acts. induction damaged_nodes as [|n rest IH]; intros g g1 acts Hwf Hok.
  - by intros [= <- <-].
  - rewrite remove_damaged_cons.
    destruct (heal_node g n) as [[g2 acts2]|] eqn:Hheal; [|done]. cbn [mbind option_bind].
    destruct (remove_damaged g2 rest) as [[g3 acts3]|] eqn:Hrest; [|done].
    cbn [mbind option_bind]. intros [= <- <-].
    eapply (IH g2); [|by eapply heal_node_in_ranges|done].
    destruct (decide (n ∈ node_keys g)) as [Hn|Hn].
    + destruct (heal_node_present g n Hwf Hn) as (g2' & Hheal' & Hwf2 & _). congruence.
    + rewrite (heal_node_absent g n Hn) in Hheal. by simplify_eq.
Qed.

Lemma self_healing_response_ok (g : Graph) (damaged_nodes : list node)
    (healing_factor : Q) (rng : Rng) :
  wf_graph g → in_ranges g →
  0 <= healing_factor → healing_factor <= 2 →
  ∃ acts g' rng',
    self_healing_response g damaged_nodes healing_factor rng = Some (acts, g', rng')
    ∧ wf_graph g' ∧ in_ranges g'.
Proof.
  intros Hwf (Hr & Hc & Hs) Hf0 Hf2.
  destruct (self_healing_response_run g damaged_nodes healing_factor rng Hwf)
    as (g1 & acts1 & links & g' & rng' & Hrm & Hrun & Hn & He & Hwf').
  destruct (remove_damaged_total g damaged_nodes Hwf) as (g1' & acts1' & Hrm' & Hwf1).
  rewrite Hrm in Hrm'. injection Hrm' as <- <-.
  destruct (remove_damaged_in_ranges g damaged_nodes g1 acts1 Hwf (conj Hr (conj Hc Hs)) Hrm)
    as (Hr1 & Hc1 & Hs1).
  eexists _, g', rng'. split; [done|]. split; [done|]. split_and!.
  - unfold resources_nonneg, resources_of, node_attrs, node_keys in *. by rewrite Hn.
  - unfold capacities_positive, capacity_of in *.
    rewrite (edge_reads_entries g' get_capacity (λ q, 0 < q) Hwf').
    rewrite (edge_reads_entries g1 get_capacity (λ q, 0 < q) Hwf1) in Hc1.
    rewrite He, Forall_app. split; [done|].
    apply Forall_forall. intros ka (l & -> & _)%list_elem_of_fmap. by vm_compute.
  - unfold strengths_in_range, strength_of in *.
    rewrite (edge_reads_entries g' get_strength (λ q, 0 <= q ∧ q <= 2) Hwf').
    rewrite (edge_reads_entries g1 get_strength (λ q, 0 <= q ∧ q <= 2) Hwf1) in Hs1.
    rewrite He, Forall_app. split; [done|].
    apply Forall_forall. intros ka (l & -> & _)%list_elem_of_fmap. by simpl.
Qed.

(** X14: healing hands back a graph the other algorithms accept.  From a
    graph networkx can hold with [resources] that are not negative,
    positive capacities and strengths in [0, 2], and with a
    [healing_factor] in [0, 2], the function returns such a graph again:
    the shares handed out are not negative, and every healing connection
    has capacity 5 and strength [healing_factor]. *)
Theorem healing_keeps_the_data_model (g : Graph) (damaged_nodes : list node)
    (healing_factor : Q) (rng : Rng) :
  wf_graph g → resources_nonneg g → capacities_positive g → strengths_in_range g →
  0 <= healing_factor → healing_factor <= 2 →
  ∃ acts g' rng',
    self_healing_response g damaged_nodes healing_factor rng = Some (acts, g', rng')
    ∧ wf_graph g' ∧ resources_nonneg g' ∧ capacities_positive g' ∧ strengths_in_range g'.
Proof.
  intros Hwf Hr Hc Hs Hf0 Hf2.
  by apply self_healing_response_ok.
Qed.

Lemma healing_keeps_the_data_model_witness :
  ∃ acts g' rng',
    self_healing_response damaged_graph ["X"] (4 # 5) sample_rng = Some (acts, g', rng')
    ∧ wf_graph g' ∧ resources_nonneg g' ∧ capacities_positive g' ∧ strengths_in_range g'.
Proof.
  apply (healing_keeps_the_data_model damaged_graph ["X"] (4 # 5) sample_rng).
  - apply (bool_decide_unpack _); vm_compute; exact I.
  - repeat constructor; vm_compute; congruence.
  - repeat constructor; vm_compute; congruence.
  - repeat constructor; vm_compute; congruence.
  - vm_compute; congruence.
  - vm_compute; congruence.
Defined.

Local Close Scope Q_scope.

(** ** MyceliumGraphDatabase: the two methods *)

Lemma add_mycelial_node_spec db n r ty :
  let db' := add_mycelial_node db n r ty in
  node_attrs (graph db') n = Some (mkNodeAttrs (Some r) (Some ty) (Some 1%Q) (Some 0%Z))
  ∧ node_resources db' !! n = Some r
  ∧ node_keys (graph db')
    = (if decide (n ∈ node_keys (graph db)) then node_keys (graph db)
       else node_keys (graph db) ++ [n])
  ∧ (∀ m, m ≠ n →
       node_attrs (graph db') m = node_attrs (graph db) m
       ∧ node_resources db' !! m = node_resources db !! m)
  ∧ edges (graph db') = edges (graph db)
  ∧ edge_weights db' = edge_weights db.
Proof.
  unfold add_mycelial_node. cbn [graph node_resources edge_weights]. split_and!.
  - rewrite add_node_attrs, decide_True by done. done.
  - apply lookup_insert_eq.
  - apply add_node_keys.
  - intros m Hm. split.
    + by rewrite add_node_attrs, decide_False.
    + by apply lookup_insert_ne.
  - done.
  - done.
Qed.

(** X15: [add_mycelial_node] is an upsert.  Afterwards the node holds
    exactly the given resources and type with health 1 and connections 0,
    whatever it held before, and [node_resources] mirrors the resources;
    a new id goes to the end of the node order, an id that exists keeps
    its place; every other node, every edge and [edge_weights] are left
    as they were. *)
Theorem add_mycelial_node_upserts db n r ty :
  let db' := add_mycelial_node db n r ty in
  node_attrs (graph db') n = Some (mkNodeAttrs (Some r) (Some ty) (Some 1%Q) (Some 0%Z))
  ∧ node_resources db' !! n = Some r
  ∧ node_keys (graph db')
    = (if decide (n ∈ node_keys (graph db)) then node_keys (graph db)
       else node_keys (graph db) ++ [n])
  ∧ (∀ m, m ≠ n →
       node_attrs (graph db') m = node_attrs (graph db) m
       ∧ node_resources db' !! m = node_resources db !! m)
  ∧ edges (graph db') = edges (graph db)
  ∧ edge_weights db' = edge_weights db.
Proof. apply add_mycelial_node_spec. Qed.

(** X16: [add_mycelial_connection] writes strength, capacity, flow 0 and
    the time stamp on the edge, which then reads the same in both
    orientations; an edge that was there keeps its [healing_connection]
    flag.  Other edges and the nodes that exist are untouched, so no
    [connections] counter moves.  An endpoint that is missing is created
    with an empty attribute dict, and [node_resources] gets no entry for
    it. *)
Theorem add_mycelial_connection_writes_one_edge db u v s c now :
  let db' := add_mycelial_connection db u v s c now in
  (∀ e, same_edge e (u, v) →
     edge_attrs (graph db') e
     = Some (mkEdgeAttrs (Some s) (Some c) (Some 0%Q) (Some now)
               (edge_attrs (graph db) (u, v) ≫= healing_connection)))
  ∧ (∀ e, ¬ same_edge e (u, v) → edge_attrs (graph db') e = edge_attrs (graph db) e)
  ∧ (∀ m, m ∈ node_keys (graph db) →
       node_attrs (graph db') m = node_attrs (graph db) m)
  ∧ (∀ m, m ∉ node_keys (graph db) →
       node_attrs (graph db') m
       = if decide (m = u ∨ m = v) then Some empty_node_attrs else None)
  ∧ node_resources db' = node_resources db
  ∧ edge_weights db' !! (u, v) = Some s.
Proof.
  unfold add_mycelial_connection. cbn [graph node_resources edge_weights]. split_and!.
  - intros e He. rewrite add_edge_attrs, decide_True by done.
    by destruct (edge_attrs (graph db) (u, v)).
  - intros e He. by rewrite add_edge_attrs, decide_False.
  - intros m [a Ha]%node_attrs_is_Some. by rewrite add_edge_node_attrs, Ha.
  - intros m Hm. rewrite <-node_attrs_is_Some, <-eq_None_not_Some in Hm.
    by rewrite add_edge_node_attrs, Hm.
  - done.
  - apply lookup_insert_eq.
Qed.

(** X17: connecting the same two nodes a second time in the opposite
    orientation adds no edge: the one edge takes the new strength, read
    from either side.  [edge_weights] is keyed by the ordered pair, so it
    now has two entries and the first still holds the old strength. *)
Theorem reversed_connection_leaves_stale_weight db u v s1 c1 t1 s2 c2 t2 :
  u ≠ v →
  let db1 := add_mycelial_connection db u v s1 c1 t1 in
  let db2 := add_mycelial_connection db1 v u s2 c2 t2 in
  edge_keys (graph db2) = edge_keys (graph db1)
  ∧ strength_of (graph db2) (u, v) = s2
  ∧ strength_of (graph db2) (v, u) = s2
  ∧ edge_weights db2 !! (u, v) = Some s1
  ∧ edge_weights db2 !! (v, u) = Some s2.
Proof.
  intros Huv. unfold add_mycelial_connection. cbn [graph node_resources edge_weights].
  split_and!.
  - rewrite (add_edge_keys _ v u).
    assert (has_edge (add_edge (graph db) u v
              (mkEdgeAttrs (Some s1) (Some c1) (Some 0%Q) (Some t1) None)) v u = true)
      as ->; [|done].
    apply (edge_attrs_is_Some _ (v, u)). rewrite add_edge_attrs.
    rewrite decide_True by apply same_edge_swap. by eexists.
  - unfold strength_of. rewrite add_edge_attrs.
    by rewrite decide_True by apply same_edge_swap.
  - unfold strength_of. rewrite add_edge_attrs.
    by rewrite decide_True by (by left).
  - rewrite lookup_insert_ne by congruence. apply lookup_insert_eq.
  - apply lookup_insert_eq.
Qed.

Lemma reversed_connection_leaves_stale_weight_witness :
  let db1 := add_mycelial_connection (new_database true) "a" "b" 1 10 0 in
  let db2 := add_mycelial_connection db1 "b" "a" (1 # 2) 5 7 in
  edge_keys (graph db2) = edge_keys (graph db1)
  ∧ strength_of (graph db2) ("a", "b") = (1 # 2)%Q
  ∧ strength_of (graph db2) ("b", "a") = (1 # 2)%Q
  ∧ edge_weights db2 !! ("a", "b") = Some 1%Q
  ∧ edge_weights db2 !! ("b", "a") = Some (1 # 2)%Q.
Proof.
  apply (reversed_connection_leaves_stale_weight (new_database true) "a" "b").
  congruence.
Defined.

(** X18: whatever sequence of [add_mycelial_node] and
    [add_mycelial_connection] calls built a database, its graph is one
    networkx can hold, every [node_resources] entry equals the resources
    on the node, every [edge_weights] key is an edge of the graph, every
    edge carries strength and capacity and none is flagged as healing
    connection, and the two rates are the constructor's 0.8 and 0.1. *)
Theorem built_database_invariants db :
  built db →
  wf_graph (graph db)
  ∧ (∀ n r, node_resources db !! n = Some r →
       resources <$> node_attrs (graph db) n = Some (Some r))
  ∧ (∀ u v s, edge_weights db !! (u, v) = Some s → has_edge (graph db) u v = true)
  ∧ (∀ e a, edge_attrs (graph db) e = Some a →
       is_Some (strength a) ∧ is_Some (capacity a) ∧ healing_connection a = None)
  ∧ healing_factor db = (4 # 5)%Q
  ∧ growth_rate db = (1 # 10)%Q.
Proof.
  induction 1 as [u|db n r ty Hb (Hwf & Hres & Hw & Hattr & Hh & Hg)
                  |db u v s c now Hb (Hwf & Hres & Hw & Hattr & Hh & Hg)].
  - split_and!; try done.
    apply (bool_decide_unpack _). vm_compute. exact I.
  - unfold add_mycelial_node.
    cbn [graph node_resources edge_weights healing_factor growth_rate].
    split_and!; try done.
    + by apply add_node_wf.
    + intros m q. rewrite add_node_attrs. case_decide as Hm.
      * subst m. rewrite lookup_insert_eq. by intros [= ->].
      * rewrite lookup_insert_ne by done. apply Hres.
  - unfold add_mycelial_connection.
    cbn [graph node_resources edge_weights healing_factor growth_rate].
    split_and!; try done.
    + by apply add_edge_wf.
    + intros m q Hm. rewrite add_edge_node_attrs.
      specialize (Hres m q Hm). by destruct (node_attrs (graph db) m).
    + intros a b q Hq. apply (edge_attrs_is_Some _ (a, b)). rewrite add_edge_attrs.
      case_decide as H; [by eexists|].
      apply (edge_attrs_is_Some _ (a, b)).
      destruct (decide ((u, v) = (a, b))) as [[= -> ->]|Hne].
      * exfalso. apply H. by left.
      * rewrite lookup_insert_ne in Hq by done. eauto.
    + intros e a. rewrite add_edge_attrs. case_decide; [|by apply Hattr].
      intros [= <-]. cbn. split_and!; [by eexists..|].
      destruct (edge_attrs (graph db) (u, v)) as [a|] eqn:Ha; [|done].
      by apply Hattr in Ha as (_ & _ & ?).
Qed.

Lemma built_database_invariants_witness :
  let db := add_mycelial_connection
              (add_mycelial_node (add_mycelial_node (new_database true) "a" 100 "source")
                 "b" 40 "sink") "b" "c" 1 10 0 in
  wf_graph (graph db)
  ∧ (∀ n r, node_resources db !! n = Some r →
       resources <$> node_attrs (graph db) n = Some (Some r))
  ∧ (∀ u v s, edge_weights db !! (u, v) = Some s → has_edge (graph db) u v = true)
  ∧ (∀ e a, edge_attrs (graph db) e = Some a →
       is_Some (strength a) ∧ is_Some (capacity a) ∧ healing_connection a = None)
  ∧ healing_factor db = (4 # 5)%Q
  ∧ growth_rate db = (1 # 10)%Q.
Proof.
  apply built_database_invariants. repeat constructor.
Defined.

Local Open Scope Q_scope.

Lemma add_node_in_ranges g n r ty h k :
  0 <= r → in_ranges g → in_ranges (add_node g n (mkNodeAttrs (Some r) ty h k)).
Proof.
  intros Hr (Hres & Hcap & Hstr). split_and!; [|done..].
  apply resources_nonneg_all. intros m. unfold resources_of.
  rewrite add_node_attrs. case_decide; [done|].
  by apply resources_nonneg_all.
Qed.

Lemma add_edge_in_ranges g u v s c f t h :
  0 <= s → s <= 2 → 0 < c → in_ranges g →
  in_ranges (add_edge g u v (mkEdgeAttrs (Some s) (Some c) f t h)).
Proof.
  intros Hs1 Hs2 Hc (Hres & Hcap & Hstr). split_and!.
  - apply resources_nonneg_all. intros m. unfold resources_of.
    rewrite add_edge_node_attrs.
    rewrite resources_nonneg_all in Hres. specialize (Hres m).
    unfold resources_of in Hres.
    destruct (node_attrs g m); [done|]. case_decide; simpl; [unfold get_resources; simpl|]; lra.
  - apply capacities_positive_all. intros e. unfold capacity_of.
    rewrite add_edge_attrs. case_decide; [done|]. by apply capacities_positive_all.
  - apply strengths_in_range_all. intros e. unfold strength_of.
    rewrite add_edge_attrs. case_decide; [done|]. by apply strengths_in_range_all.
Qed.

Lemma add_mycelial_node_ok db n r ty :
  db_ok db → 0 <= r → db_ok (add_mycelial_node db n r ty).
Proof.
  intros [Hwf Hr] ?. split; cbn [graph add_mycelial_node].
  - by apply add_node_wf.
  - by apply add_node_in_ranges.
Qed.

Lemma add_mycelial_connection_ok db u v s c now :
  db_ok db → 0 <= s → s <= 2 → 0 < c →
  db_ok (add_mycelial_connection db u v s c now).
Proof.
  intros [Hwf Hr] ???. split; cbn [graph add_mycelial_connection].
  - by apply add_edge_wf.
  - by apply add_edge_in_ranges.
Qed.

(** X19: the two methods keep the data model when their arguments are in
    range: with resources at least 0, a strength between 0 and 2 and a
    positive capacity, the graph stays one networkx can hold, resources
    stay non-negative, capacities positive and strengths within 0 and 2,
    also when the connection creates its endpoints or overwrites an
    edge. *)
Theorem methods_keep_the_data_model db n r ty u v s c now :
  db_ok db → 0 <= r → 0 <= s → s <= 2 → 0 < c →
  db_ok (add_mycelial_node db n r ty)
  ∧ db_ok (add_mycelial_connection db u v s c now).
Proof.
  intros Hok ????. split.
  - by apply add_mycelial_node_ok.
  - by apply add_mycelial_connection_ok.
Qed.

Lemma methods_keep_the_data_model_witness :
  db_ok (add_mycelial_node (new_database true) "a" 100 "source")
  ∧ db_ok (add_mycelial_connection (new_database true) "a" "b" 1 10 0).
Proof.
  apply methods_keep_the_data_model.
  - split; [apply (bool_decide_unpack _); vm_compute; exact I|].
    repeat constructor.
  - vm_compute; congruence.
  - vm_compute; congruence.
  - vm_compute; congruence.
  - reflexivity.
Defined.

(** ** create_mycelium_inspired_network *)

Lemma randint_range a b r : (a <= b)%Z → (a <= (randint a b r).1 <= b)%Z.
Proof.
  intros Hab. unfold randint. cbn [fst].
  pose proof (Nat.mod_upper_bound (index_draw r (position r)) (Z.to_nat (b - a + 1))).
  lia.
Qed.

Lemma inject_Z_nonneg z : (0 <= z)%Z → 0 <= inject_Z z.
Proof. intros Hz. unfold Qle. simpl. lia. Qed.

Lemma inject_Z_pos z : (0 < z)%Z → 0 < inject_Z z.
Proof. intros Hz. unfold Qlt. simpl. lia. Qed.

(** The first loop: an invariant that every [add_mycelial_node] call with
    resources between 50 and 150 keeps is kept by the loop. *)
Lemma network_nodes_invariant (P : MyceliumGraphDatabase → Prop) num_nodes :
  (∀ db id r ty, (50 <= r <= 150)%Z → P db → P (add_mycelial_node db id (inject_Z r) ty)) →
  ∀ count db i rng,
    P db →
    P (network_nodes db num_nodes i count rng).1
    ∧ unit_draw (network_nodes db num_nodes i count rng).2 = unit_draw rng.
Proof.
  intros Hstep count. induction count as [|count IH]; intros db i rng HP; [done|].
  cbn [network_nodes]. unfold randint at 1 2.
  destruct (IH (add_mycelial_node db ("node_" +:+ pretty i)
                  (inject_Z (50 + Z.of_nat (index_draw rng (position rng)
                                             `mod` Z.to_nat (150 - 50 + 1))))
                  (network_node_type num_nodes i)) (S i) (advance rng)) as [H1 H2].
  - apply Hstep; [|done]. apply (randint_range 50 150 rng). lia.
  - done.
Qed.

Section connection_loops.
Variables (clock : nat → Q) (connection_prob : Q) (len : nat).
Variables (ns : list node) (ud : nat → Q).
Variable P : nat → nat → MyceliumGraphDatabase → Prop.

(** [P i j db]: [db] is the database when the loops are about to look at
    the pair of positions [(i, j)]. *)
Hypothesis P_skip : ∀ i j db, (i < j < length ns)%nat → P i j db → P i (S j) db.
Hypothesis P_connect : ∀ i j db node1 node2 k c now,
  ns !! i = Some node1 → ns !! j = Some node2 → (i < j)%nat →
  (5 <= c <= 15)%Z →
  P i j db →
  P i (S j) (add_mycelial_connection db node1 node2
               ((1 # 2) + ((3 # 2) - (1 # 2)) * ud k) (inject_Z c) now).
Hypothesis P_next : ∀ i db, (i < length ns)%nat → P i (length ns) db → P (S i) (S (S i)) db.

Lemma network_row_invariant i node1 :
  ns !! i = Some node1 →
  ∀ rest j db rng,
    rest = drop j ns → (i < j)%nat → (j <= length ns)%nat → unit_draw rng = ud →
    P i j db →
    P i (length ns) (network_row clock connection_prob len db i node1 j rest rng).1
    ∧ unit_draw (network_row clock connection_prob len db i node1 j rest rng).2 = ud.
Proof.
  intros Hi rest. induction rest as [|node2 rest IH]; intros j db rng Hrest Hij Hj Hud HP.
  - split; [|done]. cbn [network_row fst].
    apply (f_equal length) in Hrest. rewrite length_drop in Hrest. simpl in Hrest.
    by replace (length ns) with j by lia.
  - assert (ns !! j = Some node2) as Hn2.
    { by rewrite <-(Nat.add_0_r j), <-lookup_drop, <-Hrest. }
    assert (rest = drop (S j) ns) as Hrest'.
    { rewrite (drop_S _ _ _ Hn2) in Hrest. by injection Hrest. }
    apply lookup_lt_Some in Hn2 as Hlt.
    cbn [network_row]. unfold random at 1 2, uniform, random, randint.
    destruct (Qgtb _ _).
    + apply IH; [done|lia|lia|done|].
      cbn [advance unit_draw]. rewrite Hud. apply P_connect; try done.
      apply (randint_range 5 15 (advance (advance rng))). lia.
    + apply IH; [done|lia|lia|done|]. apply P_skip; [lia|done].
Qed.

Lemma network_rows_invariant :
  ∀ rest i db rng,
    rest = drop i ns → (i <= length ns)%nat → unit_draw rng = ud →
    P i (S i) db →
    P (length ns) (S (length ns))
      (network_rows clock connection_prob len db i rest rng).1
    ∧ unit_draw (network_rows clock connection_prob len db i rest rng).2 = ud.
Proof.
  intros rest. induction rest as [|node1 rest IH]; intros i db rng Hrest Hi Hud HP.
  - split; [|done]. cbn [network_rows fst].
    apply (f_equal length) in Hrest. rewrite length_drop in Hrest. simpl in Hrest.
    by replace (length ns) with i by lia.
  - assert (ns !! i = Some node1) as Hn1.
    { by rewrite <-(Nat.add_0_r i), <-lookup_drop, <-Hrest. }
    assert (rest = drop (S i) ns) as Hrest'.
    { rewrite (drop_S _ _ _ Hn1) in Hrest. by injection Hrest. }
    apply lookup_lt_Some in Hn1 as Hlt.
    cbn [network_rows].
    destruct (network_row_invariant i node1 Hn1 rest (S i) db rng) as [H1 H2];
      [done|lia|lia|done|done|].
    destruct (network_row clock connection_prob len db i node1 (S i) rest rng)
      as [db' rng'].
    apply IH; [done|lia|done|]. by apply P_next.
Qed.

End connection_loops.

Lemma create_mycelium_inspired_network_ok clock db num_nodes connection_prob rng :
  db_ok db →
  (∀ k, 0 <= unit_draw rng k ∧ unit_draw rng k <= 1) →
  let db' := (create_mycelium_inspired_network clock db num_nodes connection_prob rng).1 in
  db_ok db' ∧ healing_factor db' = healing_factor db.
Proof.
  intros Hok Hud. cbv zeta. unfold create_mycelium_inspired_network.
  destruct (network_nodes_invariant
              (λ d, db_ok d ∧ healing_factor d = healing_factor db) num_nodes) with
    (count := Z.to_nat num_nodes) (db := db) (i := 0%nat) (rng := rng) as [H1 H2];
    [|done|].
  { intros db0 id r ty Hr [Hdb Hf]. split; [|done].
    apply (add_mycelial_node_ok db0 id (inject_Z r) ty); [done|].
    apply inject_Z_nonneg. lia. }
  destruct (network_nodes db num_nodes 0 (Z.to_nat num_nodes) rng) as [db1 rng1].
  cbn [fst snd] in *.
  apply (network_rows_invariant clock connection_prob (length (node_keys (graph db1)))
           (node_keys (graph db1)) (unit_draw rng)
           (λ _ _ d, db_ok d ∧ healing_factor d = healing_factor db)); try done; [|lia].
  intros i j db0 node1 node2 k c now _ _ _ Hc [Hdb Hf]. split; [|done].
  destruct (Hud k).
  apply add_mycelial_connection_ok; [done|lra|lra|].
  apply inject_Z_pos. lia.
Qed.

(** X20: [create_mycelium_inspired_network] keeps the data model.  When
    the database it is given satisfies it and [random.random()] returns
    numbers between 0 and 1, the database it returns has a graph networkx
    can hold, non-negative resources, positive capacities and strengths
    within 0 and 2, whatever the number of nodes and the probability. *)
Theorem generator_keeps_the_data_model clock db num_nodes connection_prob rng :
  db_ok db →
  (∀ k, 0 <= unit_draw rng k ∧ unit_draw rng k <= 1) →
  db_ok (create_mycelium_inspired_network clock db num_nodes connection_prob rng).1.
Proof.
  intros Hok Hud.
  by apply (create_mycelium_inspired_network_ok clock db num_nodes connection_prob rng).
Qed.

Lemma generator_keeps_the_data_model_witness :
  db_ok (create_mycelium_inspired_network (λ _, 0) (new_database true) 4 (1 # 2)
           sample_rng).1.
Proof.
  apply generator_keeps_the_data_model.
  - split; [apply (bool_decide_unpack _); vm_compute; exact I|].
    repeat constructor.
  - intros k. cbn [sample_rng unit_draw].
    destruct (Nat.even k); split; vm_compute; congruence.
Defined.

Lemma node_name_inj (i j : nat) : "node_" +:+ pretty i = "node_" +:+ pretty j → i = j.
Proof. intros H. apply (inj (String.append "node_")) in H. by apply (inj pretty) in H. Qed.

Lemma list_filter_ext_in {A} (P1 P2 : A → Prop)
    `{!∀ x, Decision (P1 x), !∀ x, Decision (P2 x)} (l : list A) :
  (∀ x, x ∈ l → P1 x ↔ P2 x) → filter P1 l = filter P2 l.
Proof.
  induction l as [|x l IH]; intros Hext; [done|].
  rewrite !filter_cons. rewrite IH by (intros; apply Hext; by right).
  destruct (decide (P1 x)), (decide (P2 x)); try done;
    exfalso; specialize (Hext x); rewrite elem_of_cons in Hext; naive_solver.
Qed.

(** What the first loop leaves behind, for [count] rounds from index [i]. *)
Lemma network_nodes_spec num_nodes count :
  ∀ db i rng,
    let db' := (network_nodes db num_nodes i count rng).1 in
    node_keys (graph db')
    = node_keys (graph db)
      ++ filter (λ m, m ∉ node_keys (graph db))
           ((λ k : nat, "node_" +:+ pretty k) <$> seq i count)
    ∧ (∀ k, (k < count)%nat →
         let r := inject_Z (50 + Z.of_nat (index_draw rng (position rng + k) `mod` 101)) in
         node_attrs (graph db') ("node_" +:+ pretty (i + k)%nat)
         = Some (mkNodeAttrs (Some r) (Some (network_node_type num_nodes (i + k)))
                   (Some 1) (Some 0%Z))
         ∧ node_resources db' !! ("node_" +:+ pretty (i + k)%nat) = Some r)
    ∧ (∀ m, m ∉ (λ k : nat, "node_" +:+ pretty k) <$> seq i count →
         node_attrs (graph db') m = node_attrs (graph db) m
         ∧ node_resources db' !! m = node_resources db !! m)
    ∧ edges (graph db') = edges (graph db)
    ∧ edge_weights db' = edge_weights db.
Proof.
  induction count as [|count IH]; intros db i rng.
  - cbn. rewrite app_nil_r. split_and!; try done. intros k ?. lia.
  - cbn [network_nodes]. unfold randint.
    change (Z.to_nat (150 - 50 + 1)) with 101%nat.
    set (r0 := inject_Z (50 + Z.of_nat (index_draw rng (position rng) `mod` 101))).
    set (db1 := add_mycelial_node db ("node_" +:+ pretty i) r0
                  (network_node_type num_nodes i)).
    destruct (IH db1 (S i) (advance rng)) as (Hk & Ha & Ho & He & Hw).
    destruct (add_mycelial_node_spec db ("node_" +:+ pretty i) r0
                (network_node_type num_nodes i)) as (Ha1 & Hr1 & Hk1 & Ho1 & He1 & Hw1).
    fold db1 in Ha1, Hr1, Hk1, Ho1, He1, Hw1.
    assert ("node_" +:+ pretty i ∉ (λ k : nat, "node_" +:+ pretty k) <$> seq (S i) count)
      as Hfresh.
    { intros (k & Hk' & Hin)%list_elem_of_fmap. apply node_name_inj in Hk'. subst k.
      apply elem_of_seq in Hin. lia. }
    cbv zeta. split_and!.
    + rewrite Hk, Hk1. cbn [seq]. rewrite fmap_cons. case_decide as Hin.
      * by rewrite filter_cons_False by (intros ?; done).
      * rewrite filter_cons_True by done. rewrite <-app_assoc. cbn [app]. do 2 f_equal.
        apply list_filter_ext_in. intros x Hx. rewrite not_elem_of_app.
        rewrite list_elem_of_singleton. split; [tauto|]. intros ?. split; [done|].
        intros ->. done.
    + intros [|k] Hlt.
      * rewrite !Nat.add_0_r. destruct (Ho _ Hfresh) as [E1 E2]. rewrite E1.
        split; [done|]. etrans; [exact E2|done].
      * replace (i + S k)%nat with (S i + k)%nat by lia.
        replace (position rng + S k)%nat with (position (advance rng) + k)%nat
          by (cbn; lia).
        apply Ha. lia.
    + intros m Hm. cbn [seq] in Hm. rewrite fmap_cons, not_elem_of_cons in Hm.
      destruct Hm as [Hm1 Hm2]. destruct (Ho m Hm2) as [-> ->]. by apply Ho1.
    + by rewrite He.
    + by rewrite Hw.
Qed.

Lemma add_edge_nodes_present g u v attr :
  u ∈ node_keys g → v ∈ node_keys g → nodes (add_edge g u v attr) = nodes g.
Proof.
  intros Hu Hv. unfold add_edge, ensure_node. cbn [nodes].
  rewrite (decide_True (P := u ∈ (nodes g).*1)) by done.
  by rewrite decide_True.
Qed.

(** The second loop leaves the nodes alone. *)
Lemma network_rows_nodes clock connection_prob db rng :
  let ns := node_keys (graph db) in
  let db' := (network_rows clock connection_prob (length ns) db 0 ns rng).1 in
  nodes (graph db') = nodes (graph db) ∧ node_resources db' = node_resources db.
Proof.
  cbv zeta.
  apply (network_rows_invariant clock connection_prob (length (node_keys (graph db)))
           (node_keys (graph db)) (unit_draw rng)
           (λ _ _ d, nodes (graph d) = nodes (graph db)
                     ∧ node_resources d = node_resources db)); try done; [|lia].
  intros i j d node1 node2 k c now Hi Hj _ _ [Hn Hr].
  apply list_elem_of_lookup_2 in Hi, Hj.
  unfold add_mycelial_connection. cbn [graph node_resources]. split; [|done].
  rewrite add_edge_nodes_present; [done|unfold node_keys in *; by rewrite Hn..].
Qed.

(** X21: the nodes [create_mycelium_inspired_network] leaves behind.  The
    ids [node_0], [node_1], ... that are new are appended to the node
    order in turn, behind the nodes that were there.  Node [i] holds the
    i-th number drawn, an integer between 50 and 150, with the type its
    index gives, health 1 and connections 0, and [node_resources] has the
    same resources, also when the id existed before with other values.
    Nodes with other ids keep their attributes: the connection loop
    creates and changes no node. *)
Theorem generator_fills_the_nodes clock db num_nodes connection_prob rng :
  let db' := (create_mycelium_inspired_network clock db num_nodes connection_prob rng).1 in
  let names := (λ k : nat, "node_" +:+ pretty k) <$> seq 0 (Z.to_nat num_nodes) in
  node_keys (graph db')
  = node_keys (graph db) ++ filter (λ m, m ∉ node_keys (graph db)) names
  ∧ (∀ i, (i < Z.to_nat num_nodes)%nat →
       let r := inject_Z (50 + Z.of_nat (index_draw rng (position rng + i) `mod` 101)) in
       50 <= r ∧ r <= 150
       ∧ node_attrs (graph db') ("node_" +:+ pretty i)
         = Some (mkNodeAttrs (Some r) (Some (network_node_type num_nodes i))
                   (Some 1) (Some 0%Z))
       ∧ node_resources db' !! ("node_" +:+ pretty i) = Some r)
  ∧ (∀ m, m ∉ names →
       node_attrs (graph db') m = node_attrs (graph db) m
       ∧ node_resources db' !! m = node_resources db !! m).
Proof.
  cbv zeta. unfold create_mycelium_inspired_network.
  destruct (network_nodes_spec num_nodes (Z.to_nat num_nodes) db 0%nat rng)
    as (Hk & Ha & Ho & _).
  destruct (network_nodes db num_nodes 0 (Z.to_nat num_nodes) rng) as [db1 rng1].
  cbn [fst] in Hk, Ha, Ho.
  destruct (network_rows_nodes clock connection_prob db1 rng1) as [Hn Hr].
  unfold node_attrs, node_keys in *. rewrite Hn, Hr. split_and!.
  - done.
  - intros i Hi. destruct (Ha i Hi) as [E1 E2]. split_and!; [| |done..].
    + change 50 with (inject_Z 50). rewrite <-Zle_Qle. lia.
    + change 150 with (inject_Z 150). rewrite <-Zle_Qle.
      pose proof (Nat.mod_upper_bound (index_draw rng (position rng + i)) 101). lia.
  - done.
Qed.

Lemma edges_so_far_connect ns i j db node1 node2 s c now :
  NoDup ns →
  ns !! i = Some node1 → ns !! j = Some node2 → (i < j)%nat →
  edges_so_far ns i j db →
  edges_so_far ns i (S j) (add_mycelial_connection db node1 node2 s c now).
Proof.
  intros Hnd Hi Hj Hij [Hk He].
  assert (∀ e, e ∈ edge_keys (graph db) → ¬ same_edge e (node1, node2)) as Hnew.
  { intros e (i' & j' & Hij' & Hlex & Hi' & Hj' & _)%He [[E1 E2]|[E1 E2]];
      cbn [fst snd] in E1, E2; rewrite E1 in Hi'; rewrite E2 in Hj'.
    - pose proof (NoDup_lookup _ _ _ _ Hnd Hi' Hi).
      pose proof (NoDup_lookup _ _ _ _ Hnd Hj' Hj). lia.
    - pose proof (NoDup_lookup _ _ _ _ Hnd Hi' Hj).
      pose proof (NoDup_lookup _ _ _ _ Hnd Hj' Hi). lia. }
  assert (has_edge (graph db) node1 node2 = false) as Hno.
  { apply not_true_iff_false. rewrite has_edge_true, Exists_exists.
    intros (e & Hin & Hse). by apply (Hnew e). }
  unfold edges_so_far, add_mycelial_connection. cbn [graph edge_weights]. split.
  - unfold node_keys. rewrite add_edge_nodes_present; [done|rewrite Hk..].
    + by eapply list_elem_of_lookup_2.
    + by eapply list_elem_of_lookup_2.
  - intros e. rewrite add_edge_keys, Hno, elem_of_app, list_elem_of_singleton.
    unfold strength_of. rewrite add_edge_attrs. intros [Hin| ->].
    + destruct (He e Hin) as (i' & j' & Hij' & Hlex & Hi' & Hj' & Hw).
      exists i', j'. split_and!; [done|lia|done|done|].
      rewrite decide_False by by apply Hnew.
      rewrite lookup_insert_ne; [done|]. intros <-. apply (Hnew _ Hin). by left.
    + exists i, j. split_and!; [done|lia|done|done|].
      rewrite decide_True by (by left). by rewrite lookup_insert_eq.
Qed.

(** X22: the edges [create_mycelium_inspired_network] makes in a database
    whose graph had none.  Every edge joins two different nodes and was
    added from the node that comes first in the node order to the one
    that comes later, and [edge_weights] holds, under that ordered pair,
    the strength that is on the edge: no pair is visited twice, so no
    entry goes stale. *)
Theorem generator_edges_follow_node_order clock db num_nodes connection_prob rng :
  wf_graph (graph db) → edges (graph db) = [] →
  let db' := (create_mycelium_inspired_network clock db num_nodes connection_prob rng).1 in
  Forall (λ e,
      e.1 ≠ e.2
      ∧ (∃ i j : nat, (i < j)%nat
           ∧ node_keys (graph db') !! i = Some e.1
           ∧ node_keys (graph db') !! j = Some e.2)
      ∧ edge_weights db' !! e = Some (strength_of (graph db') e))
    (edge_keys (graph db')).
Proof.
  intros Hwf Hnil. cbv zeta. unfold create_mycelium_inspired_network.
  destruct (network_nodes_invariant
              (λ d, wf_graph (graph d) ∧ edges (graph d) = []) num_nodes)
    with (count := Z.to_nat num_nodes) (db := db) (i := 0%nat) (rng := rng)
    as [[Hwf1 Hnil1] _]; [|done|].
  { intros d id r ty _ [??]. split; [by apply add_node_wf|done]. }
  destruct (network_nodes db num_nodes 0 (Z.to_nat num_nodes) rng) as [db1 rng1].
  cbn [fst] in Hwf1, Hnil1.
  pose proof (wf_nodes _ Hwf1) as Hnd.
  destruct (network_rows_invariant clock connection_prob
              (length (node_keys (graph db1))) (node_keys (graph db1))
              (unit_draw rng1) (edges_so_far (node_keys (graph db1))))
    with (rest := node_keys (graph db1)) (i := 0%nat) (db := db1) (rng := rng1)
    as [[Hk He] _]; try done.
  - intros i j d _ (Hk & He). split; [done|].
    intros e (i' & j' & ? & ? & ?)%He. exists i', j'. split_and!; try tauto. lia.
  - intros i j d node1 node2 k c now Hi Hj Hij _ Hd.
    by apply edges_so_far_connect.
  - intros i d _ (Hk & He). split; [done|].
    intros e (i' & j' & ? & ? & ?)%He. exists i', j'. split_and!; try tauto. lia.
  - lia.
  - split; [done|]. unfold edge_keys. rewrite Hnil1. by intros e ?%elem_of_nil.
  - apply Forall_forall.
    intros e (i' & j' & Hij & _ & Hi & Hj & Hw)%He. rewrite Hk. split_and!.
    + intros Heq. rewrite <-Heq in Hj.
      pose proof (NoDup_lookup _ _ _ _ Hnd Hi Hj). lia.
    + by exists i', j'.
    + done.
Qed.

Lemma generator_edges_follow_node_order_witness :
  let db' := (create_mycelium_inspired_network (λ _, 0) (new_database true) 4 (1 # 2)
                sample_rng).1 in
  Forall (λ e,
      e.1 ≠ e.2
      ∧ (∃ i j : nat, (i < j)%nat
           ∧ node_keys (graph db') !! i = Some e.1
           ∧ node_keys (graph db') !! j = Some e.2)
      ∧ edge_weights db' !! e = Some (strength_of (graph db') e))
    (edge_keys (graph db')).
Proof.
  apply generator_edges_follow_node_order.
  - apply (bool_decide_unpack _). vm_compute. exact I.
  - reflexivity.
Defined.

Lemma connection_prob_nonpos connection_prob (i j len : nat) :
  connection_prob <= 0 → (i < j)%nat → (j < len)%nat →
  connection_prob
  * (1 - Qabs (inject_Z (Z.of_nat i) - inject_Z (Z.of_nat j)) / inject_Z (Z.of_nat len))
  <= 0.
Proof.
  intros Hp Hij Hj.
  assert (inject_Z (Z.of_nat i) <= inject_Z (Z.of_nat j)) as H1
    by (rewrite <-Zle_Qle; lia).
  assert (inject_Z (Z.of_nat j) <= inject_Z (Z.of_nat len)) as H2
    by (rewrite <-Zle_Qle; lia).
  assert (0 <= inject_Z (Z.of_nat i)) as H3 by (apply inject_Z_nonneg; lia).
  assert (0 < inject_Z (Z.of_nat len)) as H4 by (apply inject_Z_pos; lia).
  assert (Qabs (inject_Z (Z.of_nat i) - inject_Z (Z.of_nat j)) / inject_Z (Z.of_nat len)
          <= 1) as H5.
  { apply Qle_shift_div_r; [done|]. rewrite Qabs_neg by lra. lra. }
  nra.
Qed.

Lemma network_row_no_connection clock connection_prob len i node1 :
  connection_prob <= 0 →
  ∀ rest j db rng,
    (∀ k, 0 <= unit_draw rng k) → (i < j)%nat → (j + length rest <= len)%nat →
    (network_row clock connection_prob len db i node1 j rest rng).1 = db
    ∧ unit_draw (network_row clock connection_prob len db i node1 j rest rng).2
      = unit_draw rng.
Proof.
  intros Hp rest. induction rest as [|node2 rest IH]; intros j db rng Hud Hij Hlen; [done|].
  cbn [length] in Hlen. cbn [network_row]. unfold random at 1 2.
  rewrite (proj2 (Qgtb_false _ _)).
  - apply (IH (S j) db (advance rng)); [done|lia|lia].
  - eapply Qle_trans; [apply connection_prob_nonpos; [done|lia|lia]|apply Hud].
Qed.

Lemma network_rows_no_connection clock connection_prob len :
  connection_prob <= 0 →
  ∀ rest i db rng,
    (∀ k, 0 <= unit_draw rng k) → (i + length rest <= len)%nat →
    (network_rows clock connection_prob len db i rest rng).1 = db.
Proof.
  intros Hp rest. induction rest as [|node1 rest IH]; intros i db rng Hud Hlen; [done|].
  cbn [length] in Hlen. cbn [network_rows].
  destruct (network_row_no_connection clock connection_prob len i node1 Hp
              rest (S i) db rng) as [H1 H2]; [done|lia|lia|].
  destruct (network_row clock connection_prob len db i node1 (S i) rest rng)
    as [db' rng'].
  cbn [fst snd] in H1, H2. subst db'. apply IH; [|lia].
  intros k. rewrite H2. apply Hud.
Qed.

(** X23: with a connection probability of 0 or less
    [create_mycelium_inspired_network] makes no connection: the edges of
    the graph and [edge_weights] are those of the database it was given,
    provided [random.random()] returns no negative number. *)
Theorem generator_without_probability_connects_nothing clock db num_nodes
    connection_prob rng :
  connection_prob <= 0 →
  (∀ k, 0 <= unit_draw rng k) →
  let db' := (create_mycelium_inspired_network clock db num_nodes connection_prob rng).1 in
  edges (graph db') = edges (graph db) ∧ edge_weights db' = edge_weights db.
Proof.
  intros Hp Hud. cbv zeta. unfold create_mycelium_inspired_network.
  destruct (network_nodes_spec num_nodes (Z.to_nat num_nodes) db 0%nat rng)
    as (_ & _ & _ & He & Hw).
  destruct (network_nodes_invariant (λ _, True) num_nodes) with
    (count := Z.to_nat num_nodes) (db := db) (i := 0%nat) (rng := rng) as [_ H2];
    [done..|].
  destruct (network_nodes db num_nodes 0 (Z.to_nat num_nodes) rng) as [db1 rng1].
  cbn [fst snd] in He, Hw, H2.
  rewrite network_rows_no_connection; [done..| |cbn; lia].
  intros k. rewrite H2. apply Hud.
Qed.

Lemma generator_without_probability_connects_nothing_witness :
  let db' := (create_mycelium_inspired_network (λ _, 0) (new_database true) 4 0
                sample_rng).1 in
  edges (graph db') = edges (graph (new_database true))
  ∧ edge_weights db' = edge_weights (new_database true).
Proof.
  apply generator_without_probability_connects_nothing.
  - vm_compute. congruence.
  - intros k. cbn [sample_rng unit_draw]. destruct (Nat.even k); vm_compute; congruence.
Defined.

(** ** The generator, the simulation and the healing together *)

Lemma flow_steps_in_ranges g n :
  wf_graph g → in_ranges g →
  ∃ h g', flow_steps g n = Some (h, g') ∧ wf_graph g' ∧ in_ranges g'.
Proof.
  intros Hwf Hr.
  apply (flow_steps_invariant in_ranges); [|done..].
  clear. intros g fs g' Hwf (Hr & Hc & Hs) Hstep. split_and!.
  - eapply (flow_step_resources_nonneg g); [done| |done]. split; [done|].
    apply capacities_nonneg_all. intros e. apply Qlt_le_weak.
    by apply capacities_positive_all.
  - by eapply flow_step_capacities_positive.
  - by eapply flow_step_strengths.
Qed.

(** X24: the three parts fit together.  A database in the data model whose
    [healing_factor] lies in [0, 2], as the constructor's 0.8 does, is
    given to [create_mycelium_inspired_network]; on the graph that comes
    back [nutrient_flow_simulation] runs for any number of steps without
    an exception, and on what it leaves [self_healing_response], called
    with the database's [healing_factor] and any list of damaged nodes,
    runs without an exception too and returns a graph that is in the data
    model again. *)
Theorem generated_network_runs_through clock db num_nodes connection_prob rng
    source_nodes sink_nodes time_steps damaged_nodes :
  db_ok db → 0 <= healing_factor db → healing_factor db <= 2 →
  (∀ k, 0 <= unit_draw rng k ∧ unit_draw rng k <= 1) →
  let made := create_mycelium_inspired_network clock db num_nodes connection_prob rng in
  ∃ flow_history g1 acts g2 rng2,
    nutrient_flow_simulation (graph made.1) source_nodes sink_nodes time_steps
    = Some (flow_history, g1)
    ∧ self_healing_response g1 damaged_nodes (healing_factor made.1) made.2
      = Some (acts, g2, rng2)
    ∧ wf_graph g2 ∧ in_ranges g2.
Proof.
  intros Hok Hf0 Hf2 Hud. cbv zeta.
  destruct (create_mycelium_inspired_network_ok clock db num_nodes connection_prob rng
              Hok Hud) as [[Hwf Hr] Hf].
  destruct (flow_steps_in_ranges _ (Z.to_nat time_steps) Hwf Hr)
    as (h & g1 & Hh & Hwf1 & Hr1).
  destruct (self_healing_response_ok g1 damaged_nodes
              (healing_factor (create_mycelium_inspired_network clock db num_nodes
                                 connection_prob rng).1)
              (create_mycelium_inspired_network clock db num_nodes
                 connection_prob rng).2 Hwf1 Hr1)
    as (acts & g2 & rng2 & Hheal & Hwf2 & Hr2); [by rewrite Hf..|].
  by exists h, g1, acts, g2, rng2.
Qed.

Lemma generated_network_runs_through_witness :
  let made := create_mycelium_inspired_network (λ _, 0) (new_database true) 4 (1 # 2)
                sample_rng in
  ∃ flow_history g1 acts g2 rng2,
    nutrient_flow_simulation (graph made.1) ["node_0"] ["node_3"] 2
    = Some (flow_history, g1)
    ∧ self_healing_response g1 ["node_1"] (healing_factor made.1) made.2
      = Some (acts, g2, rng2)
    ∧ wf_graph g2 ∧ in_ranges g2.
Proof.
  apply generated_network_runs_through.
  - split; [apply (bool_decide_unpack _); vm_compute; exact I|].
    repeat constructor.
  - vm_compute. congruence.
  - vm_compute. congruence.
  - intros k. cbn [sample_rng unit_draw].
    destruct (Nat.even k); split; vm_compute; congruence.
Defined.
